(** * A shallow embedding of the B-rep modelling kernel

    The development follows the C++ sources:
    - [include/geometry.h]            : [Point3D], [Edge], [Face]
    - [src/model_manager.cpp]         : the entity store [ModelManager]
    - [src/geometry_algorithm.cpp]    : [calculateDistance],
                                        [projectPointToFace],
                                        [calculateFaceNormal], [translate],
                                        [rotateZ], [scale], [extrude],
                                        [revolve]
    - [src/topology_checker.cpp]      : [detectDuplicateEdges],
                                        [detectDuplicateFaces],
                                        [detectNormalInconsistencies],
                                        [detectAllTopologyErrors]

    Conventions of the embedding.
    - [int] values are integers of [Z]; every place where the source converts
      a [size_t] expression to [int] (or adds two [int]s) goes through
      [to_int], the wrap-around to the signed 32-bit range.
    - [double] is IEEE 754 binary64, modelled by [spec_float] with the
      operations of [SpecFloat] at precision 53 and maximal exponent 1024.
    - [std::unordered_map<int, shared_ptr<T>>] is a [gmap Z T]; the
      [std::vector]s that mirror the maps are lists in insertion order.
      The pointed-to objects are never written after their construction, so a
      map and its vector hold values instead of pointers; a null
      [shared_ptr] is never stored, and a nullable result is an [option].
    - the function-local [static double normal[3]] of [calculateFaceNormal]
      is program state: the functions that touch it take and return the
      contents of that buffer, and the [double*] they hand out is a pointer
      into it.
    - [std::to_string] on an [int] is [pretty] on [Z], and the text written
      to [std::cout] is a string that the printing function extends. *)

From Stdlib Require Import ZArith List Bool Lia Ascii.
From Stdlib Require Import Floats.SpecFloat.
From stdpp Require Import base gmap sets list strings pretty sorting.

Local Open Scope Z_scope.

(* ===================================================================== *)
(** ** Machine numbers *)
(* ===================================================================== *)

Definition INT_MIN : Z := - 2147483648.
Definition INT_MAX : Z := 2147483647.

(** Conversion of an integer value to [int] (two's complement wrap-around).
    A [size_t] intermediate wraps at [2^64], a multiple of [2^32], so taking
    the mathematical value first and wrapping once gives the same [int]. *)
Definition to_int (z : Z) : Z := (z + 2147483648) mod 4294967296 - 2147483648.

(** [int + int] and [edge_id++]. *)
Definition int_add (a b : Z) : Z := to_int (a + b).
Definition int_succ (a : Z) : Z := int_add a 1.

(** binary64 *)
Definition prec : Z := 53.
Definition emax : Z := 1024.

Definition double : Type := spec_float.

Definition d_add : double → double → double := SFadd prec emax.
Definition d_sub : double → double → double := SFsub prec emax.
Definition d_mul : double → double → double := SFmul prec emax.
Definition d_div : double → double → double := SFdiv prec emax.
Definition d_sqrt : double → double := SFsqrt prec emax.
Definition d_ltb : double → double → bool := SFltb.
(** [a > b] *)
Definition d_gtb (a b : double) : bool := SFltb b a.
(** conversion [int → double]; exact for the small values used here *)
Definition double_of_int (z : Z) : double := binary_normalize prec emax z 0 false.

Definition d_0 : double := S754_zero false.
Definition d_1 : double := S754_finite false 4503599627370496 (-52).
(** the literal [1e-6], i.e. 0x1.0c6f7a0b5ed8dp-20 *)
Definition d_1e_6 : double := S754_finite false 4722366482869645 (-72).

(* ===================================================================== *)
(** ** geometry.h *)
(* ===================================================================== *)

Record Point3D : Type := mkPoint3D {
  pt_id : Z;
  pt_x : double;
  pt_y : double;
  pt_z : double
}.

Record Edge : Type := mkEdge {
  start_id : Z;
  end_id : Z
}.

(** A [double[3]]. *)
Record Vec3 : Type := mkVec3 {
  at0 : double;
  at1 : double;
  at2 : double
}.

Record Face : Type := mkFace {
  edge_ids : list Z;
  normal : Vec3
}.

(** [Face::Face(edge_ids)] zeroes the normal. *)
Definition newFace (edge_ids : list Z) : Face :=
  mkFace edge_ids (mkVec3 d_0 d_0 d_0).

(* ===================================================================== *)
(** ** model_manager.cpp *)
(* ===================================================================== *)

Record ModelManager : Type := mkModelManager {
  vertex_map : gmap Z Point3D;
  edge_map : gmap Z Edge;
  face_map : gmap Z Face;
  vertices : list Point3D;
  edges : list Edge;
  faces : list Face
}.

(** [ModelManager::ModelManager()] *)
Definition newModelManager : ModelManager :=
  mkModelManager ∅ ∅ ∅ [] [] [].

Definition getVertex (m : ModelManager) (id : Z) : option Point3D :=
  vertex_map m !! id.

Definition getEdge (m : ModelManager) (id : Z) : option Edge :=
  edge_map m !! id.

Definition getFace (m : ModelManager) (id : Z) : option Face :=
  face_map m !! id.

Definition getVertices (m : ModelManager) : list Point3D := vertices m.
Definition getEdges (m : ModelManager) : list Edge := edges m.
Definition getFaces (m : ModelManager) : list Face := faces m.

(** [vector::reserve] changes the capacity only, which no operation of the
    store observes. *)
Definition reserveVertices (size : Z) (m : ModelManager) : ModelManager := m.
Definition reserveEdges (size : Z) (m : ModelManager) : ModelManager := m.
Definition reserveFaces (size : Z) (m : ModelManager) : ModelManager := m.

Definition addVertex (id : Z) (x y z : double) (m : ModelManager)
  : option Point3D * ModelManager :=
  match vertex_map m !! id with
  | Some existing => (Some existing, m)
  | None =>
      let vertex := mkPoint3D id x y z in
      (Some vertex,
       mkModelManager (<[id := vertex]> (vertex_map m)) (edge_map m) (face_map m)
                      (vertices m ++ [vertex]) (edges m) (faces m))
  end.

Definition addEdge (id start_id end_id : Z) (m : ModelManager)
  : option Edge * ModelManager :=
  match edge_map m !! id with
  | Some existing => (Some existing, m)
  | None =>
      match getVertex m start_id, getVertex m end_id with
      | Some _, Some _ =>
          let edge := mkEdge start_id end_id in
          (Some edge,
           mkModelManager (vertex_map m) (<[id := edge]> (edge_map m)) (face_map m)
                          (vertices m) (edges m ++ [edge]) (faces m))
      | _, _ => (None, m)
      end
  end.

(** The loop of [addFace] over [edge_ids]: [false] as soon as one
    [getEdge] is null. *)
Fixpoint edges_all_exist (m : ModelManager) (edge_ids : list Z) : bool :=
  match edge_ids with
  | [] => true
  | edge_id :: rest =>
      match getEdge m edge_id with
      | None => false
      | Some _ => edges_all_exist m rest
      end
  end.

Definition addFace (id : Z) (edge_ids : list Z) (m : ModelManager)
  : option Face * ModelManager :=
  match face_map m !! id with
  | Some existing => (Some existing, m)
  | None =>
      if edges_all_exist m edge_ids then
        let face := newFace edge_ids in
        (Some face,
         mkModelManager (vertex_map m) (edge_map m) (<[id := face]> (face_map m))
                        (vertices m) (edges m) (faces m ++ [face]))
      else (None, m)
  end.

(** The operations a client can apply to a store. *)
Inductive Op : Type :=
  | OpAddVertex (id : Z) (x y z : double)
  | OpAddEdge (id start_id end_id : Z)
  | OpAddFace (id : Z) (edge_ids : list Z)
  | OpReserveVertices (size : Z)
  | OpReserveEdges (size : Z)
  | OpReserveFaces (size : Z).

Definition apply_op (o : Op) (m : ModelManager) : ModelManager :=
  match o with
  | OpAddVertex id x y z => snd (addVertex id x y z m)
  | OpAddEdge id s e => snd (addEdge id s e m)
  | OpAddFace id es => snd (addFace id es m)
  | OpReserveVertices n => reserveVertices n m
  | OpReserveEdges n => reserveEdges n m
  | OpReserveFaces n => reserveFaces n m
  end.

(** Stores built from a fresh one by a sequence of operations. *)
Inductive reachable : ModelManager → Prop :=
  | reachable_new : reachable newModelManager
  | reachable_step o m : reachable m → reachable (apply_op o m).

(** Referential integrity of a store. *)
Definition edge_resolves (m : ModelManager) (e : Edge) : Prop :=
  is_Some (getVertex m (start_id e)) ∧ is_Some (getVertex m (end_id e)).

Definition face_resolves (m : ModelManager) (f : Face) : Prop :=
  ∀ edge_id, edge_id ∈ edge_ids f → is_Some (getEdge m edge_id).

Definition referential_integrity (m : ModelManager) : Prop :=
  (∀ id e, edge_map m !! id = Some e → edge_resolves m e) ∧
  (∀ e, e ∈ edges m → edge_resolves m e) ∧
  (∀ id f, face_map m !! id = Some f → face_resolves m f) ∧
  (∀ f, f ∈ faces m → face_resolves m f).

(* ===================================================================== *)
(** ** Loops and vectors *)
(* ===================================================================== *)

(** [for (i = lo; i < hi; ++i) s = body i s] *)
Definition for_range {S : Type} (lo hi : nat) (body : nat → S → S) (s : S) : S :=
  foldl (λ s i, body i s) s (seq lo (hi - lo)).

Global Instance Point3D_inhabited : Inhabited Point3D :=
  populate (mkPoint3D 0 d_0 d_0 d_0).

(* ===================================================================== *)
(** ** geometry_algorithm.cpp *)
(* ===================================================================== *)

(** The only [double*] that [calculateFaceNormal] returns is the address of
    its static array. *)
Inductive NormalPtr : Type := static_normal.

(** Reading through such a pointer when the static array holds [buf]. *)
Definition deref (buf : Vec3) (p : NormalPtr) : Vec3 :=
  match p with static_normal => buf end.

Definition set_at0 (d : double) (buf : Vec3) : Vec3 := mkVec3 d (at1 buf) (at2 buf).
Definition set_at1 (d : double) (buf : Vec3) : Vec3 := mkVec3 (at0 buf) d (at2 buf).
Definition set_at2 (d : double) (buf : Vec3) : Vec3 := mkVec3 (at0 buf) (at1 buf) d.

(** [normal[0] = 0.0; normal[1] = 0.0; normal[2] = 1.0; return normal;] *)
Definition write_default_normal (buf : Vec3) : NormalPtr * Vec3 :=
  (static_normal, set_at2 d_1 (set_at1 d_0 (set_at0 d_0 buf))).

Definition calculateFaceNormal (face : Face) (manager : ModelManager) (buf : Vec3)
  : NormalPtr * Vec3 :=
  if (Z.of_nat (length (edge_ids face)) <? 3) then write_default_normal buf
  else
    let edge1 := getEdge manager (edge_ids face !!! 0%nat) in
    let edge2 := getEdge manager (edge_ids face !!! 1%nat) in
    match edge1, edge2 with
    | Some edge1, Some edge2 =>
        let v1 := getVertex manager (start_id edge1) in
        let v2 := getVertex manager (end_id edge1) in
        let v3 := getVertex manager (end_id edge2) in
        match v1, v2, v3 with
        | Some v1, Some v2, Some v3 =>
            let v1v2 := mkVec3 (d_sub (pt_x v2) (pt_x v1)) (d_sub (pt_y v2) (pt_y v1))
                               (d_sub (pt_z v2) (pt_z v1)) in
            let v1v3 := mkVec3 (d_sub (pt_x v3) (pt_x v1)) (d_sub (pt_y v3) (pt_y v1))
                               (d_sub (pt_z v3) (pt_z v1)) in
            let buf := set_at0 (d_sub (d_mul (at1 v1v2) (at2 v1v3)) (d_mul (at2 v1v2) (at1 v1v3))) buf in
            let buf := set_at1 (d_sub (d_mul (at2 v1v2) (at0 v1v3)) (d_mul (at0 v1v2) (at2 v1v3))) buf in
            let buf := set_at2 (d_sub (d_mul (at0 v1v2) (at1 v1v3)) (d_mul (at1 v1v2) (at0 v1v3))) buf in
            let length :=
              d_sqrt (d_add (d_add (d_mul (at0 buf) (at0 buf)) (d_mul (at1 buf) (at1 buf)))
                            (d_mul (at2 buf) (at2 buf))) in
            if d_gtb length d_1e_6 then
              let buf := set_at0 (d_div (at0 buf) length) buf in
              let buf := set_at1 (d_div (at1 buf) length) buf in
              let buf := set_at2 (d_div (at2 buf) length) buf in
              (static_normal, buf)
            else (static_normal, buf)
        | _, _, _ => write_default_normal buf
        end
    | _, _ => write_default_normal buf
    end.

Definition extrude (manager : ModelManager) (profile_vertices : list Point3D)
    (distance : double) : bool * ModelManager :=
  match profile_vertices with
  | [] => (false, manager)
  | _ :: _ =>
      let vertex_count := length profile_vertices in
      let n := Z.of_nat vertex_count in
      let m := reserveVertices (n * 2) manager in
      let m := reserveEdges (n * 4) m in
      let m := reserveFaces (n + 2) m in
      let base_id := 1 in
      let m := for_range 0 vertex_count (λ i m,
                 let v := profile_vertices !!! i in
                 snd (addVertex (to_int (base_id + Z.of_nat i)) (pt_x v) (pt_y v) (pt_z v) m)) m in
      let m := for_range 0 vertex_count (λ i m,
                 let v := profile_vertices !!! i in
                 snd (addVertex (to_int (base_id + n + Z.of_nat i))
                                (pt_x v) (pt_y v) (d_add (pt_z v) distance) m)) m in
      let edge_id := 1 in
      let st := for_range 0 vertex_count (λ i st,
                  let next := to_int (Z.of_nat ((i + 1) mod vertex_count)) in
                  (int_succ (fst st),
                   snd (addEdge (fst st) (to_int (base_id + Z.of_nat i))
                                (int_add base_id next) (snd st)))) (edge_id, m) in
      let st := for_range 0 vertex_count (λ i st,
                  let next := to_int (Z.of_nat ((i + 1) mod vertex_count)) in
                  (int_succ (fst st),
                   snd (addEdge (fst st) (to_int (base_id + n + Z.of_nat i))
                                (to_int (base_id + n + next)) (snd st)))) st in
      let st := for_range 0 vertex_count (λ i st,
                  (int_succ (fst st),
                   snd (addEdge (fst st) (to_int (base_id + Z.of_nat i))
                                (to_int (base_id + n + Z.of_nat i)) (snd st)))) st in
      let m := snd st in
      let face_id := 1 in
      let base_edges := for_range 1 (vertex_count + 1) (λ i l, l ++ [to_int (Z.of_nat i)]) [] in
      let m := snd (addFace face_id base_edges m) in
      let face_id := int_succ face_id in
      let top_edges := for_range (vertex_count + 1) (vertex_count * 2 + 1)
                         (λ i l, l ++ [to_int (Z.of_nat i)]) [] in
      let m := snd (addFace face_id top_edges m) in
      let face_id := int_succ face_id in
      let st := for_range 0 vertex_count (λ i st,
                  let side_edges :=
                    [ to_int (n * 2 + 1 + Z.of_nat i);
                      to_int (n + 1 + Z.of_nat ((i + 1) mod vertex_count));
                      to_int (n * 2 + 1 + Z.of_nat ((i + 1) mod vertex_count));
                      to_int (Z.of_nat i + 1) ] in
                  (int_succ (fst st), snd (addFace (fst st) side_edges (snd st)))) (face_id, m) in
      (true, snd st)
  end.

Section Revolve.
(** [std::cos] and [std::sin] of the C library. *)
Variables std_cos std_sin : double → double.

Definition rotateZ (point : Point3D) (angle : double) : Point3D :=
  let cos_theta := std_cos angle in
  let sin_theta := std_sin angle in
  let x := d_sub (d_mul (pt_x point) cos_theta) (d_mul (pt_y point) sin_theta) in
  let y := d_add (d_mul (pt_x point) sin_theta) (d_mul (pt_y point) cos_theta) in
  mkPoint3D (pt_id point) x y (pt_z point).

(** [axis_direction] is a [const double*]: a pointer to the caller's array,
    or null. *)
Definition revolve (manager : ModelManager) (profile_vertices : list Point3D)
    (axis_point : Point3D) (axis_direction : option Vec3) (angle : double)
  : bool * ModelManager :=
  match profile_vertices with
  | [] => (false, manager)
  | _ :: _ =>
      let steps := 4 in
      let step_angle := d_div angle (double_of_int steps) in
      let vertex_count := length profile_vertices in
      let n := Z.of_nat vertex_count in
      let m := reserveVertices (n * (steps + 1)) manager in
      let m := reserveEdges (n * (steps * 2 + 1)) m in
      let m := reserveFaces (n * steps + 2) m in
      let base_id := 1 in
      let m := for_range 0 5 (λ step m,
                 let current_angle := d_mul step_angle (double_of_int (Z.of_nat step)) in
                 for_range 0 vertex_count (λ i m,
                   let v := profile_vertices !!! i in
                   let rotated := rotateZ v current_angle in
                   snd (addVertex (to_int (base_id + Z.of_nat step * n + Z.of_nat i))
                                  (pt_x rotated) (pt_y rotated) (pt_z rotated) m)) m) m in
      let edge_id := 1 in
      let st := for_range 0 5 (λ step st,
                  for_range 0 vertex_count (λ i st,
                    let next := to_int (Z.of_nat ((i + 1) mod vertex_count)) in
                    (int_succ (fst st),
                     snd (addEdge (fst st)
                            (to_int (base_id + Z.of_nat step * n + Z.of_nat i))
                            (to_int (base_id + Z.of_nat step * n + next)) (snd st)))) st)
                  (edge_id, m) in
      let st := for_range 0 vertex_count (λ i st,
                  for_range 0 4 (λ step st,
                    (int_succ (fst st),
                     snd (addEdge (fst st)
                            (to_int (base_id + Z.of_nat step * n + Z.of_nat i))
                            (to_int (base_id + (Z.of_nat step + 1) * n + Z.of_nat i))
                            (snd st)))) st) st in
      let m := snd st in
      let face_id := 1 in
      let end_edges := for_range 0 vertex_count (λ i l, l ++ [to_int (Z.of_nat i + 1)]) [] in
      let m := snd (addFace face_id end_edges m) in
      let face_id := int_succ face_id in
      let st := for_range 0 4 (λ step st,
                  for_range 0 vertex_count (λ i st,
                    let base := to_int (Z.of_nat step * n + 1) in
                    let next_base := to_int ((Z.of_nat step + 1) * n + 1) in
                    let side_edges :=
                      [ to_int (base + Z.of_nat i);
                        to_int (base + Z.of_nat ((i + 1) mod vertex_count));
                        to_int (next_base + Z.of_nat ((i + 1) mod vertex_count));
                        to_int (next_base + Z.of_nat i) ] in
                    (int_succ (fst st), snd (addFace (fst st) side_edges (snd st)))) st)
                  (face_id, m) in
      (true, snd st)
  end.
End Revolve.

(* ===================================================================== *)
(** ** topology_checker.cpp *)
(* ===================================================================== *)

(** [std::to_string(min_id) + "-" + std::to_string(max_id)] *)
Definition edge_signature (edge : Edge) : string :=
  let min_id := Z.min (start_id edge) (end_id edge) in
  let max_id := Z.max (start_id edge) (end_id edge) in
  pretty min_id +:+ "-" +:+ pretty max_id.

(** The loop state is [(duplicate_edges, edge_signatures)]. *)
Definition detectDuplicateEdges (manager : ModelManager) : list Z :=
  let edges := getEdges manager in
  fst (for_range 0 (length edges) (λ i (st : list Z * gset string),
         match edges !! i with
         | None => st
         | Some edge =>
             let signature := edge_signature edge in
             if decide (signature ∈ snd st)
             then (fst st ++ [start_id edge], snd st)
             else (fst st, snd st ∪ {[signature]})
         end) ([], ∅)).

Definition dot_product (a b : Vec3) : double :=
  d_add (d_add (d_mul (at0 a) (at0 b)) (d_mul (at1 a) (at1 b))) (d_mul (at2 a) (at2 b)).

(** [buf] is the static array of [calculateFaceNormal] on entry; the second
    component of the result is that array on exit. [ref_normal] and
    [current_normal] are pointers, read when the dot product is formed. The
    loop state is [(inconsistent_faces, static array)]. *)
Definition detectNormalInconsistencies (manager : ModelManager) (buf : Vec3)
  : list Z * Vec3 :=
  let faces := getFaces manager in
  match faces with
  | [] => ([], buf)
  | first_face :: _ =>
      match edge_ids first_face with
      | [] => ([], buf)
      | _ :: _ =>
          let '(ref_normal, buf) := calculateFaceNormal first_face manager buf in
          for_range 1 (length faces) (λ i (st : list Z * Vec3),
            match faces !! i with
            | None => st
            | Some face =>
                match edge_ids face with
                | [] => st
                | _ :: _ =>
                    let '(current_normal, buf) := calculateFaceNormal face manager (snd st) in
                    let dot := dot_product (deref buf ref_normal) (deref buf current_normal) in
                    if d_ltb dot d_0
                    then (fst st ++ [to_int (Z.of_nat i + 1)], buf)
                    else (fst st, buf)
                end
            end) ([], buf)
      end
  end.

(* ===================================================================== *)
(** ** The behaviour the specification describes *)
(* ===================================================================== *)

Definition default_normal : Vec3 := mkVec3 d_0 d_0 d_1.

Definition cross (a b : Vec3) : Vec3 :=
  mkVec3 (d_sub (d_mul (at1 a) (at2 b)) (d_mul (at2 a) (at1 b)))
         (d_sub (d_mul (at2 a) (at0 b)) (d_mul (at0 a) (at2 b)))
         (d_sub (d_mul (at0 a) (at1 b)) (d_mul (at1 a) (at0 b))).

Definition vec_between (p q : Point3D) : Vec3 :=
  mkVec3 (d_sub (pt_x q) (pt_x p)) (d_sub (pt_y q) (pt_y p)) (d_sub (pt_z q) (pt_z p)).

Definition vec_length (a : Vec3) : double := d_sqrt (dot_product a a).

Definition vec_div (a : Vec3) (d : double) : Vec3 :=
  mkVec3 (d_div (at0 a) d) (d_div (at1 a) d) (d_div (at2 a) d).

(** The three vertices the estimator looks at: start and end of the first
    edge, end of the second edge. *)
Definition resolve_triangle (face : Face) (m : ModelManager)
  : option (Point3D * Point3D * Point3D) :=
  match edge_ids face with
  | id1 :: id2 :: _ =>
      edge1 ← getEdge m id1;
      edge2 ← getEdge m id2;
      v1 ← getVertex m (start_id edge1);
      v2 ← getVertex m (end_id edge1);
      v3 ← getVertex m (end_id edge2);
      Some (v1, v2, v3)
  | _ => None
  end.

(** Section 4.2 of the specification, [calculateFaceNormal], as a value. *)
Definition face_normal_spec (face : Face) (m : ModelManager) : Vec3 :=
  if decide (length (edge_ids face) < 3)%nat then default_normal
  else
    match resolve_triangle face m with
    | None => default_normal
    | Some (v1, v2, v3) =>
        let c := cross (vec_between v1 v2) (vec_between v1 v3) in
        if d_gtb (vec_length c) d_1e_6 then vec_div c (vec_length c) else c
    end.

(** Section 4.4 of the specification, normal inconsistency: the reference is
    the normal of the first face, every later face with edges is compared
    with it, and its 1-based position is flagged when the dot product is
    negative. *)
Definition normal_inconsistencies_spec (m : ModelManager) : list Z :=
  match faces m with
  | [] => []
  | first_face :: rest =>
      match edge_ids first_face with
      | [] => []
      | _ :: _ =>
          let reference := face_normal_spec first_face m in
          omap (λ '(i, face),
                  match edge_ids face with
                  | [] => None
                  | _ :: _ =>
                      if d_ltb (dot_product reference (face_normal_spec face m)) d_0
                      then Some (Z.of_nat i + 1)
                      else None
                  end)
               (imap (λ i face, (S i, face)) rest)
      end
  end.

(** An edge that connects the vertices [a] and [b], in either orientation. *)
Definition connects (a b : Z) (e : Edge) : Prop :=
  (start_id e = a ∧ end_id e = b) ∨ (start_id e = b ∧ end_id e = a).

(** The expected rings of a sweep. *)
Definition extrude_base_vertices (profile : list Point3D) : list Point3D :=
  imap (λ i v, mkPoint3D (1 + Z.of_nat i) (pt_x v) (pt_y v) (pt_z v)) profile.

Definition extrude_top_vertices (profile : list Point3D) (distance : double) : list Point3D :=
  imap (λ i v, mkPoint3D (1 + Z.of_nat (length profile) + Z.of_nat i)
                 (pt_x v) (pt_y v) (d_add (pt_z v) distance)) profile.

(** The ids [lo, lo+1, ..., lo+len-1]. *)
Definition id_range (lo : Z) (len : nat) : list Z :=
  map (λ i, lo + Z.of_nat i) (seq 0 len).

(* ===================================================================== *)
(** ** Sample stores *)
(* ===================================================================== *)

Definition d_2 : double := S754_finite false 4503599627370496 (-51).

Definition run (ops : list Op) (m : ModelManager) : ModelManager :=
  foldl (λ m o, apply_op o m) m ops.

(** A triangle with the vertices 1, 2, 3, its three edges in both
    orientations, and two faces that wind in opposite directions. *)
Definition two_sided_triangle : ModelManager :=
  run [ OpAddVertex 1 d_0 d_0 d_0; OpAddVertex 2 d_1 d_0 d_0; OpAddVertex 3 d_0 d_1 d_0;
        OpAddEdge 1 1 2; OpAddEdge 2 2 3; OpAddEdge 3 3 1;
        OpAddEdge 4 1 3; OpAddEdge 5 3 2; OpAddEdge 6 2 1;
        OpAddFace 1 [1; 2; 3]; OpAddFace 2 [4; 5; 6] ] newModelManager.

(** Two vertices and one edge between them. *)
Definition one_edge_store : ModelManager :=
  run [ OpAddVertex 1 d_0 d_0 d_0; OpAddVertex 2 d_1 d_0 d_0; OpAddEdge 1 1 2 ]
      newModelManager.

(** Two vertices and two edges between them, in opposite orientations. *)
Definition double_edge_store : ModelManager :=
  run [ OpAddVertex 1 d_0 d_0 d_0; OpAddVertex 2 d_1 d_0 d_0;
        OpAddEdge 10 1 2; OpAddEdge 11 2 1 ] newModelManager.

(** A triangle with a leg of length 2 (face 1) and a degenerate face on
    three collinear vertices (face 2). *)
Definition d_4 : double := S754_finite false 4503599627370496 (-50).

Definition collinear_store : ModelManager :=
  run [ OpAddVertex 1 d_0 d_0 d_0; OpAddVertex 2 d_2 d_0 d_0; OpAddVertex 3 d_0 d_1 d_0;
        OpAddVertex 4 d_4 d_0 d_0;
        OpAddEdge 1 1 2; OpAddEdge 2 2 3; OpAddEdge 3 3 1; OpAddEdge 4 2 4; OpAddEdge 5 4 1;
        OpAddFace 1 [1; 2; 3]; OpAddFace 2 [1; 4; 5]; OpAddFace 3 [1; 2] ] newModelManager.

(** The unit square at [z = 0]. *)
Definition unit_square : list Point3D :=
  [ mkPoint3D 1 d_0 d_0 d_0; mkPoint3D 2 d_1 d_0 d_0;
    mkPoint3D 3 d_1 d_1 d_0; mkPoint3D 4 d_0 d_1 d_0 ].

(* ===================================================================== *)
(** ** Predicates used in the statements *)
(* ===================================================================== *)

(** A [double] that is not below zero: a NaN, a zero of either sign, plus
    infinity, or a finite number with a clear sign bit. *)
Definition not_negative (d : double) : Prop :=
  match d with
  | S754_finite true _ _ | S754_infinity true => False
  | _ => True
  end.

(** The map after a loop has inserted [val i] under [key i] for
    [i = 0, ..., k-1]. *)
Definition insert_range {A : Type} (key : nat → Z) (val : nat → A) (k : nat)
    (mp : gmap Z A) : gmap Z A :=
  foldl (λ mp i, <[key i := val i]> mp) mp (seq 0 k).

(** The keys of [mp] are the integers of [[lo, hi)]. *)
Definition dom_range {A : Type} (mp : gmap Z A) (lo hi : Z) : Prop :=
  ∀ id, is_Some (mp !! id) ↔ lo ≤ id < hi.

(** Ring number [step] of a revolution: the profile rotated about the Z axis
    by [step] times a quarter of [angle], under the ids that follow those of
    the earlier rings. *)
Definition revolve_ring (std_cos std_sin : double → double) (profile : list Point3D)
    (angle : double) (step : nat) : list Point3D :=
  let current_angle := d_mul (d_div angle (double_of_int 4)) (double_of_int (Z.of_nat step)) in
  imap (λ i v,
          let rotated := rotateZ std_cos std_sin v current_angle in
          mkPoint3D (1 + Z.of_nat step * Z.of_nat (length profile) + Z.of_nat i)
                    (pt_x rotated) (pt_y rotated) (pt_z rotated))
       profile.

(** The vertex side of a store. *)
Definition vertex_part (m : ModelManager) : gmap Z Point3D * list Point3D :=
  (vertex_map m, vertices m).

(** The values of [std::cos] and [std::sin] at the angle 0, the only angle
    that occurs in a revolution by 0 radians. *)
Definition cos_at_0 : double → double := λ _, d_1.
Definition sin_at_0 : double → double := λ _, d_0.

(* ===================================================================== *)
(** ** geometry_algorithm.cpp: distances, projection, transformations *)
(* ===================================================================== *)

Definition calculateDistance (p1 p2 : Point3D) : double :=
  let dx := d_sub (pt_x p2) (pt_x p1) in
  let dy := d_sub (pt_y p2) (pt_y p1) in
  let dz := d_sub (pt_z p2) (pt_z p1) in
  d_sqrt (d_add (d_add (d_mul dx dx) (d_mul dy dy)) (d_mul dz dz)).

Definition projectPointToFace (point : Point3D) (face : Face) (manager : ModelManager)
  : Point3D :=
  match edge_ids face with
  | [] => point
  | edge_id0 :: _ =>
      match getEdge manager edge_id0 with
      | None => point
      | Some edge =>
          match getVertex manager (start_id edge) with
          | None => point
          | Some vertex => vertex
          end
      end
  end.

Definition translate (point : Point3D) (dx dy dz : double) : Point3D :=
  mkPoint3D (pt_id point) (d_add (pt_x point) dx) (d_add (pt_y point) dy)
            (d_add (pt_z point) dz).

Definition scale (point : Point3D) (scale : double) : Point3D :=
  mkPoint3D (pt_id point) (d_mul (pt_x point) scale) (d_mul (pt_y point) scale)
            (d_mul (pt_z point) scale).

(* ===================================================================== *)
(** ** topology_checker.cpp: duplicate faces and the aggregate check *)
(* ===================================================================== *)

(** [std::sort] on a [vector<int>] gives the ascending arrangement of its
    elements, which is unique; [merge_sort] computes it. The signature is
    built by [signature += std::to_string(edge_id) + ","]. *)
Definition face_signature (face : Face) : string :=
  let sorted_edges := merge_sort Z.le (edge_ids face) in
  foldl (λ signature edge_id, signature +:+ (pretty edge_id +:+ ",")) "" sorted_edges.

(** The loop state is [(duplicate_faces, face_signatures)]. *)
Definition detectDuplicateFaces (manager : ModelManager) : list Z :=
  let faces := getFaces manager in
  fst (for_range 0 (length faces) (λ i (st : list Z * gset string),
         match faces !! i with
         | None => st
         | Some face =>
             let signature := face_signature face in
             if decide (signature ∈ snd st)
             then (fst st ++ [to_int (Z.of_nat i + 1)], snd st)
             else (fst st, snd st ∪ {[signature]})
         end) ([], ∅)).

(** [std::endl] *)
Definition endl : string := String (Ascii.ascii_of_nat 10) "".

(** [for (int id : ids) std::cout << id << " ";] *)
Definition print_ids (ids : list Z) (cout : string) : string :=
  foldl (λ cout id, (cout +:+ pretty id) +:+ " ") cout ids.

(** One of the three report blocks: when [found] is not empty, set the flag
    and print the heading, the ids and a line end. The state is
    [(has_errors, cout)]. *)
Definition report (heading : string) (found : list Z) (st : bool * string)
  : bool * string :=
  match found with
  | [] => st
  | _ :: _ => (true, print_ids found (snd st +:+ heading) +:+ endl)
  end.

(** [cout] is the text written to [std::cout] so far, [buf] the static array
    of [calculateFaceNormal]. *)
Definition detectAllTopologyErrors (manager : ModelManager) (buf : Vec3) (cout : string)
  : bool * Vec3 * string :=
  let has_errors := false in
  let duplicate_edges := detectDuplicateEdges manager in
  let st := report "检测到重复边：" duplicate_edges (has_errors, cout) in
  let duplicate_faces := detectDuplicateFaces manager in
  let st := report "检测到重复面：" duplicate_faces st in
  let '(inconsistent_faces, buf) := detectNormalInconsistencies manager buf in
  let st := report "检测到法向不一致的面：" inconsistent_faces st in
  let cout := if fst st then snd st else (snd st +:+ "未检测到拓扑错误！") +:+ endl in
  (fst st, buf, cout).

(* ===================================================================== *)
(** ** Notions used in the further statements *)
(* ===================================================================== *)

(** [m'] holds everything [m] holds, under the same ids and in the same
    order, and possibly more. *)
Definition store_extends (m m' : ModelManager) : Prop :=
  (∀ id v, getVertex m id = Some v → getVertex m' id = Some v) ∧
  (∀ id e, getEdge m id = Some e → getEdge m' id = Some e) ∧
  (∀ id f, getFace m id = Some f → getFace m' id = Some f) ∧
  vertices m `prefix_of` vertices m' ∧
  edges m `prefix_of` edges m' ∧
  faces m `prefix_of` faces m'.

(** The maps and the sequences of a store hold the same entities. *)
Definition store_consistent (m : ModelManager) : Prop :=
  vertices m ≡ₚ (map_to_list (vertex_map m)).*2 ∧
  edges m ≡ₚ (map_to_list (edge_map m)).*2 ∧
  faces m ≡ₚ (map_to_list (face_map m)).*2.

(** Every stored vertex carries the id it is stored under. *)
Definition vertex_ids_agree (m : ModelManager) : Prop :=
  (∀ id v, getVertex m id = Some v → pt_id v = id) ∧
  NoDup (pt_id <$> vertices m).

(** A [double] that is a number and not an infinity. *)
Definition is_finite (d : double) : Prop :=
  match d with
  | S754_zero _ | S754_finite _ _ _ => True
  | _ => False
  end.

(** The unordered endpoint pair of an edge, smaller id first. *)
Definition endpoint_pair (e : Edge) : Z * Z :=
  (Z.min (start_id e) (end_id e), Z.max (start_id e) (end_id e)).

(** The start ids of the edges whose endpoint pair occurred before, [seen]
    being the pairs met so far. *)
Fixpoint duplicate_edges_from (seen : list (Z * Z)) (edges : list Edge) : list Z :=
  match edges with
  | [] => []
  | e :: rest =>
      if decide (endpoint_pair e ∈ seen)
      then start_id e :: duplicate_edges_from seen rest
      else duplicate_edges_from (endpoint_pair e :: seen) rest
  end.

(** The positions (from [pos] on, as [int]) of the faces whose ascending edge
    id list occurred before, [seen] being the lists met so far. *)
Fixpoint duplicate_faces_from (seen : list (list Z)) (pos : nat) (faces : list Face)
  : list Z :=
  match faces with
  | [] => []
  | f :: rest =>
      if decide (merge_sort Z.le (edge_ids f) ∈ seen)
      then to_int (Z.of_nat pos + 1) :: duplicate_faces_from seen (S pos) rest
      else duplicate_faces_from (merge_sort Z.le (edge_ids f) :: seen) (S pos) rest
  end.

(** Strings without a given character. *)
Fixpoint string_avoids (c : Ascii.ascii) (s : string) : Prop :=
  match s with
  | EmptyString => True
  | String c' s' => c' ≠ c ∧ string_avoids c s'
  end.

(** Every id of [[lo, hi)] is a key of [mp]. *)
Definition covers {A : Type} (mp : gmap Z A) (lo hi : Z) : Prop :=
  ∀ id, lo ≤ id < hi → is_Some (mp !! id).

(** The ids an extrusion of an [n]-point profile uses are all taken. *)
Definition extruded (n : nat) (m : ModelManager) : Prop :=
  covers (vertex_map m) 1 (1 + 2 * Z.of_nat n) ∧
  covers (edge_map m) 1 (1 + 3 * Z.of_nat n) ∧
  covers (face_map m) 1 (3 + Z.of_nat n).

(** The edges and faces an extrusion of a [k]-point profile inserts into an
    empty store, in insertion order: base ring, top ring, vertical edges;
    bottom face, top face, side faces. *)
Definition extrude_edges (k : nat) : list Edge :=
  let n := Z.of_nat k in
  let next i := Z.of_nat ((i + 1) mod k) in
  map (λ i, mkEdge (1 + Z.of_nat i) (1 + next i)) (seq 0 k)
  ++ map (λ i, mkEdge (1 + n + Z.of_nat i) (1 + n + next i)) (seq 0 k)
  ++ map (λ i, mkEdge (1 + Z.of_nat i) (1 + n + Z.of_nat i)) (seq 0 k).

Definition extrude_side_face (k i : nat) : Face :=
  let n := Z.of_nat k in
  let next := Z.of_nat ((i + 1) mod k) in
  newFace [n * 2 + 1 + Z.of_nat i; n + 1 + next; n * 2 + 1 + next; Z.of_nat i + 1].

Definition extrude_faces (k : nat) : list Face :=
  newFace (id_range 1 k) :: newFace (id_range (Z.of_nat k + 1) k)
  :: map (extrude_side_face k) (seq 0 k).

(* ===================================================================== *)
(** ** The stores a sweep leaves, entity by entity *)
(* ===================================================================== *)

(** The ids of [mp] were handed out as 1, 2, ... in insertion order: the
    entity under [id] is the one at position [id - 1] of the sequence [l],
    and no other id is taken. *)
Definition indexed {A : Type} (mp : gmap Z A) (l : list A) : Prop :=
  ∀ id, mp !! id = if decide (1 ≤ id) then l !! Z.to_nat (id - 1) else None.

(** The edge id lists of the faces of an extrusion, in insertion order: the
    bottom face over the base ring, the top face over the top ring, and for
    every profile index the side face the loop builds. *)
Definition extrude_face_ids (k : nat) : list (list Z) :=
  let n := Z.of_nat k in
  id_range 1 k :: id_range (n + 1) k
  :: map (λ i, let next := Z.of_nat ((i + 1) mod k) in
               [n * 2 + 1 + Z.of_nat i; n + 1 + next; n * 2 + 1 + next; Z.of_nat i + 1])
         (seq 0 k).

(** The edges of a revolution of a [k]-point profile, in insertion order:
    for each of the five rings the edges from one ring vertex to the next,
    then for each profile index the four edges to the same index of the
    following ring. *)
Definition revolve_edges (k : nat) : list Edge :=
  let n := Z.of_nat k in
  concat (map (λ step,
                 map (λ i, mkEdge (1 + Z.of_nat step * n + Z.of_nat i)
                                  (1 + Z.of_nat step * n + Z.of_nat ((i + 1) mod k)))
                     (seq 0 k))
              (seq 0 5))
  ++ concat (map (λ i,
                    map (λ step, mkEdge (1 + Z.of_nat step * n + Z.of_nat i)
                                        (1 + (Z.of_nat step + 1) * n + Z.of_nat i))
                        (seq 0 4))
                 (seq 0 k)).

(** The edge id lists of the faces of a revolution: the end cap, then for
    each of the four bands and each profile index the side face the loop
    builds. *)
Definition revolve_face_ids (k : nat) : list (list Z) :=
  let n := Z.of_nat k in
  id_range 1 k
  :: concat (map (λ step,
                    let base := Z.of_nat step * n + 1 in
                    let next_base := (Z.of_nat step + 1) * n + 1 in
                    map (λ i, let next := Z.of_nat ((i + 1) mod k) in
                              [base + Z.of_nat i; base + next; next_base + next;
                               next_base + Z.of_nat i])
                        (seq 0 k))
                 (seq 0 4)).

(** A face as [addFace] stores it: the edge ids and the zero normal of the
    constructor. *)
Definition stored_face (ids : list Z) : Face := mkFace ids (mkVec3 d_0 d_0 d_0).

(** The operations that add an entity. *)
Definition is_add_op (o : Op) : Prop :=
  match o with
  | OpAddVertex _ _ _ _ | OpAddEdge _ _ _ | OpAddFace _ _ => True
  | _ => False
  end.

(* ===================================================================== *)
(** ** Face normals over the IEEE operations *)
(* ===================================================================== *)

Definition is_nan (d : double) : Prop :=
  match d with S754_nan => True | _ => False end.





(** 1e100, and a right triangle with legs of that length. *)
Definition d_1e100 : double := S754_finite false 5147557589468029 280.

Definition huge_triangle : ModelManager :=
  run [ OpAddVertex 1 d_0 d_0 d_0; OpAddVertex 2 d_1e100 d_0 d_0;
        OpAddVertex 3 d_0 d_1e100 d_0;
        OpAddEdge 1 1 2; OpAddEdge 2 2 3; OpAddEdge 3 3 1;
        OpAddFace 1 [1; 2; 3] ] newModelManager.

(** [m'] comes from [m] by operations that add an entity, and by no other
    change. *)
Definition built_by_adds (m m' : ModelManager) : Prop :=
  ∃ ops, Forall is_add_op ops ∧ m' = run ops m.

(* ===================================================================== *)
(** ** Machine arithmetic facts *)
(* ===================================================================== *)

Lemma to_int_in_range z : INT_MIN ≤ z ≤ INT_MAX → to_int z = z.
Proof.
  unfold INT_MIN, INT_MAX, to_int. intros Hz.
  rewrite Z.mod_small by lia. lia.
Qed.

Lemma int_succ_in_range z : INT_MIN ≤ z < INT_MAX → int_succ z = z + 1.
Proof.
  intros Hz. unfold int_succ, int_add. apply to_int_in_range.
  unfold INT_MIN, INT_MAX in *. lia.
Qed.

(* ===================================================================== *)
(** ** The entity store *)
(* ===================================================================== *)

Lemma edges_all_exist_true m ids :
  edges_all_exist m ids = true ↔ ∀ id, id ∈ ids → is_Some (getEdge m id).
Proof.
  induction ids as [|id ids IH]; simpl.
  - split; [intros _ id Hid; by apply not_elem_of_nil in Hid | done].
  - destruct (getEdge m id) as [e|] eqn:He.
    + rewrite IH. split.
      * intros Hall id' [->|Hin]%elem_of_cons; [by rewrite He | by apply Hall].
      * intros Hall id' Hin. apply Hall. by right.
    + split; [done|]. intros Hall.
      destruct (Hall id) as [e He']; [by left | congruence].
Qed.

Lemma edges_all_exist_false m ids :
  edges_all_exist m ids = false ↔ ∃ id, id ∈ ids ∧ getEdge m id = None.
Proof.
  induction ids as [|id ids IH]; simpl.
  - split; [done | intros (id & Hid & _); by apply not_elem_of_nil in Hid].
  - destruct (getEdge m id) as [e|] eqn:He.
    + rewrite IH. split.
      * intros (id' & Hin & Hnone). exists id'. split; [by right | done].
      * intros (id' & [->|Hin]%elem_of_cons & Hnone); [congruence | by exists id'].
    + split; [|done]. intros _. exists id. split; [by left | done].
Qed.

(** C3 as stated fails: an id that is already an edge id makes [addEdge]
    return the stored edge before the endpoints are looked at. Here edge 1
    exists and the vertices 5 and 6 do not, yet the call does not fail. *)
Lemma addEdge_fails_iff_absent_counterexample :
  ¬ (fst (addEdge 1 5 6 one_edge_store) = None
     ↔ getVertex one_edge_store 5 = None ∨ getVertex one_edge_store 6 = None).
Proof.
  intros [_ Hback].
  assert (Hnone : fst (addEdge 1 5 6 one_edge_store) = None) by (apply Hback; by left).
  vm_compute in Hnone. discriminate Hnone.
Qed.

(** C3, amended: when [id] is not yet an edge id of the store,
    [addEdge id start_id end_id] returns the not-found sentinel if and only
    if at least one of the two endpoint ids is absent from the vertices. *)
Theorem addEdge_fails_iff_absent_fresh m id s e :
  getEdge m id = None →
  fst (addEdge id s e m) = None ↔ getVertex m s = None ∨ getVertex m e = None.
Proof.
  unfold getEdge, addEdge. intros ->.
  destruct (getVertex m s) as [ps|], (getVertex m e) as [pe|]; simpl;
    (split; [try done; auto | try done; intros [?|?]; done]).
Qed.

Lemma addEdge_fails_iff_absent_fresh_witness :
  fst (addEdge 2 1 7 one_edge_store) = None
  ↔ getVertex one_edge_store 1 = None ∨ getVertex one_edge_store 7 = None.
Proof. apply addEdge_fails_iff_absent_fresh. reflexivity. Defined.

(** The other branch of [addEdge]: a known id gives back the stored edge. *)
Lemma addEdge_existing m id s e existing :
  getEdge m id = Some existing → addEdge id s e m = (Some existing, m).
Proof. unfold getEdge, addEdge. by intros ->. Qed.

(** [addEdge] and [addFace] return null only on a missing reference. *)
Lemma addEdge_None m id s e :
  fst (addEdge id s e m) = None →
  getEdge m id = None ∧ (getVertex m s = None ∨ getVertex m e = None).
Proof.
  unfold getEdge, addEdge.
  destruct (edge_map m !! id); [done|].
  destruct (getVertex m s), (getVertex m e); simpl; naive_solver.
Qed.

Lemma addFace_None m id ids :
  fst (addFace id ids m) = None →
  getFace m id = None ∧ ∃ edge_id, edge_id ∈ ids ∧ getEdge m edge_id = None.
Proof.
  unfold getFace, addFace.
  destruct (face_map m !! id); [done|].
  destruct (edges_all_exist m ids) eqn:Hall; [done|].
  intros _. split; [done|]. by apply edges_all_exist_false.
Qed.

(** C6: a call of [addEdge] or [addFace] that returns the not-found sentinel
    leaves every map and every insertion-order sequence of the store as it
    was. *)
Theorem failed_add_leaves_store_unchanged m id s e ids :
  (fst (addEdge id s e m) = None → snd (addEdge id s e m) = m) ∧
  (fst (addFace id ids m) = None → snd (addFace id ids m) = m).
Proof.
  split.
  - unfold addEdge. destruct (edge_map m !! id); [done|].
    by destruct (getVertex m s), (getVertex m e).
  - unfold addFace. destruct (face_map m !! id); [done|].
    by destruct (edges_all_exist m ids).
Qed.

Lemma failed_add_leaves_store_unchanged_witness :
  snd (addEdge 2 1 7 one_edge_store) = one_edge_store ∧
  snd (addFace 1 [1; 9] one_edge_store) = one_edge_store.
Proof.
  destruct (failed_add_leaves_store_unchanged one_edge_store 2 1 7 [1; 9]) as [He Hf].
  split; [apply He | apply Hf]; reflexivity.
Defined.

(** *** Referential integrity *)

Lemma getVertex_addVertex_mono m id x y z id' :
  is_Some (getVertex m id') → is_Some (getVertex (snd (addVertex id x y z m)) id').
Proof.
  unfold getVertex, addVertex. intros Hsome.
  destruct (vertex_map m !! id) eqn:Hid; simpl; [done|].
  destruct (decide (id = id')) as [->|Hne].
  - rewrite Hid in Hsome. by destruct Hsome.
  - by rewrite lookup_insert_ne.
Qed.

Lemma getEdge_addEdge_mono m id s e id' :
  is_Some (getEdge m id') → is_Some (getEdge (snd (addEdge id s e m)) id').
Proof.
  unfold getEdge, addEdge. intros Hsome.
  destruct (edge_map m !! id) eqn:Hid; simpl; [done|].
  destruct (getVertex m s), (getVertex m e); simpl; try done.
  destruct (decide (id = id')) as [->|Hne].
  - rewrite Hid in Hsome. by destruct Hsome.
  - by rewrite lookup_insert_ne.
Qed.

Lemma referential_integrity_new : referential_integrity newModelManager.
Proof.
  unfold referential_integrity, newModelManager. cbn [edge_map face_map edges faces].
  split; [|split; [|split]].
  - intros id e Hl. by rewrite lookup_empty in Hl.
  - intros e Hin. by apply not_elem_of_nil in Hin.
  - intros id f Hl. by rewrite lookup_empty in Hl.
  - intros f Hin. by apply not_elem_of_nil in Hin.
Qed.

Lemma referential_integrity_addVertex m id x y z :
  referential_integrity m → referential_integrity (snd (addVertex id x y z m)).
Proof.
  intros (Hem & Hel & Hfm & Hfl).
  assert (Hres : ∀ e, edge_resolves m e → edge_resolves (snd (addVertex id x y z m)) e).
  { intros e [Hs He]. split; by apply getVertex_addVertex_mono. }
  unfold addVertex in *. destruct (vertex_map m !! id) eqn:Hid; simpl in *; [done|].
  split; [|split; [|split]]; simpl.
  - intros id' e' Hl. apply Hres. by eapply Hem.
  - intros e' Hl. apply Hres. by apply Hel.
  - intros id' f Hl. by eapply Hfm.
  - intros f Hl. by apply Hfl.
Qed.

Lemma referential_integrity_addEdge m id s e :
  referential_integrity m → referential_integrity (snd (addEdge id s e m)).
Proof.
  intros (Hem & Hel & Hfm & Hfl).
  assert (Hres : ∀ f, face_resolves m f → face_resolves (snd (addEdge id s e m)) f).
  { intros f Hf edge_id Hin. by apply getEdge_addEdge_mono, Hf. }
  unfold addEdge in *. destruct (edge_map m !! id) eqn:Hid; simpl in *; [done|].
  destruct (getVertex m s) as [ps|] eqn:Hs; [|done].
  destruct (getVertex m e) as [pe|] eqn:He; [|done].
  simpl in *.
  assert (Hnew : edge_resolves m (mkEdge s e)).
  { split; simpl; [by rewrite Hs | by rewrite He]. }
  split; [|split; [|split]]; simpl.
  - intros id' e' Hl. destruct (decide (id = id')) as [->|Hne].
    + rewrite lookup_insert_eq in Hl. injection Hl as <-. apply Hnew.
    + rewrite lookup_insert_ne in Hl by done. by eapply Hem.
  - intros e' [Hin| ->%list_elem_of_singleton]%elem_of_app; [by apply Hel | apply Hnew].
  - intros id' f Hl. apply Hres. by eapply Hfm.
  - intros f Hl. apply Hres. by apply Hfl.
Qed.

Lemma referential_integrity_addFace m id ids :
  referential_integrity m → referential_integrity (snd (addFace id ids m)).
Proof.
  intros (Hem & Hel & Hfm & Hfl).
  unfold addFace. destruct (face_map m !! id) eqn:Hid; simpl; [done|].
  destruct (edges_all_exist m ids) eqn:Hall; simpl; [|done].
  assert (Hnew : face_resolves m (newFace ids)).
  { intros edge_id Hin. simpl in Hin. by eapply edges_all_exist_true. }
  split; [|split; [|split]]; simpl.
  - intros id' e' Hl. by eapply Hem.
  - intros e' Hl. by apply Hel.
  - intros id' f Hl. destruct (decide (id = id')) as [->|Hne].
    + rewrite lookup_insert_eq in Hl. injection Hl as <-. apply Hnew.
    + rewrite lookup_insert_ne in Hl by done. by eapply Hfm.
  - intros f [Hin| ->%list_elem_of_singleton]%elem_of_app; [by apply Hfl | apply Hnew].
Qed.

Lemma reachable_run ops m : reachable m → reachable (run ops m).
Proof.
  revert m. induction ops as [|o ops IH]; intros m Hm; [done|].
  apply IH. by constructor.
Qed.

(** C7: referential integrity holds in every store reachable from a fresh one
    by [addVertex], [addEdge], [addFace] and the [reserve] operations: every
    stored edge (in the map and in the sequence) has both endpoints among the
    vertices, and every stored face refers to stored edges only. *)
Theorem reachable_referential_integrity m :
  reachable m → referential_integrity m.
Proof.
  induction 1 as [|o m Hm IH]; [apply referential_integrity_new|].
  destruct o; simpl;
    auto using referential_integrity_addVertex, referential_integrity_addEdge,
               referential_integrity_addFace.
Qed.

Lemma reachable_referential_integrity_witness :
  referential_integrity two_sided_triangle.
Proof.
  apply reachable_referential_integrity.
  unfold two_sided_triangle. apply reachable_run. constructor.
Defined.

(** C8: adding a vertex under a fresh id and looking the id up gives the
    vertex with the coordinates passed in; adding under an id that is already
    present returns the stored vertex and changes nothing, so a later lookup
    still gives the original coordinates. *)
Theorem addVertex_getVertex m id x y z :
  (getVertex m id = None →
     getVertex (snd (addVertex id x y z m)) id = Some (mkPoint3D id x y z)) ∧
  (∀ existing, getVertex m id = Some existing →
     fst (addVertex id x y z m) = Some existing ∧
     snd (addVertex id x y z m) = m ∧
     getVertex (snd (addVertex id x y z m)) id = Some existing).
Proof.
  unfold getVertex, addVertex. split.
  - intros ->. simpl. apply lookup_insert_eq.
  - intros existing Hex. by rewrite Hex.
Qed.

Lemma addVertex_getVertex_witness :
  getVertex (snd (addVertex 7 d_1 d_2 d_0 one_edge_store)) 7 = Some (mkPoint3D 7 d_1 d_2 d_0) ∧
  getVertex (snd (addVertex 2 d_2 d_2 d_2 one_edge_store)) 2 = Some (mkPoint3D 2 d_1 d_0 d_0).
Proof.
  split.
  - apply (proj1 (addVertex_getVertex one_edge_store 7 d_1 d_2 d_0)). reflexivity.
  - apply (proj2 (addVertex_getVertex one_edge_store 2 d_2 d_2 d_2)). reflexivity.
Defined.

(* ===================================================================== *)
(** ** Loops *)
(* ===================================================================== *)

Lemma for_range_empty {S} lo (body : nat → S → S) s : for_range lo lo body s = s.
Proof. unfold for_range. by rewrite Nat.sub_diag. Qed.

Lemma for_range_snoc {S} lo hi (body : nat → S → S) s :
  (lo ≤ hi)%nat →
  for_range lo (Datatypes.S hi) body s = body hi (for_range lo hi body s).
Proof.
  intros Hle. unfold for_range.
  replace (Datatypes.S hi - lo)%nat with (Datatypes.S (hi - lo)) by lia.
  rewrite seq_S, foldl_app. simpl. do 2 f_equal. lia.
Qed.

(** Loop invariants. *)
Lemma for_range_invariant {S} (P : S → Prop) lo hi (body : nat → S → S) s :
  P s →
  (∀ i s, (lo ≤ i < hi)%nat → P s → P (body i s)) →
  P (for_range lo hi body s).
Proof.
  intros Hs Hbody. destruct (decide (lo ≤ hi)%nat) as [Hle|Hgt].
  - induction hi as [|hi IH].
    + assert (lo = 0%nat) as -> by lia. by rewrite for_range_empty.
    + destruct (decide (lo = Datatypes.S hi)) as [->|Hne].
      * by rewrite for_range_empty.
      * rewrite for_range_snoc by lia. apply Hbody; [lia|].
        apply IH; [|lia]. intros i s' Hi. apply Hbody. lia.
  - unfold for_range. by replace (hi - lo)%nat with 0%nat by lia.
Qed.

(* ===================================================================== *)
(** ** Duplicate edges *)
(* ===================================================================== *)

Lemma edge_signature_connects a b e1 e2 :
  connects a b e1 → connects a b e2 → edge_signature e1 = edge_signature e2.
Proof.
  unfold connects, edge_signature. destruct e1 as [s1 t1], e2 as [s2 t2]; simpl.
  intros [[-> ->]|[-> ->]] [[-> ->]|[-> ->]];
    by rewrite ?(Z.min_comm b a), ?(Z.max_comm b a).
Qed.

(** C9: in a store that contains the vertices 1 and 2 and whose edge sequence
    consists of exactly two edges, both connecting 1 and 2 in either
    orientation, [detectDuplicateEdges] returns one entry, the start vertex
    id of the second edge. Two entries of the edge sequence are always two
    insertions under different ids, and the ids play no role in the result. *)
Theorem detectDuplicateEdges_two_parallel_edges m e1 e2 :
  is_Some (getVertex m 1) → is_Some (getVertex m 2) →
  getEdges m = [e1; e2] →
  connects 1 2 e1 → connects 1 2 e2 →
  detectDuplicateEdges m = [start_id e2].
Proof.
  intros _ _ Hedges H1 H2. unfold detectDuplicateEdges. rewrite Hedges.
  cbn [length for_range Nat.sub seq foldl lookup list_lookup fst snd].
  destruct (decide (edge_signature e1 ∈ (∅ : gset string))) as [Hin|_]; [set_solver|].
  cbn [fst snd].
  destruct (decide (edge_signature e2 ∈ (∅ : gset string) ∪ {[edge_signature e1]}))
    as [_|Hnotin]; [done|].
  exfalso. apply Hnotin.
  rewrite (edge_signature_connects 1 2 e2 e1) by done. set_solver.
Qed.

Lemma detectDuplicateEdges_two_parallel_edges_witness :
  detectDuplicateEdges double_edge_store = [2].
Proof.
  apply (detectDuplicateEdges_two_parallel_edges double_edge_store (mkEdge 1 2) (mkEdge 2 1)).
  - by eexists.
  - by eexists.
  - reflexivity.
  - left. split; reflexivity.
  - right. split; reflexivity.
Defined.

(* ===================================================================== *)
(** ** Face normals *)
(* ===================================================================== *)

Lemma write_default_normal_value buf :
  deref (snd (write_default_normal buf)) (fst (write_default_normal buf)) = default_normal.
Proof. reflexivity. Qed.

(** The value left in the static array is the one the specification
    describes, whatever the array held before. *)
Lemma calculateFaceNormal_value face m buf :
  deref (snd (calculateFaceNormal face m buf)) (fst (calculateFaceNormal face m buf))
  = face_normal_spec face m.
Proof.
  unfold calculateFaceNormal, face_normal_spec, resolve_triangle.
  destruct face as [ids nrm]. cbn [edge_ids].
  destruct ids as [|id1 [|id2 [|id3 rest]]]; try reflexivity.
  replace (Z.of_nat (length (id1 :: id2 :: id3 :: rest)) <? 3) with false
    by (symmetry; apply Z.ltb_ge; simpl length; lia).
  rewrite decide_False by (simpl; lia).
  cbn [lookup_total list_lookup_total].
  destruct (getEdge m id1) as [edge1|]; [|reflexivity].
  destruct (getEdge m id2) as [edge2|]; [|reflexivity].
  cbn [mbind option_bind].
  destruct (getVertex m (start_id edge1)) as [v1|]; [|reflexivity].
  destruct (getVertex m (end_id edge1)) as [v2|]; [|reflexivity].
  destruct (getVertex m (end_id edge2)) as [v3|]; [|reflexivity].
  cbn [mbind option_bind].
  unfold vec_length, dot_product, cross, vec_between, vec_div, set_at0, set_at1, set_at2.
  cbn [at0 at1 at2].
  match goal with |- context [d_gtb ?l d_1e_6] => destruct (d_gtb l d_1e_6) end;
    reflexivity.
Qed.





(** Face 1 of the right triangle with legs of 1e100: its three edges
    resolve, the cross product is (0, 0, 1e200), the sum of the squares
    overflows, the computed length is plus infinity, and the vector returned
    is (0, 0, 0). *)
Example calculateFaceNormal_huge_triangle :
  getFace huge_triangle 1 = Some (stored_face [1; 2; 3])
  ∧ resolve_triangle (stored_face [1; 2; 3]) huge_triangle
    = Some (mkPoint3D 1 d_0 d_0 d_0, mkPoint3D 2 d_1e100 d_0 d_0, mkPoint3D 3 d_0 d_1e100 d_0)
  ∧ cross (vec_between (mkPoint3D 1 d_0 d_0 d_0) (mkPoint3D 2 d_1e100 d_0 d_0))
          (vec_between (mkPoint3D 1 d_0 d_0 d_0) (mkPoint3D 3 d_0 d_1e100 d_0))
    = mkVec3 d_0 d_0 (S754_finite false 5883593420661338 612)
  ∧ vec_length (mkVec3 d_0 d_0 (S754_finite false 5883593420661338 612))
    = S754_infinity false
  ∧ snd (calculateFaceNormal (stored_face [1; 2; 3]) huge_triangle (mkVec3 d_1 d_1 d_1))
    = mkVec3 d_0 d_0 d_0
  ∧ vec_length (mkVec3 d_0 d_0 d_0) = d_0.
Proof. repeat split; vm_compute; reflexivity. Qed.


(* ===================================================================== *)
(** ** binary64: a sum of squares is never below zero *)
(* ===================================================================== *)

Lemma binary_round_aux_sign s m e l :
  match binary_round_aux prec emax s m e l with
  | S754_zero s' | S754_infinity s' | S754_finite s' _ _ => s' = s
  | S754_nan => True
  end.
Proof.
  unfold binary_round_aux.
  destruct (shr_fexp prec emax m e l) as [mrs' e'].
  destruct (shr_fexp prec emax _ e' loc_Exact) as [mrs'' e''].
  destruct (shr_m mrs''); [done| |done].
  by destruct (e'' <=? emax - prec).
Qed.

Lemma binary_round_aux_not_negative m e l :
  not_negative (binary_round_aux prec emax false m e l).
Proof.
  pose proof (binary_round_aux_sign false m e l) as Hs.
  destruct (binary_round_aux prec emax false m e l); simpl; try done; by subst.
Qed.

Lemma d_mul_self_not_negative a : not_negative (d_mul a a).
Proof.
  destruct a as [s|s| |s m e]; simpl; try done.
  - by destruct s.
  - replace (xorb s s) with false by (by destruct s).
    apply binary_round_aux_not_negative.
Qed.

Lemma d_add_not_negative a b :
  not_negative a → not_negative b → not_negative (d_add a b).
Proof.
  destruct a as [sa|sa| |sa ma ea], b as [sb|sb| |sb mb eb];
    try (destruct sa); try (destruct sb); simpl; try done.
  intros _ _. unfold binary_normalize, binary_round.
  match goal with |- context [shl_align ?p ?e ?e'] => destruct (shl_align p e e') as [mz ez] end.
  apply binary_round_aux_not_negative.
Qed.

Lemma not_negative_ltb_zero d : not_negative d → d_ltb d d_0 = false.
Proof. destruct d as [s|s| |s m e]; try (destruct s); simpl; done. Qed.

Lemma dot_product_self_not_negative a : d_ltb (dot_product a a) d_0 = false.
Proof.
  apply not_negative_ltb_zero. unfold dot_product.
  auto using d_add_not_negative, d_mul_self_not_negative.
Qed.

(* ===================================================================== *)
(** ** Normal inconsistencies *)
(* ===================================================================== *)

(** Both pointers of the comparison are the address of the static array. *)
Lemma normal_pointers_alias (p q : NormalPtr) buf : deref buf p = deref buf q.
Proof. by destruct p, q. Qed.

Lemma detectNormalInconsistencies_nil m buf :
  fst (detectNormalInconsistencies m buf) = [].
Proof.
  unfold detectNormalInconsistencies.
  destruct (getFaces m) as [|first_face rest] eqn:Hfaces; [done|].
  destruct (edge_ids first_face) as [|id0 ids]; [done|].
  destruct (calculateFaceNormal first_face m buf) as [ref_normal buf1].
  apply (for_range_invariant (λ st, fst st = [])); [done|].
  intros i st _ Hst.
  destruct ((first_face :: rest) !! i) as [face|]; [|done].
  destruct (edge_ids face) as [|id ids']; [done|].
  destruct (calculateFaceNormal face m (snd st)) as [current_normal buf2].
  rewrite (normal_pointers_alias ref_normal current_normal).
  by rewrite dot_product_self_not_negative.
Qed.

(** C2: for every store (and every content of the static array on entry)
    [detectNormalInconsistencies] returns the empty list: the reference
    pointer and the pointer of the current normal are the same address, the
    dot product is the sum of the squares of the components of the current
    normal, and that sum is never below zero. *)
Theorem detectNormalInconsistencies_always_empty m buf :
  fst (detectNormalInconsistencies m buf) = []
  ∧ (∀ (ref_normal current_normal : NormalPtr) buf',
       deref buf' ref_normal = deref buf' current_normal
       ∧ dot_product (deref buf' ref_normal) (deref buf' current_normal)
         = d_add (d_add (d_mul (at0 buf') (at0 buf')) (d_mul (at1 buf') (at1 buf')))
                 (d_mul (at2 buf') (at2 buf'))
       ∧ d_ltb (dot_product (deref buf' ref_normal) (deref buf' current_normal)) d_0 = false).
Proof.
  split; [apply detectNormalInconsistencies_nil|].
  intros [] [] buf'. split; [done|]. split; [done|].
  apply dot_product_self_not_negative.
Qed.

(** C1 on the two-sided triangle: the second face winds against the first,
    the normals are (0,0,1) and (0,0,-1), their dot product is -1, and the
    described behaviour flags position 2. The code compares the static array
    with itself and flags nothing. *)
Lemma detectNormalInconsistencies_misses_flipped_face buf :
  normal_inconsistencies_spec two_sided_triangle = [2]
  ∧ fst (detectNormalInconsistencies two_sided_triangle buf) = [].
Proof. split; [by vm_compute | apply detectNormalInconsistencies_nil]. Qed.

(* ===================================================================== *)
(** ** Maps filled by a loop *)
(* ===================================================================== *)

Section insert_range.
Context {A : Type}.
Implicit Types (key : nat → Z) (val : nat → A) (mp : gmap Z A).

Lemma insert_range_S key val k mp :
  insert_range key val (S k) mp = <[key k := val k]> (insert_range key val k mp).
Proof. unfold insert_range. by rewrite seq_S, foldl_app. Qed.

Lemma insert_range_lookup_ne key val k mp id :
  (∀ i, (i < k)%nat → key i ≠ id) →
  insert_range key val k mp !! id = mp !! id.
Proof.
  induction k as [|k IH]; intros Hne; [done|].
  rewrite insert_range_S, lookup_insert_ne by (apply Hne; lia).
  apply IH. intros i Hi. apply Hne. lia.
Qed.

Lemma insert_range_lookup_is_Some key val k mp id :
  is_Some (insert_range key val k mp !! id)
  ↔ is_Some (mp !! id) ∨ ∃ i, (i < k)%nat ∧ key i = id.
Proof.
  induction k as [|k IH].
  - split; [by left | intros [?|(i & Hi & _)]; [done | lia]].
  - rewrite insert_range_S. destruct (decide (key k = id)) as [<-|Hne].
    + rewrite lookup_insert_eq. split; [|done].
      intros _. right. exists k. split; [lia | done].
    + rewrite lookup_insert_ne by done. rewrite IH. split.
      * intros [?|(i & Hi & Hk)]; [by left|]. right. exists i. split; [lia | done].
      * intros [?|(i & Hi & Hk)]; [by left|]. right. exists i. split; [|done].
        destruct (decide (i = k)) as [->|]; [done | lia].
Qed.

Lemma insert_range_lookup_eq key val k mp i :
  (∀ i j, (i < k)%nat → (j < k)%nat → key i = key j → i = j) →
  (i < k)%nat →
  insert_range key val k mp !! key i = Some (val i).
Proof.
  induction k as [|k IH]; intros Hinj Hi; [lia|].
  rewrite insert_range_S. destruct (decide (i = k)) as [->|Hne].
  - apply lookup_insert_eq.
  - rewrite lookup_insert_ne.
    + apply IH; [|lia]. intros i' j' Hi' Hj'. apply Hinj; lia.
    + intros Heq. apply Hne. symmetry. apply Hinj; [lia | lia | done].
Qed.

Lemma insert_range_size key val k mp :
  (∀ i j, (i < k)%nat → (j < k)%nat → key i = key j → i = j) →
  (∀ i, (i < k)%nat → mp !! key i = None) →
  size (insert_range key val k mp) = (size mp + k)%nat.
Proof.
  induction k as [|k IH]; intros Hinj Hfresh.
  - unfold insert_range. simpl. lia.
  - rewrite insert_range_S, map_size_insert_None.
    + rewrite IH; [lia | |].
      * intros i j Hi Hj. apply Hinj; lia.
      * intros i Hi. apply Hfresh. lia.
    + rewrite insert_range_lookup_ne; [apply Hfresh; lia|].
      intros i Hi Heq. apply Hinj in Heq; lia.
Qed.
End insert_range.

(* ===================================================================== *)
(** ** Loops that fill the store *)
(* ===================================================================== *)

(** A loop of [addVertex] calls under pairwise different, fresh ids. *)
Lemma addVertex_loop (f : nat → Z) (x y z : nat → double) k m :
  (∀ i j, (i < k)%nat → (j < k)%nat → f i = f j → i = j) →
  (∀ i, (i < k)%nat → vertex_map m !! f i = None) →
  for_range 0 k (λ i m, snd (addVertex (f i) (x i) (y i) (z i) m)) m
  = mkModelManager
      (insert_range f (λ i, mkPoint3D (f i) (x i) (y i) (z i)) k (vertex_map m))
      (edge_map m) (face_map m)
      (vertices m ++ map (λ i, mkPoint3D (f i) (x i) (y i) (z i)) (seq 0 k))
      (edges m) (faces m).
Proof.
  induction k as [|k IH]; intros Hinj Hfresh.
  - rewrite for_range_empty. simpl. rewrite app_nil_r. by destruct m.
  - rewrite for_range_snoc by lia. rewrite IH.
    + unfold addVertex. cbn [vertex_map edge_map face_map vertices edges faces].
      rewrite insert_range_lookup_ne.
      * rewrite Hfresh by lia. cbn [snd].
        by rewrite insert_range_S, seq_S, map_app, app_assoc.
      * intros i Hi Heq. apply Hinj in Heq; lia.
    + intros i j Hi Hj. apply Hinj; lia.
    + intros i Hi. apply Hfresh. lia.
Qed.

(** A loop of [addEdge(edge_id++, s, t)] calls: the ids are consecutive and
    fresh, the counter does not overflow, and the endpoints exist. *)
Lemma addEdge_loop (s t : nat → Z) k edge_id m :
  INT_MIN ≤ edge_id → edge_id + Z.of_nat k ≤ INT_MAX →
  (∀ i, (i < k)%nat → edge_map m !! (edge_id + Z.of_nat i) = None) →
  (∀ i, (i < k)%nat → is_Some (vertex_map m !! s i) ∧ is_Some (vertex_map m !! t i)) →
  for_range 0 k (λ i st, (int_succ (fst st), snd (addEdge (fst st) (s i) (t i) (snd st))))
            (edge_id, m)
  = (edge_id + Z.of_nat k,
     mkModelManager
       (vertex_map m)
       (insert_range (λ i, edge_id + Z.of_nat i) (λ i, mkEdge (s i) (t i)) k (edge_map m))
       (face_map m) (vertices m)
       (edges m ++ map (λ i, mkEdge (s i) (t i)) (seq 0 k))
       (faces m)).
Proof.
  intros Hlo. induction k as [|k IH]; intros Hhi Hfresh Hends.
  - rewrite for_range_empty. simpl. rewrite app_nil_r, Z.add_0_r. by destruct m.
  - rewrite for_range_snoc by lia. rewrite IH.
    + cbn [fst snd]. unfold addEdge, getVertex.
      cbn [vertex_map edge_map face_map vertices edges faces].
      rewrite insert_range_lookup_ne by (intros i Hi; lia).
      rewrite Hfresh by lia.
      destruct (Hends k) as [[ps ->] [pt ->]]; [lia|]. cbn [snd].
      rewrite int_succ_in_range by lia.
      rewrite insert_range_S, seq_S, map_app, app_assoc. simpl. f_equal. lia.
    + lia.
    + intros i Hi. apply Hfresh. lia.
    + intros i Hi. apply Hends. lia.
Qed.

(** A loop of [addFace(face_id++, side_edges)] calls. *)
Lemma addFace_loop (es : nat → list Z) k face_id m :
  INT_MIN ≤ face_id → face_id + Z.of_nat k ≤ INT_MAX →
  (∀ i, (i < k)%nat → face_map m !! (face_id + Z.of_nat i) = None) →
  (∀ i id, (i < k)%nat → id ∈ es i → is_Some (edge_map m !! id)) →
  for_range 0 k (λ i st, (int_succ (fst st), snd (addFace (fst st) (es i) (snd st))))
            (face_id, m)
  = (face_id + Z.of_nat k,
     mkModelManager
       (vertex_map m) (edge_map m)
       (insert_range (λ i, face_id + Z.of_nat i) (λ i, newFace (es i)) k (face_map m))
       (vertices m) (edges m)
       (faces m ++ map (λ i, newFace (es i)) (seq 0 k))).
Proof.
  intros Hlo. induction k as [|k IH]; intros Hhi Hfresh Hrefs.
  - rewrite for_range_empty. simpl. rewrite app_nil_r, Z.add_0_r. by destruct m.
  - rewrite for_range_snoc by lia. rewrite IH.
    + cbn [fst snd]. unfold addFace.
      cbn [vertex_map edge_map face_map vertices edges faces].
      rewrite insert_range_lookup_ne by (intros i Hi; lia).
      rewrite Hfresh by lia.
      replace (edges_all_exist _ (es k)) with true.
      * cbn [snd]. rewrite int_succ_in_range by lia.
        rewrite insert_range_S, seq_S, map_app, app_assoc. simpl. f_equal. lia.
      * symmetry. apply edges_all_exist_true. intros id Hid.
        unfold getEdge. cbn [edge_map]. eapply Hrefs; [|done]. lia.
    + lia.
    + intros i Hi. apply Hfresh. lia.
    + intros i id Hi. apply Hrefs. lia.
Qed.

Lemma push_back_loop {A} (g : nat → A) lo k l :
  for_range lo (lo + k) (λ i l, l ++ [g i]) l = l ++ map g (seq lo k).
Proof.
  induction k as [|k IH].
  - rewrite Nat.add_0_r, for_range_empty. simpl. by rewrite app_nil_r.
  - replace (lo + S k)%nat with (S (lo + k)) by lia.
    rewrite for_range_snoc by lia. by rewrite IH, seq_S, map_app, app_assoc.
Qed.

Lemma dom_range_empty {A} lo : dom_range (∅ : gmap Z A) lo lo.
Proof.
  intros id. rewrite lookup_empty. split; [by intros [? ?] | lia].
Qed.

Lemma dom_range_None {A} (mp : gmap Z A) lo hi id :
  dom_range mp lo hi → ¬ (lo ≤ id < hi) → mp !! id = None.
Proof.
  intros Hdom Hout. apply eq_None_not_Some. intros Hsome. by apply Hout, Hdom.
Qed.

Lemma dom_range_hi {A} (mp : gmap Z A) lo hi hi' :
  dom_range mp lo hi → hi = hi' → dom_range mp lo hi'.
Proof. by intros H <-. Qed.

Lemma dom_range_insert_range {A} key (val : nat → A) k mp lo hi :
  lo ≤ hi → dom_range mp lo hi →
  (∀ i, (i < k)%nat → key i = hi + Z.of_nat i) →
  dom_range (insert_range key val k mp) lo (hi + Z.of_nat k)
  ∧ size (insert_range key val k mp) = (size mp + k)%nat.
Proof.
  intros Hle Hdom Hkey. split.
  - intros id. rewrite insert_range_lookup_is_Some, (Hdom id). split.
    + intros [?|(i & Hi & <-)]; [lia|]. rewrite Hkey by done. lia.
    + intros Hid. destruct (decide (id < hi)); [left; lia|].
      right. exists (Z.to_nat (id - hi)). split; [lia|]. rewrite Hkey by lia. lia.
  - apply insert_range_size.
    + intros i j Hi Hj. rewrite !Hkey by done. lia.
    + intros i Hi. apply (dom_range_None _ lo hi); [done|]. rewrite Hkey by done. lia.
Qed.

Lemma next_index_lt i k : k ≠ 0%nat → (0 ≤ Z.of_nat ((i + 1) mod k) < Z.of_nat k).
Proof. intros Hk. pose proof (Nat.mod_upper_bound (i + 1) k Hk). lia. Qed.

Lemma seq_from lo k : seq lo k = map (λ i, (lo + i)%nat) (seq 0 k).
Proof.
  pose proof (fmap_add_seq lo 0 k) as Hs. rewrite Nat.add_0_r in Hs.
  rewrite <- Hs. reflexivity.
Qed.

Lemma int_ids_from (lo k : nat) :
  Z.of_nat lo + Z.of_nat k ≤ INT_MAX →
  map (λ i, to_int (Z.of_nat i)) (seq lo k) = id_range (Z.of_nat lo) k.
Proof.
  intros Hb. unfold id_range. rewrite (seq_from lo k), map_map.
  apply map_ext_in. intros i Hi%in_seq.
  rewrite to_int_in_range by (unfold INT_MIN, INT_MAX in *; lia). lia.
Qed.

Lemma elem_of_id_range id lo k : id ∈ id_range lo k ↔ lo ≤ id < lo + Z.of_nat k.
Proof.
  unfold id_range. rewrite list_elem_of_In, in_map_iff. split.
  - intros (i & <- & Hi%in_seq). lia.
  - intros Hid. exists (Z.to_nat (id - lo)). split; [lia|]. apply in_seq. lia.
Qed.

Lemma map_seq_lookup_total {A B} `{Inhabited A} (g : nat → A → B) (l : list A) :
  map (λ i, g i (l !!! i)) (seq 0 (length l)) = imap g l.
Proof.
  revert g. induction l as [|a l IH]; intros g; [done|].
  cbn [length seq imap map]. f_equal.
  rewrite <- seq_shift, map_map. apply (IH (g ∘ S)).
Qed.

Ltac int_lia := unfold INT_MIN, INT_MAX in *; lia.

Ltac int_simpl :=
  unfold int_add;
  repeat match goal with
    | |- context [to_int ?z] => rewrite (to_int_in_range z) by int_lia
    end.

(* ===================================================================== *)
(** ** Stores filled under the ids 1, 2, ... *)
(* ===================================================================== *)

Lemma indexed_empty {A} : indexed (∅ : gmap Z A) [].
Proof. intros id. rewrite lookup_empty. by destruct (decide (1 ≤ id)). Qed.

Lemma indexed_dom_range {A} (mp : gmap Z A) l :
  indexed mp l → dom_range mp 1 (1 + Z.of_nat (length l)).
Proof.
  intros Hix id. rewrite (Hix id). destruct (decide (1 ≤ id)).
  - rewrite lookup_lt_is_Some. lia.
  - split; [by intros [? ?] | lia].
Qed.

Lemma indexed_lookup {A} (mp : gmap Z A) l id (j : nat) :
  indexed mp l → id = 1 + Z.of_nat j → mp !! id = l !! j.
Proof. intros Hix ->. rewrite Hix, decide_True by lia. f_equal. lia. Qed.

Lemma lookup_cons_S {A} (x : A) l i : (x :: l) !! S i = l !! i.
Proof. reflexivity. Qed.

Lemma lookup_map_seq {A} (val : nat → A) k i :
  (i < k)%nat → map val (seq 0 k) !! i = Some (val i).
Proof.
  intros Hi. change (map val (seq 0 k)) with (val <$> seq 0 k).
  by rewrite list_lookup_fmap, lookup_seq_lt.
Qed.

Lemma indexed_insert_range {A} key (val : nat → A) k mp l :
  indexed mp l →
  (∀ i, (i < k)%nat → key i = 1 + Z.of_nat (length l) + Z.of_nat i) →
  indexed (insert_range key val k mp) (l ++ map val (seq 0 k))
  ∧ size (insert_range key val k mp) = (size mp + k)%nat.
Proof.
  intros Hix Hkey. split.
  - intros id.
    destruct (decide (1 + Z.of_nat (length l) ≤ id < 1 + Z.of_nat (length l) + Z.of_nat k))
      as [Hin|Hout].
    + set (i := Z.to_nat (id - 1 - Z.of_nat (length l))).
      assert (Hi : (i < k)%nat) by lia.
      replace id with (key i) at 1 by (rewrite Hkey by done; lia).
      rewrite insert_range_lookup_eq; [|intros a b Ha Hb; rewrite !Hkey by done; lia|done].
      rewrite decide_True by lia. rewrite lookup_app_r by lia.
      replace (Z.to_nat (id - 1) - length l)%nat with i by lia.
      by rewrite lookup_map_seq.
    + rewrite insert_range_lookup_ne by (intros i Hi; rewrite Hkey by done; lia).
      rewrite (Hix id). destruct (decide (1 ≤ id)); [|done].
      destruct (decide (id < 1 + Z.of_nat (length l))).
      * by rewrite lookup_app_l by lia.
      * rewrite !lookup_ge_None_2; [done| |lia].
        rewrite length_app, length_map, length_seq. lia.
  - apply insert_range_size.
    + intros i j Hi Hj. rewrite !Hkey by done. lia.
    + intros i Hi. apply (dom_range_None _ _ _ _ (indexed_dom_range _ _ Hix)).
      rewrite Hkey by done. lia.
Qed.

(** A block of [k] vertices under the next [k] ids. *)
Lemma vertex_block_indexed (x y z : nat → double) k base vm em fm vs es fs :
  indexed vm vs → base = 1 + Z.of_nat (length vs) → base + Z.of_nat k ≤ INT_MAX + 1 →
  ∃ vm',
    for_range 0 k (λ i m, snd (addVertex (to_int (base + Z.of_nat i)) (x i) (y i) (z i) m))
              (mkModelManager vm em fm vs es fs)
    = mkModelManager vm' em fm
        (vs ++ map (λ i, mkPoint3D (base + Z.of_nat i) (x i) (y i) (z i)) (seq 0 k)) es fs
    ∧ indexed vm' (vs ++ map (λ i, mkPoint3D (base + Z.of_nat i) (x i) (y i) (z i)) (seq 0 k))
    ∧ size vm' = (size vm + k)%nat.
Proof.
  intros Hix -> Hmax.
  assert (Hl : map (λ i, mkPoint3D (to_int (1 + Z.of_nat (length vs) + Z.of_nat i))
                           (x i) (y i) (z i)) (seq 0 k)
               = map (λ i, mkPoint3D (1 + Z.of_nat (length vs) + Z.of_nat i) (x i) (y i) (z i))
                     (seq 0 k)).
  { apply map_ext_in. intros i Hi%in_seq. by int_simpl. }
  eexists. split; [|rewrite <- Hl; apply indexed_insert_range; [done|]].
  - rewrite (addVertex_loop (λ i, to_int (1 + Z.of_nat (length vs) + Z.of_nat i)) x y z).
    + cbn [vertex_map edge_map face_map vertices edges faces]. by rewrite Hl.
    + intros i j Hi Hj. int_simpl. lia.
    + intros i Hi. cbn [vertex_map].
      apply (dom_range_None _ _ _ _ (indexed_dom_range _ _ Hix)). int_simpl. lia.
  - intros i Hi. simpl. by int_simpl.
Qed.

(** A block of [k] edges under the next [k] ids, between stored vertices. *)
Lemma edge_block_indexed (s t : nat → Z) k c vm em fm vs es fs hi :
  indexed em es → c = 1 + Z.of_nat (length es) → c + Z.of_nat k ≤ INT_MAX →
  dom_range vm 1 hi →
  (∀ i, (i < k)%nat → 1 ≤ s i < hi ∧ 1 ≤ t i < hi) →
  ∃ em',
    for_range 0 k (λ i st, (int_succ (fst st), snd (addEdge (fst st) (s i) (t i) (snd st))))
              (c, mkModelManager vm em fm vs es fs)
    = (c + Z.of_nat k,
       mkModelManager vm em' fm vs (es ++ map (λ i, mkEdge (s i) (t i)) (seq 0 k)) fs)
    ∧ indexed em' (es ++ map (λ i, mkEdge (s i) (t i)) (seq 0 k))
    ∧ size em' = (size em + k)%nat.
Proof.
  intros Hix -> Hmax Hvm Hends.
  eexists. split; [|apply indexed_insert_range; [done|]].
  - apply addEdge_loop; [int_lia | done | |].
    + intros i Hi. cbn [edge_map].
      apply (dom_range_None _ _ _ _ (indexed_dom_range _ _ Hix)). lia.
    + intros i Hi. cbn [vertex_map]. destruct (Hends i Hi). split; by apply Hvm.
  - intros i Hi. done.
Qed.

(** A block of [k] faces under the next [k] ids, over stored edges. *)
Lemma face_block_indexed (ids : nat → list Z) k c vm em fm vs es fs hi :
  indexed fm fs → c = 1 + Z.of_nat (length fs) → c + Z.of_nat k ≤ INT_MAX →
  dom_range em 1 hi →
  (∀ i id, (i < k)%nat → id ∈ ids i → 1 ≤ id < hi) →
  ∃ fm',
    for_range 0 k (λ i st, (int_succ (fst st), snd (addFace (fst st) (ids i) (snd st))))
              (c, mkModelManager vm em fm vs es fs)
    = (c + Z.of_nat k,
       mkModelManager vm em fm' vs es (fs ++ map (λ i, stored_face (ids i)) (seq 0 k)))
    ∧ indexed fm' (fs ++ map (λ i, stored_face (ids i)) (seq 0 k))
    ∧ size fm' = (size fm + k)%nat.
Proof.
  intros Hix -> Hmax Hem Hrefs.
  eexists. split; [|apply indexed_insert_range; [done|]].
  - apply addFace_loop; [int_lia | done | |].
    + intros i Hi. cbn [face_map].
      apply (dom_range_None _ _ _ _ (indexed_dom_range _ _ Hix)). lia.
    + intros i id Hi Hid. cbn [edge_map]. apply Hem. by eapply Hrefs.
  - intros i Hi. done.
Qed.

(** One face under the next id, over stored edges. *)
Lemma addFace_indexed (ids : list Z) c vm em fm vs es fs hi :
  indexed fm fs → c = 1 + Z.of_nat (length fs) →
  dom_range em 1 hi → (∀ id, id ∈ ids → 1 ≤ id < hi) →
  ∃ fm',
    snd (addFace c ids (mkModelManager vm em fm vs es fs))
    = mkModelManager vm em fm' vs es (fs ++ [stored_face ids])
    ∧ indexed fm' (fs ++ [stored_face ids])
    ∧ size fm' = (size fm + 1)%nat.
Proof.
  intros Hix -> Hem Hrefs.
  destruct (indexed_insert_range (λ _ : nat, 1 + Z.of_nat (length fs))
              (λ _ : nat, stored_face ids) 1 fm fs Hix) as [Hix' Hsize]; [intros i Hi; lia|].
  exists (<[1 + Z.of_nat (length fs) := stored_face ids]> fm).
  split; [|split; [exact Hix' | exact Hsize]].
  unfold addFace. cbn [vertex_map edge_map face_map vertices edges faces].
  rewrite (dom_range_None _ _ _ _ (indexed_dom_range _ _ Hix)) by lia.
  replace (edges_all_exist _ ids) with true; [done|].
  symmetry. apply edges_all_exist_true. intros id Hid.
  unfold getEdge. cbn [edge_map]. apply Hem. by apply Hrefs.
Qed.

(* ===================================================================== *)
(** ** Extrusion *)
(* ===================================================================== *)

Ltac length_lia :=
  repeat first [rewrite length_app | rewrite length_map | rewrite length_seq
               | rewrite length_imap | progress cbn [length]];
  lia.

(** The store an extrusion leaves from the empty store, entity by entity. *)
Lemma extrude_empty_store_explicit profile distance :
  profile ≠ [] →
  3 * Z.of_nat (length profile) < INT_MAX →
  ∃ vm em fm,
    extrude newModelManager profile distance
    = (true, mkModelManager vm em fm
               (extrude_base_vertices profile ++ extrude_top_vertices profile distance)
               (extrude_edges (length profile))
               (map stored_face (extrude_face_ids (length profile))))
    ∧ indexed vm (extrude_base_vertices profile ++ extrude_top_vertices profile distance)
    ∧ indexed em (extrude_edges (length profile))
    ∧ indexed fm (map stored_face (extrude_face_ids (length profile)))
    ∧ size vm = (2 * length profile)%nat
    ∧ size em = (3 * length profile)%nat
    ∧ size fm = (length profile + 2)%nat.
Proof.
  intros Hne Hbound. unfold extrude.
  destruct profile as [|p0 rest] eqn:Hp; [done|]. rewrite <- Hp in *. clear Hp p0 rest.
  set (k := length profile) in *.
  assert (Hk : k ≠ 0%nat) by (subst k; by destruct profile).
  assert (Hnext : ∀ i, 0 ≤ Z.of_nat ((i + 1) mod k) < Z.of_nat k)
    by (intros i; by apply next_index_lt).
  unfold reserveVertices, reserveEdges, reserveFaces. cbv zeta.
  unfold newModelManager.
  (* base ring and top ring of vertices *)
  destruct (vertex_block_indexed (λ i, pt_x (profile !!! i)) (λ i, pt_y (profile !!! i))
              (λ i, pt_z (profile !!! i)) k 1 ∅ ∅ ∅ [] [] [])
    as (vm1 & -> & Hvix1 & Hvsz1); [apply indexed_empty | done | int_lia |].
  match type of Hvix1 with indexed vm1 ?l =>
  destruct (vertex_block_indexed (λ i, pt_x (profile !!! i)) (λ i, pt_y (profile !!! i))
              (λ i, d_add (pt_z (profile !!! i)) distance) k (1 + Z.of_nat k)
              vm1 ∅ ∅ l [] [])
    as (vm & -> & Hvix & Hvsz); [done | length_lia | int_lia |]
  end.
  match type of Hvix with indexed vm ?l =>
    assert (Hvs : l = extrude_base_vertices profile ++ extrude_top_vertices profile distance);
    [|rewrite Hvs in *; clear Hvs]
  end.
  { cbn [app]. unfold extrude_base_vertices, extrude_top_vertices. fold k. f_equal.
    - by rewrite (map_seq_lookup_total (λ i v, mkPoint3D (1 + Z.of_nat i)
                                                 (pt_x v) (pt_y v) (pt_z v))).
    - by rewrite (map_seq_lookup_total
                    (λ i v, mkPoint3D (1 + Z.of_nat k + Z.of_nat i)
                              (pt_x v) (pt_y v) (d_add (pt_z v) distance))). }
  rewrite map_size_empty in Hvsz1. clear Hvix1.
  set (vs := extrude_base_vertices profile ++ extrude_top_vertices profile distance) in *.
  assert (Hvm : dom_range vm 1 (1 + Z.of_nat k + Z.of_nat k)).
  { eapply dom_range_hi; [apply (indexed_dom_range _ _ Hvix)|].
    subst vs. unfold extrude_base_vertices, extrude_top_vertices. length_lia. }
  (* base ring, top ring, vertical edges *)
  destruct (edge_block_indexed (λ i, to_int (1 + Z.of_nat i))
              (λ i, int_add 1 (to_int (Z.of_nat ((i + 1) mod k))))
              k 1 vm ∅ ∅ vs [] [] (1 + Z.of_nat k + Z.of_nat k))
    as (em1 & -> & Heix1 & Hesz1);
    [apply indexed_empty | done | int_lia | done
    | intros i Hi; pose proof (Hnext i); int_simpl; lia |].
  match type of Heix1 with indexed em1 ?l =>
  destruct (edge_block_indexed (λ i, to_int (1 + Z.of_nat k + Z.of_nat i))
              (λ i, to_int (1 + Z.of_nat k + to_int (Z.of_nat ((i + 1) mod k))))
              k (1 + Z.of_nat k) vm em1 ∅ vs l [] (1 + Z.of_nat k + Z.of_nat k))
    as (em2 & -> & Heix2 & Hesz2);
    [done | length_lia | int_lia | done
    | intros i Hi; pose proof (Hnext i); int_simpl; lia |]
  end.
  match type of Heix2 with indexed em2 ?l =>
  destruct (edge_block_indexed (λ i, to_int (1 + Z.of_nat i))
              (λ i, to_int (1 + Z.of_nat k + Z.of_nat i))
              k (1 + Z.of_nat k + Z.of_nat k) vm em2 ∅ vs l [] (1 + Z.of_nat k + Z.of_nat k))
    as (em & -> & Heix & Hesz);
    [done | length_lia | int_lia | done
    | intros i Hi; int_simpl; lia |]
  end.
  cbn [snd].
  match type of Heix with indexed em ?l =>
    assert (Hes : l = extrude_edges k); [|rewrite Hes in *; clear Hes]
  end.
  { unfold extrude_edges. cbn [app]. rewrite <- app_assoc.
    f_equal; [|f_equal]; apply map_ext_in; intros i Hi%in_seq; pose proof (Hnext i);
      int_simpl; done. }
  rewrite map_size_empty in Hesz1. clear Heix1 Heix2.
  set (es := extrude_edges k) in *.
  assert (Hem : dom_range em 1 (1 + Z.of_nat k + Z.of_nat k + Z.of_nat k)).
  { eapply dom_range_hi; [apply (indexed_dom_range _ _ Heix)|].
    subst es. unfold extrude_edges. length_lia. }
  (* bottom face, top face *)
  replace (k + 1)%nat with (1 + k)%nat by lia.
  replace (k * 2 + 1)%nat with (1 + k + k)%nat by lia.
  rewrite !push_back_loop. cbn [app].
  rewrite (int_ids_from 1 k), (int_ids_from (1 + k) k) by int_lia.
  replace (Z.of_nat (1 + k)) with (Z.of_nat k + 1) by lia.
  change (Z.of_nat 1) with 1. change (int_succ 1) with 2. change (int_succ 2) with 3.
  destruct (addFace_indexed (id_range 1 k) 1 vm em ∅ vs es []
              (1 + Z.of_nat k + Z.of_nat k + Z.of_nat k))
    as (fm1 & -> & Hfix1 & Hfsz1);
    [apply indexed_empty | done | done | intros id Hid%elem_of_id_range; lia |].
  match type of Hfix1 with indexed fm1 ?l =>
  destruct (addFace_indexed (id_range (Z.of_nat k + 1) k) 2 vm em fm1 vs es l
              (1 + Z.of_nat k + Z.of_nat k + Z.of_nat k))
    as (fm2 & -> & Hfix2 & Hfsz2);
    [done | done | done | intros id Hid%elem_of_id_range; lia |]
  end.
  (* side faces *)
  match type of Hfix2 with indexed fm2 ?l =>
  destruct (face_block_indexed
              (λ i, [ to_int (Z.of_nat k * 2 + 1 + Z.of_nat i);
                      to_int (Z.of_nat k + 1 + Z.of_nat ((i + 1) mod k));
                      to_int (Z.of_nat k * 2 + 1 + Z.of_nat ((i + 1) mod k));
                      to_int (Z.of_nat i + 1) ])
              k 3 vm em fm2 vs es l
              (1 + Z.of_nat k + Z.of_nat k + Z.of_nat k))
    as (fm & -> & Hfix & Hfsz); [done | done | int_lia | done | |]
  end.
  { intros i id Hi Hid. pose proof (Hnext i).
    repeat (apply elem_of_cons in Hid as [->|Hid]; [int_simpl; lia|]).
    by apply not_elem_of_nil in Hid. }
  cbn [snd].
  match type of Hfix with indexed fm ?l =>
    assert (Hfs : l = map stored_face (extrude_face_ids k)); [|rewrite Hfs in *; clear Hfs]
  end.
  { unfold extrude_face_ids. cbn [app map]. do 2 f_equal.
    rewrite map_map. apply map_ext_in; intros i Hi%in_seq; pose proof (Hnext i).
    by int_simpl. }
  rewrite map_size_empty in Hfsz1.
  exists vm, em, fm. repeat split; try done; lia.
Qed.

(** C4: for a non-empty profile of n points (with 3n below [INT_MAX], so that
    no id computation leaves the range of [int]) and any distance, [extrude]
    on an empty store returns [true] and leaves 2n vertices (the base ring
    followed by the top ring), 3n edges and n+2 faces, in the sequences and in
    the maps alike. Vertex 1+i is profile point i and vertex 1+n+i the same
    point raised by the distance; edge 1+i joins the base vertices 1+i and
    1+((i+1) mod n), edge 1+n+i joins the top vertices 1+n+i and
    1+n+((i+1) mod n), edge 1+2n+i joins vertex 1+i and vertex 1+n+i; face 1
    holds the edge ids 1..n of the base ring in order, face 2 the edge ids
    n+1..2n of the top ring in order, and face 3+i the four edge ids of the
    side loop. Every id is the position in the sequence plus one. *)
Theorem extrude_empty_store profile distance :
  profile ≠ [] →
  3 * Z.of_nat (length profile) < INT_MAX →
  ∃ m', extrude newModelManager profile distance = (true, m')
    ∧ vertices m' = extrude_base_vertices profile ++ extrude_top_vertices profile distance
    ∧ length (vertices m') = (2 * length profile)%nat
    ∧ size (vertex_map m') = (2 * length profile)%nat
    ∧ length (edges m') = (3 * length profile)%nat
    ∧ size (edge_map m') = (3 * length profile)%nat
    ∧ length (faces m') = (length profile + 2)%nat
    ∧ size (face_map m') = (length profile + 2)%nat
    ∧ getFace m' 1 = Some (mkFace (id_range 1 (length profile)) (mkVec3 d_0 d_0 d_0))
    ∧ getFace m' 2 = Some (mkFace (id_range (Z.of_nat (length profile) + 1) (length profile))
                                  (mkVec3 d_0 d_0 d_0))
    ∧ (∀ i p, profile !! i = Some p →
         let n := Z.of_nat (length profile) in
         let next := Z.of_nat ((i + 1) mod length profile) in
         getVertex m' (1 + Z.of_nat i)
         = Some (mkPoint3D (1 + Z.of_nat i) (pt_x p) (pt_y p) (pt_z p))
         ∧ getVertex m' (1 + n + Z.of_nat i)
           = Some (mkPoint3D (1 + n + Z.of_nat i) (pt_x p) (pt_y p) (d_add (pt_z p) distance))
         ∧ getEdge m' (1 + Z.of_nat i) = Some (mkEdge (1 + Z.of_nat i) (1 + next))
         ∧ getEdge m' (1 + n + Z.of_nat i)
           = Some (mkEdge (1 + n + Z.of_nat i) (1 + n + next))
         ∧ getEdge m' (1 + 2 * n + Z.of_nat i)
           = Some (mkEdge (1 + Z.of_nat i) (1 + n + Z.of_nat i))
         ∧ getFace m' (3 + Z.of_nat i)
           = Some (mkFace [n * 2 + 1 + Z.of_nat i; n + 1 + next; n * 2 + 1 + next;
                           Z.of_nat i + 1]
                          (mkVec3 d_0 d_0 d_0)))
    ∧ edges m' = extrude_edges (length profile)
    ∧ faces m' = map (λ ids, mkFace ids (mkVec3 d_0 d_0 d_0))
                     (extrude_face_ids (length profile))
    ∧ indexed (vertex_map m') (vertices m')
    ∧ indexed (edge_map m') (edges m')
    ∧ indexed (face_map m') (faces m').
Proof.
  intros Hne Hbound.
  destruct (extrude_empty_store_explicit profile distance Hne Hbound)
    as (vm & em & fm & -> & Hvix & Heix & Hfix & Hvsz & Hesz & Hfsz).
  eexists. split; [reflexivity|].
  unfold getVertex, getEdge, getFace.
  cbn [vertex_map edge_map face_map vertices edges faces].
  set (k := length profile) in *.
  split; [done|]. split.
  { unfold extrude_base_vertices, extrude_top_vertices. length_lia. }
  split; [done|]. split.
  { unfold extrude_edges. length_lia. }
  split; [done|]. split.
  { unfold extrude_face_ids. cbn [map]. length_lia. }
  split; [done|]. split.
  { by rewrite (indexed_lookup _ _ 1 0 Hfix). }
  split.
  { by rewrite (indexed_lookup _ _ 2 1 Hfix). }
  split; [|done].
  intros i p Hp.
  assert (Hi : (i < k)%nat) by (by apply lookup_lt_Some in Hp).
  split; [|split; [|split; [|split; [|split]]]].
  - rewrite (indexed_lookup _ _ _ i Hvix) by done.
    rewrite lookup_app_l by (unfold extrude_base_vertices; length_lia).
    unfold extrude_base_vertices. by rewrite list_lookup_imap, Hp.
  - rewrite (indexed_lookup _ _ _ (k + i) Hvix) by lia.
    rewrite lookup_app_r by (unfold extrude_base_vertices; length_lia).
    unfold extrude_base_vertices, extrude_top_vertices. rewrite length_imap.
    replace (k + i - length profile)%nat with i by lia.
    by rewrite list_lookup_imap, Hp.
  - rewrite (indexed_lookup _ _ _ i Heix) by done.
    unfold extrude_edges. rewrite lookup_app_l by length_lia.
    by rewrite lookup_map_seq.
  - rewrite (indexed_lookup _ _ _ (k + i) Heix) by lia.
    unfold extrude_edges. rewrite lookup_app_r by length_lia.
    rewrite length_map, length_seq. replace (k + i - k)%nat with i by lia.
    rewrite lookup_app_l by length_lia.
    by rewrite lookup_map_seq.
  - rewrite (indexed_lookup _ _ _ (k + k + i) Heix) by lia.
    unfold extrude_edges. rewrite lookup_app_r by length_lia.
    rewrite length_map, length_seq.
    rewrite lookup_app_r by length_lia.
    rewrite length_map, length_seq. replace (k + k + i - k - k)%nat with i by lia.
    by rewrite lookup_map_seq.
  - rewrite (indexed_lookup _ _ _ (S (S i)) Hfix) by lia.
    unfold extrude_face_ids. rewrite !map_cons, !lookup_cons_S, map_map.
    by rewrite lookup_map_seq.
Qed.

Lemma extrude_empty_store_witness :
  ∃ m', extrude newModelManager unit_square d_1 = (true, m')
    ∧ vertices m' = extrude_base_vertices unit_square ++ extrude_top_vertices unit_square d_1
    ∧ length (vertices m') = 8%nat
    ∧ size (vertex_map m') = 8%nat
    ∧ length (edges m') = 12%nat
    ∧ size (edge_map m') = 12%nat
    ∧ length (faces m') = 6%nat
    ∧ size (face_map m') = 6%nat
    ∧ getFace m' 1 = Some (mkFace [1; 2; 3; 4] (mkVec3 d_0 d_0 d_0))
    ∧ getFace m' 2 = Some (mkFace [5; 6; 7; 8] (mkVec3 d_0 d_0 d_0))
    ∧ (getVertex m' 2 = Some (mkPoint3D 2 d_1 d_0 d_0)
       ∧ getVertex m' 6 = Some (mkPoint3D 6 d_1 d_0 d_1)
       ∧ getEdge m' 2 = Some (mkEdge 2 3)
       ∧ getEdge m' 6 = Some (mkEdge 6 7)
       ∧ getEdge m' 10 = Some (mkEdge 2 6)
       ∧ getFace m' 4 = Some (mkFace [10; 7; 11; 2] (mkVec3 d_0 d_0 d_0)))
    ∧ edges m' = [ mkEdge 1 2; mkEdge 2 3; mkEdge 3 4; mkEdge 4 1;
                   mkEdge 5 6; mkEdge 6 7; mkEdge 7 8; mkEdge 8 5;
                   mkEdge 1 5; mkEdge 2 6; mkEdge 3 7; mkEdge 4 8 ]
    ∧ faces m' = map (λ ids, mkFace ids (mkVec3 d_0 d_0 d_0))
                     [ [1; 2; 3; 4]; [5; 6; 7; 8]; [9; 6; 10; 1]; [10; 7; 11; 2];
                       [11; 8; 12; 3]; [12; 5; 9; 4] ]
    ∧ indexed (vertex_map m') (vertices m')
    ∧ indexed (edge_map m') (edges m')
    ∧ indexed (face_map m') (faces m').
Proof.
  destruct (extrude_empty_store unit_square d_1)
    as (m' & H1 & H2 & H3 & H4 & H5 & H6 & H7 & H8 & H9 & H10 & Hat & H11 & H12 & H13);
    [discriminate | reflexivity |].
  exists m'. do 10 (split; [assumption|]).
  split; [exact (Hat 1%nat (mkPoint3D 2 d_1 d_0 d_0) eq_refl)|].
  split; [exact H11|]. split; [exact H12|]. exact H13.
Defined.

(** The empty profile is refused and the store is left alone. *)
Lemma extrude_empty_profile m distance : extrude m [] distance = (false, m).
Proof. reflexivity. Qed.

(* ===================================================================== *)
(** ** Revolution *)
(* ===================================================================== *)

Lemma for_range_5 {S} (body : nat → S → S) s :
  for_range 0 5 body s = body 4%nat (body 3%nat (body 2%nat (body 1%nat (body 0%nat s)))).
Proof. reflexivity. Qed.

Lemma addEdge_vertex_part id s t m : vertex_part (snd (addEdge id s t m)) = vertex_part m.
Proof.
  unfold addEdge. destruct (edge_map m !! id); [done|].
  by destruct (getVertex m s), (getVertex m t).
Qed.

Lemma addFace_vertex_part id ids m : vertex_part (snd (addFace id ids m)) = vertex_part m.
Proof.
  unfold addFace. destruct (face_map m !! id); [done|].
  by destruct (edges_all_exist m ids).
Qed.

(** The edge and face loops of a sweep leave the vertex side alone. *)
Ltac vertex_part_preserved :=
  repeat first
    [ assumption
    | rewrite addEdge_vertex_part
    | rewrite addFace_vertex_part
    | progress cbn [snd]
    | apply (for_range_invariant (λ st : Z * ModelManager, vertex_part (snd st) = _));
      [|intros ? ? _ ?] ].

(** One ring of vertices: [k] fresh ids from [base] on. *)
Lemma ring_loop (profile : list Point3D) k (base : Z) (g : Point3D → Point3D) m :
  k = length profile →
  1 ≤ base → base + Z.of_nat k ≤ INT_MAX + 1 →
  dom_range (vertex_map m) 1 base →
  ∃ vm',
    for_range 0 k
      (λ i m, snd (addVertex (to_int (base + Z.of_nat i)) (pt_x (g (profile !!! i)))
                             (pt_y (g (profile !!! i))) (pt_z (g (profile !!! i))) m)) m
    = mkModelManager vm' (edge_map m) (face_map m)
        (vertices m ++ imap (λ i v, mkPoint3D (base + Z.of_nat i)
                                      (pt_x (g v)) (pt_y (g v)) (pt_z (g v))) profile)
        (edges m) (faces m)
    ∧ dom_range vm' 1 (base + Z.of_nat k)
    ∧ size vm' = (size (vertex_map m) + k)%nat.
Proof.
  intros -> Hbase Hmax Hdom. eexists. split; [|apply dom_range_insert_range].
  - rewrite (addVertex_loop (λ i, to_int (base + Z.of_nat i)) (λ i, pt_x (g (profile !!! i)))
               (λ i, pt_y (g (profile !!! i))) (λ i, pt_z (g (profile !!! i)))).
    + f_equal. f_equal.
      rewrite (map_seq_lookup_total (λ i v, mkPoint3D (to_int (base + Z.of_nat i))
                                              (pt_x (g v)) (pt_y (g v)) (pt_z (g v)))).
      apply imap_ext. intros i v Hv%lookup_lt_Some. simpl. by int_simpl.
    + intros i j Hi Hj. int_simpl. lia.
    + intros i Hi. apply (dom_range_None _ _ _ _ Hdom). int_simpl. lia.
  - lia.
  - done.
  - intros i Hi. simpl. int_simpl. lia.
Qed.

Section Revolve_facts.
Variables std_cos std_sin : double → double.

(** C5: for a non-empty profile of n points (with 9n below [INT_MAX], so
    that no id computation leaves the range of [int]) and any angle,
    [revolve] on an empty store returns [true] and leaves the vertices of
    exactly five rings of n points each, 5n in total; and on any store the
    result and the store left behind do not depend on [axis_point] and
    [axis_direction]. *)
Theorem revolve_rings_axis_ignored profile angle :
  profile ≠ [] →
  9 * Z.of_nat (length profile) < INT_MAX →
  (∀ m axis_point axis_direction axis_point' axis_direction',
     revolve std_cos std_sin m profile axis_point axis_direction angle
     = revolve std_cos std_sin m profile axis_point' axis_direction' angle)
  ∧ (∀ axis_point axis_direction,
       ∃ m', revolve std_cos std_sin newModelManager profile axis_point axis_direction angle
             = (true, m')
         ∧ vertices m' = concat (map (revolve_ring std_cos std_sin profile angle) (seq 0 5))
         ∧ Forall (λ ring, length ring = length profile)
                  (map (revolve_ring std_cos std_sin profile angle) (seq 0 5))
         ∧ length (vertices m') = (5 * length profile)%nat
         ∧ size (vertex_map m') = (5 * length profile)%nat).
Proof.
  intros Hne Hbound. split; [reflexivity|]. intros axis_point axis_direction.
  unfold revolve.
  destruct profile as [|p0 rest] eqn:Hp; [done|]. rewrite <- Hp in *. clear Hp p0 rest.
  set (k := length profile) in *.
  unfold reserveVertices, reserveEdges, reserveFaces. cbv zeta.
  rewrite (for_range_5 (S := ModelManager)). cbv beta.
  set (step_angle := d_div angle (double_of_int 4)).
  destruct (ring_loop profile k (1 + Z.of_nat 0 * Z.of_nat k)
              (λ v, rotateZ std_cos std_sin v (d_mul step_angle (double_of_int (Z.of_nat 0))))
              newModelManager) as (vm1 & -> & Hdom1 & Hsize1);
    [done | lia | int_lia | apply dom_range_empty |].
  cbn [vertex_map edge_map face_map vertices edges faces newModelManager app] in *.
  match goal with |- context [mkModelManager vm1 ?e ?f ?vs ?es ?fs] =>
    destruct (ring_loop profile k (1 + Z.of_nat 1 * Z.of_nat k)
                (λ v, rotateZ std_cos std_sin v (d_mul step_angle (double_of_int (Z.of_nat 1))))
                (mkModelManager vm1 e f vs es fs)) as (vm2 & -> & Hdom2 & Hsize2);
      [done | lia | int_lia | eapply dom_range_hi; [exact Hdom1 | lia] |]
  end.
  cbn [vertex_map edge_map face_map vertices edges faces] in *.
  match goal with |- context [mkModelManager vm2 ?e ?f ?vs ?es ?fs] =>
    destruct (ring_loop profile k (1 + Z.of_nat 2 * Z.of_nat k)
                (λ v, rotateZ std_cos std_sin v (d_mul step_angle (double_of_int (Z.of_nat 2))))
                (mkModelManager vm2 e f vs es fs)) as (vm3 & -> & Hdom3 & Hsize3);
      [done | lia | int_lia | eapply dom_range_hi; [exact Hdom2 | lia] |]
  end.
  cbn [vertex_map edge_map face_map vertices edges faces] in *.
  match goal with |- context [mkModelManager vm3 ?e ?f ?vs ?es ?fs] =>
    destruct (ring_loop profile k (1 + Z.of_nat 3 * Z.of_nat k)
                (λ v, rotateZ std_cos std_sin v (d_mul step_angle (double_of_int (Z.of_nat 3))))
                (mkModelManager vm3 e f vs es fs)) as (vm4 & -> & Hdom4 & Hsize4);
      [done | lia | int_lia | eapply dom_range_hi; [exact Hdom3 | lia] |]
  end.
  cbn [vertex_map edge_map face_map vertices edges faces] in *.
  match goal with |- context [mkModelManager vm4 ?e ?f ?vs ?es ?fs] =>
    destruct (ring_loop profile k (1 + Z.of_nat 4 * Z.of_nat k)
                (λ v, rotateZ std_cos std_sin v (d_mul step_angle (double_of_int (Z.of_nat 4))))
                (mkModelManager vm4 e f vs es fs)) as (vm5 & -> & Hdom5 & Hsize5);
      [done | lia | int_lia | eapply dom_range_hi; [exact Hdom4 | lia] |]
  end.
  cbn [vertex_map edge_map face_map vertices edges faces] in *.
  match goal with |- context [mkModelManager vm5 ?e ?f ?vs ?es ?fs] =>
    set (MV := mkModelManager vm5 e f vs es fs)
  end.
  eexists. split; [reflexivity|].
  match goal with |- vertices ?M = _ ∧ _ =>
    assert (Hvp : vertex_part M = vertex_part MV)
  end.
  { assert (Hstart : vertex_part MV = vertex_part MV) by done.
    vertex_part_preserved. }
  unfold vertex_part in Hvp. injection Hvp as Hvm Hvs.
  rewrite Hvs, Hvm. subst MV. cbn [vertex_map vertices].
  assert (Hrings : Forall (λ ring, length ring = k)
                     (map (revolve_ring std_cos std_sin profile angle) (seq 0 5))).
  { cbn [map seq]. unfold revolve_ring. repeat constructor; apply length_imap. }
  split; [|split; [done|split]].
  - unfold revolve_ring. fold k. fold step_angle. cbn [map seq concat].
    by rewrite app_nil_r, <- !app_assoc.
  - rewrite !length_app, !length_imap. fold k. lia.
  - rewrite Hsize5, Hsize4, Hsize3, Hsize2, Hsize1, map_size_empty. lia.
Qed.

(** The empty profile is refused. *)
Lemma revolve_empty_profile m axis_point axis_direction angle :
  revolve std_cos std_sin m [] axis_point axis_direction angle = (false, m).
Proof. reflexivity. Qed.
End Revolve_facts.

Lemma revolve_rings_axis_ignored_witness :
  (∀ m axis_point axis_direction axis_point' axis_direction',
     revolve cos_at_0 sin_at_0 m unit_square axis_point axis_direction d_0
     = revolve cos_at_0 sin_at_0 m unit_square axis_point' axis_direction' d_0)
  ∧ (∀ axis_point axis_direction,
       ∃ m', revolve cos_at_0 sin_at_0 newModelManager unit_square axis_point axis_direction d_0
             = (true, m')
         ∧ vertices m' = concat (map (revolve_ring cos_at_0 sin_at_0 unit_square d_0) (seq 0 5))
         ∧ Forall (λ ring, length ring = 4%nat)
                  (map (revolve_ring cos_at_0 sin_at_0 unit_square d_0) (seq 0 5))
         ∧ length (vertices m') = 20%nat
         ∧ size (vertex_map m') = 20%nat).
Proof.
  apply (revolve_rings_axis_ignored cos_at_0 sin_at_0 unit_square d_0);
    [discriminate | reflexivity].
Defined.

(* ===================================================================== *)
(** ** Sample runs *)
(* ===================================================================== *)

Example to_int_wraps : to_int 2147483648 = -2147483648 ∧ to_int (-1) = -1.
Proof. split; reflexivity. Qed.

Example edge_signature_sample :
  edge_signature (mkEdge 12 3) = "3-12"%string ∧ edge_signature (mkEdge 2 (-13)) = "-13-2"%string.
Proof. split; reflexivity. Qed.

Example detectDuplicateEdges_sample :
  detectDuplicateEdges double_edge_store = [2] ∧ detectDuplicateEdges one_edge_store = [].
Proof. split; reflexivity. Qed.

Example calculateFaceNormal_sample :
  map (λ face, snd (calculateFaceNormal face two_sided_triangle (mkVec3 d_0 d_0 d_0)))
      (faces two_sided_triangle)
  = [ mkVec3 d_0 d_0 d_1; mkVec3 d_0 d_0 (S754_finite true 4503599627370496 (-52)) ].
Proof. reflexivity. Qed.

(** A cross product of length 2 is normalised, the zero cross product of a
    degenerate face is returned as it is, and a face with two edges gets the
    default. *)
Example calculateFaceNormal_branches :
  map (λ face, snd (calculateFaceNormal face collinear_store (mkVec3 d_4 d_4 d_4)))
      (faces collinear_store)
  = [ mkVec3 d_0 d_0 d_1; mkVec3 d_0 d_0 d_0; mkVec3 d_0 d_0 d_1 ].
Proof. reflexivity. Qed.

Example extrude_unit_square_edges :
  edges (snd (extrude newModelManager unit_square d_1))
  = [ mkEdge 1 2; mkEdge 2 3; mkEdge 3 4; mkEdge 4 1;
      mkEdge 5 6; mkEdge 6 7; mkEdge 7 8; mkEdge 8 5;
      mkEdge 1 5; mkEdge 2 6; mkEdge 3 7; mkEdge 4 8 ]
  ∧ map edge_ids (faces (snd (extrude newModelManager unit_square d_1)))
    = [ [1; 2; 3; 4]; [5; 6; 7; 8]; [9; 6; 10; 1]; [10; 7; 11; 2]; [11; 8; 12; 3]; [12; 5; 9; 4] ].
Proof. split; vm_compute; reflexivity. Qed.

Example revolve_unit_square_counts :
  let m := snd (revolve cos_at_0 sin_at_0 newModelManager unit_square
                        (mkPoint3D 0 d_0 d_0 d_0) None d_0) in
  (length (vertices m), length (edges m), length (faces m)) = (20%nat, 36%nat, 17%nat).
Proof. vm_compute. reflexivity. Qed.

(* ===================================================================== *)
(** ** More on the entity store *)
(* ===================================================================== *)

(** When [id] is not yet a face id of the store, [addFace id edge_ids]
    returns the not-found sentinel if and only if one of the edge ids is not
    an edge id of the store. *)
Theorem addFace_fails_iff_absent_fresh m id ids :
  getFace m id = None →
  fst (addFace id ids m) = None ↔ ∃ edge_id, edge_id ∈ ids ∧ getEdge m edge_id = None.
Proof.
  unfold getFace, addFace. intros ->.
  destruct (edges_all_exist m ids) eqn:Hall; simpl.
  - split; [done|]. intros Hmissing. apply edges_all_exist_false in Hmissing. congruence.
  - split; [|done]. intros _. by apply edges_all_exist_false.
Qed.

Lemma addFace_fails_iff_absent_fresh_witness :
  fst (addFace 1 [1; 9] one_edge_store) = None
  ↔ ∃ edge_id, edge_id ∈ [1; 9] ∧ getEdge one_edge_store edge_id = None.
Proof. apply addFace_fails_iff_absent_fresh. reflexivity. Defined.

(** *** The store only grows *)

Lemma store_extends_refl m : store_extends m m.
Proof. by repeat split. Qed.

Lemma store_extends_trans m1 m2 m3 :
  store_extends m1 m2 → store_extends m2 m3 → store_extends m1 m3.
Proof.
  intros (Hv & He & Hf & Hvs & Hes & Hfs) (Hv' & He' & Hf' & Hvs' & Hes' & Hfs').
  split; [|split; [|split; [|split; [|split]]]]; try (by etrans); eauto.
Qed.

Lemma store_extends_apply_op o m : store_extends m (apply_op o m).
Proof.
  destruct o as [id x y z|id s e|id ids| | |]; simpl; try apply store_extends_refl.
  - unfold addVertex. destruct (vertex_map m !! id) eqn:Hid; [apply store_extends_refl|].
    split; [|split; [|split; [|split; [|split]]]]; simpl; try done.
    + intros id' v Hv. unfold getVertex in *. simpl.
      rewrite lookup_insert_ne; [done | congruence].
    + by apply prefix_app_r.
  - unfold addEdge. destruct (edge_map m !! id) eqn:Hid; [apply store_extends_refl|].
    destruct (getVertex m s), (getVertex m e); try apply store_extends_refl.
    split; [|split; [|split; [|split; [|split]]]]; simpl; try done.
    + intros id' v Hv. unfold getEdge in *. simpl.
      rewrite lookup_insert_ne; [done | congruence].
    + by apply prefix_app_r.
  - unfold addFace. destruct (face_map m !! id) eqn:Hid; [apply store_extends_refl|].
    destruct (edges_all_exist m ids); try apply store_extends_refl.
    split; [|split; [|split; [|split; [|split]]]]; simpl; try done.
    + intros id' v Hv. unfold getFace in *. simpl.
      rewrite lookup_insert_ne; [done | congruence].
    + by apply prefix_app_r.
Qed.

(** Nothing is ever deleted or overwritten: after any sequence of
    operations every vertex, edge and face found before is found under the
    same id with the same contents, and each of the three sequences starts
    with what it held before. *)
Theorem run_store_extends ops m : store_extends m (run ops m).
Proof.
  revert m. induction ops as [|o ops IH]; intros m; [apply store_extends_refl|].
  eapply store_extends_trans; [apply store_extends_apply_op | apply IH].
Qed.

(** *** Maps and sequences agree *)

Lemma snoc_map_to_list {A} (l : list A) (mp : gmap Z A) id x :
  mp !! id = None → l ≡ₚ (map_to_list mp).*2 →
  l ++ [x] ≡ₚ (map_to_list (<[id := x]> mp)).*2.
Proof.
  intros Hfresh Hl. rewrite map_to_list_insert by done. simpl.
  rewrite <- Hl. symmetry. apply Permutation_cons_append.
Qed.

Lemma store_consistent_apply_op o m : store_consistent m → store_consistent (apply_op o m).
Proof.
  intros (Hv & He & Hf).
  destruct o as [id x y z|id s e|id ids| | |]; simpl; try done.
  - unfold addVertex. destruct (vertex_map m !! id) eqn:Hid; [done|].
    split; [|done]. simpl. by apply snoc_map_to_list.
  - unfold addEdge. destruct (edge_map m !! id) eqn:Hid; [done|].
    destruct (getVertex m s), (getVertex m e); try done.
    split; [done|split; [|done]]. simpl. by apply snoc_map_to_list.
  - unfold addFace. destruct (face_map m !! id) eqn:Hid; [done|].
    destruct (edges_all_exist m ids); try done.
    split; [done|split; [done|]]. simpl. by apply snoc_map_to_list.
Qed.

Lemma store_consistent_reachable m :
  reachable m →
  store_consistent m
  ∧ length (vertices m) = size (vertex_map m)
  ∧ length (edges m) = size (edge_map m)
  ∧ length (faces m) = size (face_map m)
  ∧ (∀ e, e ∈ edges m ↔ ∃ id, getEdge m id = Some e)
  ∧ (∀ f, f ∈ faces m ↔ ∃ id, getFace m id = Some f).
Proof.
  intros Hreach.
  assert (Hc : store_consistent m).
  { induction Hreach as [|o m Hm IH]; [|by apply store_consistent_apply_op].
    unfold store_consistent. simpl. by rewrite map_to_list_empty. }
  split; [done|]. destruct Hc as (Hv & He & Hf).
  split; [|split; [|split; [|split]]].
  - by rewrite Hv, length_fmap, length_map_to_list.
  - by rewrite He, length_fmap, length_map_to_list.
  - by rewrite Hf, length_fmap, length_map_to_list.
  - intros e. rewrite He, list_elem_of_fmap. unfold getEdge. split.
    + intros ([id e'] & -> & Hin). exists id. by apply elem_of_map_to_list.
    + intros (id & Hid). exists (id, e). split; [done|]. by apply elem_of_map_to_list.
  - intros f. rewrite Hf, list_elem_of_fmap. unfold getFace. split.
    + intros ([id f'] & -> & Hin). exists id. by apply elem_of_map_to_list.
    + intros (id & Hid). exists (id, f). split; [done|]. by apply elem_of_map_to_list.
Qed.

(** In every reachable store each sequence is a rearrangement of the values
    of its map; in particular it has as many entries as the map has ids, and
    an entity is in the sequence exactly when it is stored under some id. *)
Theorem reachable_store_consistent m :
  reachable m →
  store_consistent m
  ∧ length (vertices m) = size (vertex_map m)
  ∧ length (edges m) = size (edge_map m)
  ∧ length (faces m) = size (face_map m)
  ∧ (∀ e, e ∈ edges m ↔ ∃ id, getEdge m id = Some e)
  ∧ (∀ f, f ∈ faces m ↔ ∃ id, getFace m id = Some f).
Proof. apply store_consistent_reachable. Qed.

Lemma reachable_store_consistent_witness :
  store_consistent two_sided_triangle
  ∧ length (vertices two_sided_triangle) = size (vertex_map two_sided_triangle)
  ∧ length (edges two_sided_triangle) = size (edge_map two_sided_triangle)
  ∧ length (faces two_sided_triangle) = size (face_map two_sided_triangle)
  ∧ (∀ e, e ∈ edges two_sided_triangle ↔ ∃ id, getEdge two_sided_triangle id = Some e)
  ∧ (∀ f, f ∈ faces two_sided_triangle ↔ ∃ id, getFace two_sided_triangle id = Some f).
Proof.
  apply reachable_store_consistent.
  unfold two_sided_triangle. apply reachable_run. constructor.
Defined.

Lemma vertex_ids_agree_apply_op o m :
  (vertex_ids_agree m ∧ ∀ v, v ∈ vertices m → getVertex m (pt_id v) = Some v) →
  vertex_ids_agree (apply_op o m)
  ∧ ∀ v, v ∈ vertices (apply_op o m) → getVertex (apply_op o m) (pt_id v) = Some v.
Proof.
  intros [[Hkey Hnodup] Hin].
  destruct o as [id x y z|id s e|id ids| | |]; simpl; try done.
  - unfold addVertex. destruct (vertex_map m !! id) eqn:Hid; [done|].
    unfold vertex_ids_agree, getVertex in *. simpl. split; [split|].
    + intros id' v. destruct (decide (id = id')) as [<-|Hne].
      * rewrite lookup_insert_eq. by intros [= <-].
      * rewrite lookup_insert_ne by done. apply Hkey.
    + rewrite fmap_app. simpl. apply NoDup_app. split; [done|]. split.
      * intros id' (v & -> & Hv)%list_elem_of_fmap Hnew%list_elem_of_singleton.
        apply Hin in Hv. simpl in Hnew. congruence.
      * apply NoDup_singleton.
    + intros v [Hv| ->%list_elem_of_singleton]%elem_of_app.
      * rewrite lookup_insert_ne; [by apply Hin|].
        intros Heq. apply Hin in Hv. congruence.
      * simpl. apply lookup_insert_eq.
  - unfold addEdge. destruct (edge_map m !! id); [done|].
    by destruct (getVertex m s), (getVertex m e).
  - unfold addFace. destruct (face_map m !! id); [done|].
    by destruct (edges_all_exist m ids).
Qed.

Lemma vertex_ids_agree_reachable m :
  reachable m →
  vertex_ids_agree m ∧ ∀ v, v ∈ vertices m → getVertex m (pt_id v) = Some v.
Proof.
  induction 1 as [|o m Hm IH]; [|by apply vertex_ids_agree_apply_op].
  split; [split|].
  - intros id v Hv. unfold getVertex in Hv. simpl in Hv. by rewrite lookup_empty in Hv.
  - simpl. apply NoDup_nil_2.
  - intros v Hv. by apply not_elem_of_nil in Hv.
Qed.

(** In every reachable store a vertex found under an id carries that id, the
    vertices of the sequence have pairwise different ids, and each of them is
    found under its own id. *)
Theorem reachable_vertex_ids_agree m :
  reachable m →
  vertex_ids_agree m ∧ ∀ v, v ∈ vertices m → getVertex m (pt_id v) = Some v.
Proof. apply vertex_ids_agree_reachable. Qed.

Lemma reachable_vertex_ids_agree_witness :
  vertex_ids_agree two_sided_triangle
  ∧ ∀ v, v ∈ vertices two_sided_triangle → getVertex two_sided_triangle (pt_id v) = Some v.
Proof.
  apply reachable_vertex_ids_agree.
  unfold two_sided_triangle. apply reachable_run. constructor.
Defined.

(* ===================================================================== *)
(** ** Distances *)
(* ===================================================================== *)

Lemma d_sub_self_finite x : is_finite x → d_sub x x = d_0.
Proof.
  destruct x as [s|s| |s m e]; try done; intros _.
  - by destruct s.
  - unfold d_sub, SFsub. by rewrite Z.sub_diag.
Qed.

(** The distance of a point with finite coordinates from itself is [+0.0]. *)
Theorem calculateDistance_self p :
  is_finite (pt_x p) → is_finite (pt_y p) → is_finite (pt_z p) →
  calculateDistance p p = d_0.
Proof.
  intros Hx Hy Hz. unfold calculateDistance.
  by rewrite !d_sub_self_finite.
Qed.

Lemma calculateDistance_self_witness :
  calculateDistance (mkPoint3D 3 d_1 d_2 d_0) (mkPoint3D 3 d_1 d_2 d_0) = d_0.
Proof. by apply calculateDistance_self. Defined.

(** With an infinite coordinate the difference is a NaN, and so is the
    distance. *)
Example calculateDistance_self_infinite :
  calculateDistance (mkPoint3D 1 (S754_infinity false) d_0 d_0)
                    (mkPoint3D 1 (S754_infinity false) d_0 d_0) = S754_nan.
Proof. reflexivity. Qed.

Lemma binary_round_aux_abs s s' m e l :
  SFabs (binary_round_aux prec emax s m e l) = SFabs (binary_round_aux prec emax s' m e l).
Proof.
  unfold binary_round_aux.
  destruct (shr_fexp prec emax m e l) as [mrs' e'].
  destruct (shr_fexp prec emax _ e' loc_Exact) as [mrs'' e''].
  destruct (shr_m mrs''); [done| |done].
  by destruct (e'' <=? emax - prec).
Qed.

Lemma binary_normalize_opp_abs z e :
  SFabs (binary_normalize prec emax (- z) e false)
  = SFabs (binary_normalize prec emax z e false).
Proof.
  destruct z as [|p|p]; simpl; [done|..]; unfold binary_round;
    destruct (shl_align _ _ _) as [mz ez]; apply binary_round_aux_abs.
Qed.

Lemma d_sub_swap_abs x y : SFabs (d_sub x y) = SFabs (d_sub y x).
Proof.
  destruct x as [sx|sx| |sx mx ex], y as [sy|sy| |sy my ey];
    try (destruct sx); try (destruct sy); try reflexivity;
    unfold d_sub, SFsub; rewrite (Z.min_comm ey ex);
    match goal with |- SFabs (binary_normalize _ _ (?a - ?b) _ _) = _ =>
      replace (a - b) with (- (b - a)) by lia
    end; apply binary_normalize_opp_abs.
Qed.

Lemma d_mul_self_abs a b : SFabs a = SFabs b → d_mul a a = d_mul b b.
Proof.
  destruct a as [sa|sa| |sa ma ea], b as [sb|sb| |sb mb eb]; try done; simpl.
  - by destruct sa, sb.
  - by destruct sa, sb.
  - intros [= -> ->]. by destruct sa, sb.
Qed.

(** Swapping the points swaps the signs of the three differences, and the
    squares do not see the signs. A NaN is one value here, so for a NaN the
    equation says no more than that the other result is a NaN too. *)
Lemma calculateDistance_swap p q : calculateDistance p q = calculateDistance q p.
Proof.
  unfold calculateDistance.
  rewrite (d_mul_self_abs _ _ (d_sub_swap_abs (pt_x q) (pt_x p))).
  rewrite (d_mul_self_abs _ _ (d_sub_swap_abs (pt_y q) (pt_y p))).
  by rewrite (d_mul_self_abs _ _ (d_sub_swap_abs (pt_z q) (pt_z p))).
Qed.

(** The distance is symmetric: [calculateDistance p q] is a NaN exactly when
    [calculateDistance q p] is one, and when it is not a NaN (a number or
    plus infinity) both calls return the same [double]. *)
Theorem calculateDistance_symmetric p q :
  (is_nan (calculateDistance p q) ↔ is_nan (calculateDistance q p))
  ∧ (¬ is_nan (calculateDistance p q) → calculateDistance p q = calculateDistance q p).
Proof.
  split.
  - by rewrite (calculateDistance_swap p q).
  - intros _. apply calculateDistance_swap.
Qed.

Lemma calculateDistance_symmetric_witness :
  calculateDistance (mkPoint3D 1 d_0 d_0 d_0) (mkPoint3D 2 d_1 (S754_infinity true) d_4)
  = calculateDistance (mkPoint3D 2 d_1 (S754_infinity true) d_4) (mkPoint3D 1 d_0 d_0 d_0).
Proof.
  apply (proj2 (calculateDistance_symmetric (mkPoint3D 1 d_0 d_0 d_0)
                  (mkPoint3D 2 d_1 (S754_infinity true) d_4))).
  vm_compute. intros H. exact H.
Defined.

Lemma d_sqrt_not_negative a : not_negative a → not_negative (d_sqrt a).
Proof.
  destruct a as [s|s| |s m e]; try (destruct s); simpl; try done.
  intros _. destruct (SFsqrt_core_binary prec emax (Z.pos m) e) as [[mz ez] lz].
  apply binary_round_aux_not_negative.
Qed.

(** A distance is never below zero: the comparison [distance < 0] is false
    for every pair of points. *)
Theorem calculateDistance_not_negative p q :
  not_negative (calculateDistance p q) ∧ d_ltb (calculateDistance p q) d_0 = false.
Proof.
  assert (Hnn : not_negative (calculateDistance p q)).
  { unfold calculateDistance.
    auto using d_sqrt_not_negative, d_add_not_negative, d_mul_self_not_negative. }
  split; [done | by apply not_negative_ltb_zero].
Qed.

(* ===================================================================== *)
(** ** Projection and normals on reachable stores *)
(* ===================================================================== *)

Lemma referential_integrity_reachable m : reachable m → referential_integrity m.
Proof.
  induction 1 as [|o m Hm IH]; [apply referential_integrity_new|].
  destruct o; simpl;
    auto using referential_integrity_addVertex, referential_integrity_addEdge,
               referential_integrity_addFace.
Qed.

(** The first edge of a stored face and the start vertex of that edge are in
    the store. *)
Lemma stored_face_first_edge m f edge_id0 rest :
  reachable m → f ∈ faces m → edge_ids f = edge_id0 :: rest →
  ∃ edge vertex,
    getEdge m edge_id0 = Some edge ∧ getVertex m (start_id edge) = Some vertex
    ∧ is_Some (getVertex m (end_id edge)).
Proof.
  intros Hreach Hf Hids.
  destruct (referential_integrity_reachable m Hreach) as (Hem & _ & _ & Hfl).
  destruct (Hfl f Hf edge_id0) as [edge Hedge]; [rewrite Hids; by left|].
  destruct (Hem _ _ Hedge) as [[vertex Hvertex] Hend].
  by exists edge, vertex.
Qed.

(** [projectPointToFace] returns the point it was given when the face has no
    edges. For a face of a reachable store that has edges, the fallbacks for
    a missing edge or vertex are never taken: the result is the stored start
    vertex of the first edge of the face, whatever the point. *)
Theorem projectPointToFace_stored_face m f point :
  reachable m → f ∈ faces m →
  match edge_ids f with
  | [] => projectPointToFace point f m = point
  | edge_id0 :: _ =>
      ∃ edge vertex,
        getEdge m edge_id0 = Some edge
        ∧ getVertex m (start_id edge) = Some vertex
        ∧ pt_id vertex = start_id edge
        ∧ projectPointToFace point f m = vertex
  end.
Proof.
  intros Hreach Hf. unfold projectPointToFace.
  destruct (edge_ids f) as [|edge_id0 rest] eqn:Hids; [done|].
  destruct (stored_face_first_edge m f edge_id0 rest Hreach Hf Hids)
    as (edge & vertex & Hedge & Hvertex & _).
  exists edge, vertex. rewrite Hedge, Hvertex.
  split; [done|]. split; [done|]. split; [|done].
  by apply (vertex_ids_agree_reachable m Hreach).
Qed.

Lemma projectPointToFace_stored_face_witness :
  ∃ edge vertex,
    getEdge two_sided_triangle 4 = Some edge
    ∧ getVertex two_sided_triangle (start_id edge) = Some vertex
    ∧ pt_id vertex = start_id edge
    ∧ projectPointToFace (mkPoint3D 9 d_2 d_2 d_2) (newFace [4; 5; 6]) two_sided_triangle
      = vertex.
Proof.
  apply (projectPointToFace_stored_face two_sided_triangle (newFace [4; 5; 6])).
  - unfold two_sided_triangle. apply reachable_run. constructor.
  - vm_compute. apply list_elem_of_In. right. left. reflexivity.
Defined.

(** For a face of a reachable store with at least three edge ids the default
    normal is never the result of a failed lookup: the three vertices are
    found, and the array returned holds their cross product, divided by its
    length when that exceeds 1e-6. *)
Theorem calculateFaceNormal_stored_face m f buf id1 id2 id3 rest :
  reachable m → f ∈ faces m → edge_ids f = id1 :: id2 :: id3 :: rest →
  ∃ v1 v2 v3,
    resolve_triangle f m = Some (v1, v2, v3)
    ∧ snd (calculateFaceNormal f m buf)
      = let c := cross (vec_between v1 v2) (vec_between v1 v3) in
        if d_gtb (vec_length c) d_1e_6 then vec_div c (vec_length c) else c.
Proof.
  intros Hreach Hf Hids.
  destruct (referential_integrity_reachable m Hreach) as (Hem & _ & _ & Hfl).
  destruct (Hfl f Hf id1) as [edge1 Hedge1]; [rewrite Hids; by left|].
  destruct (Hfl f Hf id2) as [edge2 Hedge2]; [rewrite Hids; right; by left|].
  destruct (Hem _ _ Hedge1) as [[v1 Hv1] [v2 Hv2]].
  destruct (Hem _ _ Hedge2) as [_ [v3 Hv3]].
  exists v1, v2, v3.
  assert (Hres : resolve_triangle f m = Some (v1, v2, v3)).
  { unfold resolve_triangle. rewrite Hids, Hedge1. simpl. rewrite Hedge2. simpl.
    rewrite Hv1. simpl. rewrite Hv2. simpl. by rewrite Hv3. }
  split; [done|].
  pose proof (calculateFaceNormal_value f m buf) as Hval.
  destruct (fst (calculateFaceNormal f m buf)). simpl in Hval. rewrite Hval.
  unfold face_normal_spec. rewrite Hids, Hres.
  by rewrite decide_False by (simpl; lia).
Qed.

Lemma calculateFaceNormal_stored_face_witness :
  ∃ v1 v2 v3,
    resolve_triangle (newFace [4; 5; 6]) two_sided_triangle = Some (v1, v2, v3)
    ∧ snd (calculateFaceNormal (newFace [4; 5; 6]) two_sided_triangle (mkVec3 d_0 d_0 d_0))
      = let c := cross (vec_between v1 v2) (vec_between v1 v3) in
        if d_gtb (vec_length c) d_1e_6 then vec_div c (vec_length c) else c.
Proof.
  apply (calculateFaceNormal_stored_face two_sided_triangle (newFace [4; 5; 6])
           (mkVec3 d_0 d_0 d_0) 4 5 6 []).
  - unfold two_sided_triangle. apply reachable_run. constructor.
  - vm_compute. apply list_elem_of_In. right. left. reflexivity.
  - reflexivity.
Defined.

(* ===================================================================== *)
(** ** Sweeps stay inside the store operations *)
(* ===================================================================== *)

Lemma reachable_addVertex id x y z m :
  reachable m → reachable (snd (addVertex id x y z m)).
Proof. apply (reachable_step (OpAddVertex id x y z)). Qed.

Lemma reachable_addEdge id s e m : reachable m → reachable (snd (addEdge id s e m)).
Proof. apply (reachable_step (OpAddEdge id s e)). Qed.

Lemma reachable_addFace id ids m : reachable m → reachable (snd (addFace id ids m)).
Proof. apply (reachable_step (OpAddFace id ids)). Qed.

Ltac reachable_preserved :=
  repeat first
    [ assumption
    | apply reachable_addVertex
    | apply reachable_addEdge
    | apply reachable_addFace
    | progress cbn [snd]
    | apply (for_range_invariant (λ st : Z * ModelManager, reachable (snd st)));
      [|intros ? ? _ ?]
    | apply (for_range_invariant reachable); [|intros ? ? _ ?] ].

Lemma extrude_reachable_store m profile distance :
  reachable m → reachable (snd (extrude m profile distance)).
Proof.
  intros Hreach. unfold extrude. destruct profile as [|p0 rest]; [done|].
  unfold reserveVertices, reserveEdges, reserveFaces. cbv zeta.
  reachable_preserved.
Qed.

Lemma revolve_reachable_store std_cos std_sin m profile axis_point axis_direction angle :
  reachable m →
  reachable (snd (revolve std_cos std_sin m profile axis_point axis_direction angle)).
Proof.
  intros Hreach. unfold revolve. destruct profile as [|p0 rest]; [done|].
  unfold reserveVertices, reserveEdges, reserveFaces. cbv zeta.
  reachable_preserved.
Qed.

Lemma store_extends_run ops m : store_extends m (run ops m).
Proof.
  revert m. induction ops as [|o ops IH]; intros m; [apply store_extends_refl|].
  eapply store_extends_trans; [apply store_extends_apply_op | apply IH].
Qed.

Lemma built_by_adds_refl m : built_by_adds m m.
Proof. exists []. by split. Qed.

Lemma built_by_adds_step o m0 m :
  is_add_op o → built_by_adds m0 m → built_by_adds m0 (apply_op o m).
Proof.
  intros Ho (ops & Hops & ->). exists (ops ++ [o]). split.
  - apply Forall_app. split; [done | by constructor].
  - unfold run. by rewrite foldl_app.
Qed.

Lemma built_by_adds_addVertex id x y z m0 m :
  built_by_adds m0 m → built_by_adds m0 (snd (addVertex id x y z m)).
Proof. by apply (built_by_adds_step (OpAddVertex id x y z)). Qed.

Lemma built_by_adds_addEdge id s e m0 m :
  built_by_adds m0 m → built_by_adds m0 (snd (addEdge id s e m)).
Proof. by apply (built_by_adds_step (OpAddEdge id s e)). Qed.

Lemma built_by_adds_addFace id ids m0 m :
  built_by_adds m0 m → built_by_adds m0 (snd (addFace id ids m)).
Proof. by apply (built_by_adds_step (OpAddFace id ids)). Qed.

Ltac built_preserved m0 :=
  repeat first
    [ assumption
    | apply built_by_adds_addVertex
    | apply built_by_adds_addEdge
    | apply built_by_adds_addFace
    | progress cbn [snd]
    | apply (for_range_invariant (λ st : Z * ModelManager, built_by_adds m0 (snd st)));
      [|intros ? ? _ ?]
    | apply (for_range_invariant (built_by_adds m0)); [|intros ? ? _ ?] ].

Lemma extrude_built_by_adds m profile distance :
  built_by_adds m (snd (extrude m profile distance)).
Proof.
  pose proof (built_by_adds_refl m) as Hstart.
  unfold extrude. destruct profile as [|p0 rest]; [done|].
  unfold reserveVertices, reserveEdges, reserveFaces. cbv zeta.
  built_preserved m.
Qed.

Lemma revolve_built_by_adds std_cos std_sin m profile axis_point axis_direction angle :
  built_by_adds m (snd (revolve std_cos std_sin m profile axis_point axis_direction angle)).
Proof.
  pose proof (built_by_adds_refl m) as Hstart.
  unfold revolve. destruct profile as [|p0 rest]; [done|].
  unfold reserveVertices, reserveEdges, reserveFaces. cbv zeta.
  built_preserved m.
Qed.

Lemma built_by_adds_store_extends m m' : built_by_adds m m' → store_extends m m'.
Proof. intros (ops & _ & ->). apply store_extends_run. Qed.

(** Both sweeps change the store they are given through [addVertex],
    [addEdge] and [addFace] only, whatever the profile and the other
    arguments (ids may collide with those already present, and may wrap
    around): the store they leave is the given store after a sequence of add
    operations, so whatever the given store held is still there under the
    same ids and at the same positions; and when the given store is
    reachable, the store left is reachable, its edges and faces refer to
    stored vertices and edges only, and its sequences agree with its maps. *)
Theorem sweeps_keep_store_invariants std_cos std_sin m profile distance
    axis_point axis_direction angle :
  let me := snd (extrude m profile distance) in
  let mr := snd (revolve std_cos std_sin m profile axis_point axis_direction angle) in
  (∃ ops, Forall is_add_op ops ∧ me = run ops m)
  ∧ (∃ ops, Forall is_add_op ops ∧ mr = run ops m)
  ∧ store_extends m me
  ∧ store_extends m mr
  ∧ (reachable m →
     (reachable me ∧ referential_integrity me ∧ store_consistent me)
     ∧ (reachable mr ∧ referential_integrity mr ∧ store_consistent mr)).
Proof.
  intros me mr.
  pose proof (extrude_built_by_adds m profile distance) as Hbe.
  pose proof (revolve_built_by_adds std_cos std_sin m profile axis_point axis_direction angle)
    as Hbr.
  split; [exact Hbe|]. split; [exact Hbr|].
  split; [by apply built_by_adds_store_extends|].
  split; [by apply built_by_adds_store_extends|].
  intros Hreach.
  assert (Hme : reachable me) by by apply extrude_reachable_store.
  assert (Hmr : reachable mr) by by apply revolve_reachable_store.
  split; (split; [done|]); (split; [by apply referential_integrity_reachable|]);
    by apply store_consistent_reachable.
Qed.

Lemma sweeps_keep_store_invariants_witness :
  let me := snd (extrude two_sided_triangle unit_square d_1) in
  let mr := snd (revolve cos_at_0 sin_at_0 two_sided_triangle unit_square
                         (mkPoint3D 0 d_0 d_0 d_0) None d_0) in
  (reachable me ∧ referential_integrity me ∧ store_consistent me)
  ∧ (reachable mr ∧ referential_integrity mr ∧ store_consistent mr).
Proof.
  apply (sweeps_keep_store_invariants cos_at_0 sin_at_0 two_sided_triangle unit_square d_1
           (mkPoint3D 0 d_0 d_0 d_0) None d_0).
  unfold two_sided_triangle. apply reachable_run. constructor.
Defined.

(* ===================================================================== *)
(** ** A second extrusion on the same store *)
(* ===================================================================== *)

Lemma for_range_invariant_idx {S} (P : nat → S → Prop) lo hi (body : nat → S → S) s :
  (lo ≤ hi)%nat → P lo s →
  (∀ i s, (lo ≤ i < hi)%nat → P i s → P (Datatypes.S i) (body i s)) →
  P hi (for_range lo hi body s).
Proof.
  intros Hle Hs Hbody. induction hi as [|hi IH].
  - assert (lo = 0%nat) as -> by lia. by rewrite for_range_empty.
  - destruct (decide (lo = Datatypes.S hi)) as [->|Hne].
    + by rewrite for_range_empty.
    + rewrite for_range_snoc by lia. apply Hbody; [lia|].
      apply IH; [lia|]. intros i s' Hi. apply Hbody. lia.
Qed.

Lemma covers_le {A} (mp : gmap Z A) lo hi lo' hi' :
  covers mp lo hi → lo ≤ lo' → hi' ≤ hi → covers mp lo' hi'.
Proof. intros Hc Hlo Hhi id Hid. apply Hc. lia. Qed.

Lemma covers_join {A} (mp : gmap Z A) lo mid hi :
  covers mp lo mid → covers mp mid hi → covers mp lo hi.
Proof.
  intros H1 H2 id Hid. destruct (decide (id < mid)); [apply H1 | apply H2]; lia.
Qed.

(** *** Calls under ids that are taken change nothing *)

Lemma addVertex_taken id x y z m :
  is_Some (vertex_map m !! id) → snd (addVertex id x y z m) = m.
Proof. unfold addVertex. by intros [v ->]. Qed.

Lemma addEdge_taken id s t m : is_Some (edge_map m !! id) → snd (addEdge id s t m) = m.
Proof. unfold addEdge. by intros [e ->]. Qed.

Lemma addFace_taken id ids m : is_Some (face_map m !! id) → snd (addFace id ids m) = m.
Proof. unfold addFace. by intros [f ->]. Qed.

Lemma vertex_loop_taken (f : nat → Z) (body : nat → ModelManager → ModelManager) k m :
  (∀ i m, ∃ x y z, body i m = snd (addVertex (f i) x y z m)) →
  (∀ i, (i < k)%nat → is_Some (vertex_map m !! f i)) →
  for_range 0 k body m = m.
Proof.
  intros Hbody Htaken. apply (for_range_invariant (λ m', m' = m)); [done|].
  intros i m' Hi ->. destruct (Hbody i m) as (x & y & z & ->).
  apply addVertex_taken, Htaken. lia.
Qed.

Lemma counted_loop_taken (body : nat → Z * ModelManager → Z * ModelManager)
    (step : nat → Z → ModelManager → ModelManager) k c m :
  (∀ i st, body i st = (int_succ (fst st), step i (fst st) (snd st))) →
  INT_MIN ≤ c → c + Z.of_nat k ≤ INT_MAX →
  (∀ i, (i < k)%nat → step i (c + Z.of_nat i) m = m) →
  for_range 0 k body (c, m) = (c + Z.of_nat k, m).
Proof.
  intros Hbody Hlo Hhi Hstep.
  apply (for_range_invariant_idx (λ i st, st = (c + Z.of_nat i, m))); [lia|f_equal; lia|].
  intros i st Hi ->. rewrite Hbody. cbn [fst snd].
  rewrite Hstep by lia. rewrite int_succ_in_range by lia. f_equal. lia.
Qed.

(** *** Ids that are taken after a loop *)

Lemma vertex_loop_covers (f : nat → Z) (body : nat → ModelManager → ModelManager) k m lo :
  (∀ i m, ∃ x y z, body i m = snd (addVertex (f i) x y z m)) →
  (∀ i, (i < k)%nat → f i = lo + Z.of_nat i) →
  let m' := for_range 0 k body m in
  (∀ id, is_Some (vertex_map m !! id) → is_Some (vertex_map m' !! id))
  ∧ covers (vertex_map m') lo (lo + Z.of_nat k)
  ∧ edge_map m' = edge_map m ∧ face_map m' = face_map m.
Proof.
  intros Hbody Hf m'. subst m'.
  apply (for_range_invariant_idx (λ i m',
    (∀ id, is_Some (vertex_map m !! id) → is_Some (vertex_map m' !! id))
    ∧ covers (vertex_map m') lo (lo + Z.of_nat i)
    ∧ edge_map m' = edge_map m ∧ face_map m' = face_map m)); [lia| |].
  - split; [done|]. split; [|done]. intros id Hid. lia.
  - intros i m' Hi (Hmono & Hcov & He & Hfm).
    destruct (Hbody i m') as (x & y & z & ->). rewrite Hf by lia.
    split; [|split].
    + intros id Hid. by apply getVertex_addVertex_mono, Hmono.
    + intros id Hid. destruct (decide (id = lo + Z.of_nat i)) as [->|Hne].
      * unfold addVertex. destruct (vertex_map m' !! (lo + Z.of_nat i)) eqn:Hl; simpl.
        -- by rewrite Hl.
        -- by rewrite lookup_insert_eq.
      * apply getVertex_addVertex_mono, Hcov. lia.
    + unfold addVertex. by destruct (vertex_map m' !! (lo + Z.of_nat i)).
Qed.

Lemma edge_loop_covers (s t : nat → Z)
    (body : nat → Z * ModelManager → Z * ModelManager) k c m :
  (∀ i st, body i st = (int_succ (fst st), snd (addEdge (fst st) (s i) (t i) (snd st)))) →
  INT_MIN ≤ c → c + Z.of_nat k ≤ INT_MAX →
  (∀ i, (i < k)%nat → is_Some (vertex_map m !! s i) ∧ is_Some (vertex_map m !! t i)) →
  let st' := for_range 0 k body (c, m) in
  fst st' = c + Z.of_nat k
  ∧ (∀ id, is_Some (edge_map m !! id) → is_Some (edge_map (snd st') !! id))
  ∧ covers (edge_map (snd st')) c (c + Z.of_nat k)
  ∧ vertex_map (snd st') = vertex_map m ∧ face_map (snd st') = face_map m.
Proof.
  intros Hbody Hlo Hhi Hends st'. subst st'.
  apply (for_range_invariant_idx (λ i st',
    fst st' = c + Z.of_nat i
    ∧ (∀ id, is_Some (edge_map m !! id) → is_Some (edge_map (snd st') !! id))
    ∧ covers (edge_map (snd st')) c (c + Z.of_nat i)
    ∧ vertex_map (snd st') = vertex_map m ∧ face_map (snd st') = face_map m)); [lia| |].
  - split; [simpl; lia|]. split; [done|]. split; [|done]. intros id Hid. lia.
  - intros i [c' m'] Hi (Hc & Hmono & Hcov & Hvm & Hfm). cbn [fst snd] in *. subst c'.
    rewrite Hbody. cbn [fst snd].
    split; [rewrite int_succ_in_range by lia; lia|]. split; [|split].
    + intros id Hid. by apply getEdge_addEdge_mono, Hmono.
    + intros id Hid. destruct (decide (id = c + Z.of_nat i)) as [->|Hne].
      * unfold addEdge, getVertex. rewrite Hvm.
        destruct (edge_map m' !! (c + Z.of_nat i)) eqn:Hl; simpl; [by rewrite Hl|].
        destruct (Hends i) as [[vs ->] [vt ->]]; [lia|]. simpl.
        by rewrite lookup_insert_eq.
      * apply getEdge_addEdge_mono, Hcov. lia.
    + unfold addEdge. destruct (edge_map m' !! (c + Z.of_nat i)); [done|].
      by destruct (getVertex m' (s i)), (getVertex m' (t i)).
Qed.

Lemma addFace_covers id ids m :
  (∀ edge_id, edge_id ∈ ids → is_Some (edge_map m !! edge_id)) →
  let m' := snd (addFace id ids m) in
  is_Some (face_map m' !! id)
  ∧ (∀ id', is_Some (face_map m !! id') → is_Some (face_map m' !! id'))
  ∧ vertex_map m' = vertex_map m ∧ edge_map m' = edge_map m.
Proof.
  intros Hrefs m'. subst m'. unfold addFace.
  destruct (face_map m !! id) eqn:Hid; simpl; [by rewrite Hid|].
  replace (edges_all_exist m ids) with true
    by (symmetry; by apply edges_all_exist_true).
  simpl. split; [by rewrite lookup_insert_eq|]. split; [|done].
  intros id' Hid'. destruct (decide (id = id')) as [->|Hne].
  - by rewrite lookup_insert_eq.
  - by rewrite lookup_insert_ne.
Qed.

Lemma face_loop_covers (es : nat → list Z)
    (body : nat → Z * ModelManager → Z * ModelManager) k c m :
  (∀ i st, body i st = (int_succ (fst st), snd (addFace (fst st) (es i) (snd st)))) →
  INT_MIN ≤ c → c + Z.of_nat k ≤ INT_MAX →
  (∀ i edge_id, (i < k)%nat → edge_id ∈ es i → is_Some (edge_map m !! edge_id)) →
  let st' := for_range 0 k body (c, m) in
  (∀ id, is_Some (face_map m !! id) → is_Some (face_map (snd st') !! id))
  ∧ covers (face_map (snd st')) c (c + Z.of_nat k)
  ∧ vertex_map (snd st') = vertex_map m ∧ edge_map (snd st') = edge_map m.
Proof.
  intros Hbody Hlo Hhi Hrefs st'. subst st'.
  cut (fst (for_range 0 k body (c, m)) = c + Z.of_nat k
       ∧ (∀ id, is_Some (face_map m !! id)
                → is_Some (face_map (snd (for_range 0 k body (c, m))) !! id))
       ∧ covers (face_map (snd (for_range 0 k body (c, m)))) c (c + Z.of_nat k)
       ∧ vertex_map (snd (for_range 0 k body (c, m))) = vertex_map m
       ∧ edge_map (snd (for_range 0 k body (c, m))) = edge_map m); [tauto|].
  apply (for_range_invariant_idx (λ i st',
    fst st' = c + Z.of_nat i
    ∧ (∀ id, is_Some (face_map m !! id) → is_Some (face_map (snd st') !! id))
    ∧ covers (face_map (snd st')) c (c + Z.of_nat i)
    ∧ vertex_map (snd st') = vertex_map m ∧ edge_map (snd st') = edge_map m)); [lia| |].
  - split; [simpl; lia|]. split; [done|]. split; [|done]. intros id Hid. lia.
  - intros i [c' m'] Hi (Hc & Hmono & Hcov & Hvm & Hem). cbn [fst snd] in *. subst c'.
    rewrite Hbody. cbn [fst snd].
    destruct (addFace_covers (c + Z.of_nat i) (es i) m') as (Hnew & Hmono' & Hvm' & Hem').
    { intros edge_id Hin. rewrite Hem. apply (Hrefs i); [lia | done]. }
    split; [rewrite int_succ_in_range by lia; lia|]. split; [|split; [|split]].
    + intros id Hid. by apply Hmono', Hmono.
    + intros id Hid. destruct (decide (id = c + Z.of_nat i)) as [->|Hne]; [done|].
      apply Hmono', Hcov. lia.
    + congruence.
    + congruence.
Qed.

(** After an extrusion of an [n]-point profile on any store, the ids it
    uses are all taken. *)
Lemma extrude_extruded m profile distance :
  profile ≠ [] →
  3 * Z.of_nat (length profile) < INT_MAX →
  extruded (length profile) (snd (extrude m profile distance)).
Proof.
  intros Hne Hbound. unfold extrude.
  destruct profile as [|p0 rest] eqn:Hp; [done|]. rewrite <- Hp in *. clear Hp p0 rest.
  set (k := length profile) in *.
  assert (Hk : k ≠ 0%nat) by (subst k; by destruct profile).
  assert (Hnext : ∀ i, 0 ≤ Z.of_nat ((i + 1) mod k) < Z.of_nat k)
    by (intros i; by apply next_index_lt).
  unfold reserveVertices, reserveEdges, reserveFaces. cbv zeta. cbn [snd].
  (* the two vertex loops *)
  match goal with |- context [for_range 0 k ?b m] => set (m1 := for_range 0 k b m) end.
  assert (Hm1 : covers (vertex_map m1) 1 (1 + Z.of_nat k)).
  { subst m1. eapply (vertex_loop_covers (λ i, to_int (1 + Z.of_nat i))).
    - intros i m'. by eexists _, _, _.
    - intros i Hi. simpl. int_simpl. lia. }
  match goal with |- context [for_range 0 k ?b m1] => set (m2 := for_range 0 k b m1) end.
  assert (Hm2 : covers (vertex_map m2) 1 (1 + 2 * Z.of_nat k)).
  { subst m2.
    match goal with |- context [for_range 0 k ?b m1] =>
      destruct (vertex_loop_covers (λ i, to_int (1 + Z.of_nat k + Z.of_nat i)) b k m1
                  (1 + Z.of_nat k)) as (Hmono & Hcov & _)
    end.
    - intros i m'. by eexists _, _, _.
    - intros i Hi. simpl. int_simpl. lia.
    - apply (covers_join _ 1 (1 + Z.of_nat k)).
      + intros id Hid. by apply Hmono, Hm1.
      + eapply covers_le; [exact Hcov | lia | lia]. }
  clearbody m2. clear m1 Hm1.
  (* the three edge loops *)
  match goal with |- context [for_range 0 k ?b (1, m2)] =>
    set (st1 := for_range 0 k b (1, m2));
    destruct (edge_loop_covers (λ i, to_int (1 + Z.of_nat i))
                (λ i, int_add 1 (to_int (Z.of_nat ((i + 1) mod k)))) b k 1 m2)
      as (Hc1 & _ & Hcov1 & Hvm1 & _)
  end; [done | int_lia | int_lia | |].
  { intros i Hi. pose proof (Hnext i). split; apply Hm2; int_simpl; lia. }
  fold st1 in Hc1, Hcov1, Hvm1.
  match goal with |- context [for_range 0 k ?b st1] =>
    set (st2 := for_range 0 k b st1);
    destruct (edge_loop_covers (λ i, to_int (1 + Z.of_nat k + Z.of_nat i))
                (λ i, to_int (1 + Z.of_nat k + to_int (Z.of_nat ((i + 1) mod k))))
                b k (fst st1) (snd st1))
      as (Hc2 & Hmono2 & Hcov2 & Hvm2 & _)
  end; [done | int_lia | int_lia | |].
  { intros i Hi. pose proof (Hnext i). rewrite Hvm1. split; apply Hm2; int_simpl; lia. }
  rewrite <- surjective_pairing in Hc2, Hmono2, Hcov2, Hvm2.
  fold st2 in Hc2, Hmono2, Hcov2, Hvm2.
  match goal with |- context [for_range 0 k ?b st2] =>
    set (st3 := for_range 0 k b st2);
    destruct (edge_loop_covers (λ i, to_int (1 + Z.of_nat i))
                (λ i, to_int (1 + Z.of_nat k + Z.of_nat i))
                b k (fst st2) (snd st2))
      as (_ & Hmono3 & Hcov3 & Hvm3 & _)
  end; [done | int_lia | int_lia | |].
  { intros i Hi. rewrite Hvm2, Hvm1. split; apply Hm2; int_simpl; lia. }
  rewrite <- surjective_pairing in Hmono3, Hcov3, Hvm3.
  fold st3 in Hmono3, Hcov3, Hvm3.
  assert (Hedges : covers (edge_map (snd st3)) 1 (1 + 3 * Z.of_nat k)).
  { apply (covers_join _ 1 (1 + 2 * Z.of_nat k)).
    - intros id Hid. apply Hmono3. revert id Hid.
      apply (covers_join _ 1 (1 + Z.of_nat k)).
      + intros id Hid. apply Hmono2, Hcov1. lia.
      + rewrite Hc1 in Hcov2. eapply covers_le; [exact Hcov2 | lia | lia].
    - rewrite Hc2, Hc1 in Hcov3. eapply covers_le; [exact Hcov3 | lia | lia]. }
  assert (Hverts : covers (vertex_map (snd st3)) 1 (1 + 2 * Z.of_nat k))
    by (by rewrite Hvm3, Hvm2, Hvm1).
  clearbody st3. clear st1 st2 Hc1 Hcov1 Hvm1 Hc2 Hmono2 Hcov2 Hvm2 Hmono3 Hcov3 Hvm3.
  (* the faces *)
  replace (k + 1)%nat with (1 + k)%nat by lia.
  replace (k * 2 + 1)%nat with (1 + k + k)%nat by lia.
  rewrite !push_back_loop. cbn [app].
  rewrite (int_ids_from 1 k), (int_ids_from (1 + k) k) by int_lia.
  change (int_succ 1) with 2. change (int_succ 2) with 3.
  match goal with |- context [addFace 1 ?ids (snd st3)] =>
    set (m4 := snd (addFace 1 ids (snd st3)));
    destruct (addFace_covers 1 ids (snd st3)) as (Hf1 & _ & Hvm4 & Hem4)
  end.
  { intros id Hid%elem_of_id_range. apply Hedges. lia. }
  fold m4 in Hf1, Hvm4, Hem4.
  match goal with |- context [addFace 2 ?ids m4] =>
    set (m5 := snd (addFace 2 ids m4));
    destruct (addFace_covers 2 ids m4) as (Hf2 & Hmono5 & Hvm5 & Hem5)
  end.
  { intros id Hid%elem_of_id_range. rewrite Hem4. apply Hedges. lia. }
  fold m5 in Hf2, Hmono5, Hvm5, Hem5.
  match goal with |- context [for_range 0 k ?b (3, m5)] =>
    set (st6 := for_range 0 k b (3, m5));
    destruct (face_loop_covers
                (λ i, [ to_int (Z.of_nat k * 2 + 1 + Z.of_nat i);
                        to_int (Z.of_nat k + 1 + Z.of_nat ((i + 1) mod k));
                        to_int (Z.of_nat k * 2 + 1 + Z.of_nat ((i + 1) mod k));
                        to_int (Z.of_nat i + 1) ]) b k 3 m5)
      as (Hmono6 & Hcov6 & Hvm6 & Hem6)
  end; [done | int_lia | int_lia | |].
  { intros i id Hi Hid. pose proof (Hnext i). rewrite Hem5, Hem4. apply Hedges.
    repeat (apply elem_of_cons in Hid as [->|Hid]; [int_simpl; lia|]).
    by apply not_elem_of_nil in Hid. }
  fold st6 in Hmono6, Hcov6, Hvm6, Hem6.
  split; [|split].
  - by rewrite Hvm6, Hvm5, Hvm4.
  - by rewrite Hem6, Hem5, Hem4.
  - intros id Hid.
    destruct (decide (id = 1)) as [->|]; [by apply Hmono6, Hmono5|].
    destruct (decide (id = 2)) as [->|]; [by apply Hmono6|].
    apply Hcov6. lia.
Qed.

(** On a store where these ids are taken, an extrusion of a profile of at
    most [n] points changes nothing. *)
Lemma extrude_on_extruded n m profile distance :
  extruded n m → profile ≠ [] → (length profile ≤ n)%nat →
  3 * Z.of_nat n < INT_MAX →
  extrude m profile distance = (true, m).
Proof.
  intros (Hv & He & Hf) Hne Hlen Hbound. unfold extrude.
  destruct profile as [|p0 rest] eqn:Hp; [done|]. rewrite <- Hp in *. clear Hp p0 rest.
  set (k := length profile) in *.
  assert (Hk : k ≠ 0%nat) by (subst k; by destruct profile).
  assert (Hnext : ∀ i, 0 ≤ Z.of_nat ((i + 1) mod k) < Z.of_nat k)
    by (intros i; by apply next_index_lt).
  unfold reserveVertices, reserveEdges, reserveFaces. cbv zeta.
  rewrite (vertex_loop_taken (λ i, to_int (1 + Z.of_nat i)) _ k m); cycle 1.
  { intros i m'. by eexists _, _, _. }
  { intros i Hi. apply Hv. int_simpl. lia. }
  rewrite (vertex_loop_taken (λ i, to_int (1 + Z.of_nat k + Z.of_nat i)) _ k m); cycle 1.
  { intros i m'. by eexists _, _, _. }
  { intros i Hi. apply Hv. int_simpl. lia. }
  rewrite (counted_loop_taken _ (λ i c m', snd (addEdge c (to_int (1 + Z.of_nat i))
             (int_add 1 (to_int (Z.of_nat ((i + 1) mod k)))) m')) k 1 m);
    [|done | int_lia | int_lia | intros i Hi; apply addEdge_taken, He; lia].
  rewrite (counted_loop_taken _ (λ i c m', snd (addEdge c (to_int (1 + Z.of_nat k + Z.of_nat i))
             (to_int (1 + Z.of_nat k + to_int (Z.of_nat ((i + 1) mod k)))) m'))
             k (1 + Z.of_nat k) m);
    [|done | int_lia | int_lia | intros i Hi; apply addEdge_taken, He; lia].
  rewrite (counted_loop_taken _ (λ i c m', snd (addEdge c (to_int (1 + Z.of_nat i))
             (to_int (1 + Z.of_nat k + Z.of_nat i)) m'))
             k (1 + Z.of_nat k + Z.of_nat k) m);
    [|done | int_lia | int_lia | intros i Hi; apply addEdge_taken, He; lia].
  cbn [snd]. change (int_succ 1) with 2. change (int_succ 2) with 3.
  rewrite (addFace_taken 1) by (apply Hf; lia).
  rewrite (addFace_taken 2) by (apply Hf; lia).
  rewrite (counted_loop_taken _ (λ i c m', snd (addFace c
             [ to_int (Z.of_nat k * 2 + 1 + Z.of_nat i);
               to_int (Z.of_nat k + 1 + Z.of_nat ((i + 1) mod k));
               to_int (Z.of_nat k * 2 + 1 + Z.of_nat ((i + 1) mod k));
               to_int (Z.of_nat i + 1) ] m')) k 3 m);
    [done | done | int_lia | int_lia | intros i Hi; apply addFace_taken, Hf; lia].
Qed.

(** The ids of an extrusion start at 1 on every call. After an extrusion of
    an [n]-point profile (3n below [INT_MAX]) on any store, the vertex ids
    1..2n, the edge ids 1..3n and the face ids 1..n+2 are all taken, and a
    further extrusion of any profile of at most [n] points, with any
    distance, returns [true] and leaves the store exactly as it is: the second
    shape is dropped without a sign. *)
Theorem extrude_again_changes_nothing m profile distance profile' distance' :
  profile ≠ [] → profile' ≠ [] →
  (length profile' ≤ length profile)%nat →
  3 * Z.of_nat (length profile) < INT_MAX →
  extruded (length profile) (snd (extrude m profile distance))
  ∧ extrude (snd (extrude m profile distance)) profile' distance'
    = (true, snd (extrude m profile distance)).
Proof.
  intros Hne Hne' Hlen Hbound.
  assert (Hext : extruded (length profile) (snd (extrude m profile distance)))
    by by apply extrude_extruded.
  split; [done|]. by apply (extrude_on_extruded (length profile)).
Qed.

Lemma extrude_again_changes_nothing_witness :
  extruded 4 (snd (extrude one_edge_store unit_square d_1))
  ∧ extrude (snd (extrude one_edge_store unit_square d_1))
            [mkPoint3D 101 d_2 d_2 d_2; mkPoint3D 102 d_4 d_2 d_2] d_4
    = (true, snd (extrude one_edge_store unit_square d_1)).
Proof.
  apply (extrude_again_changes_nothing one_edge_store unit_square d_1);
    [discriminate | discriminate | simpl; lia | reflexivity].
Defined.

(* ===================================================================== *)
(** ** Signatures determine what they stand for *)
(* ===================================================================== *)

Lemma append_nil_l (s : string) : "" +:+ s = s.
Proof. reflexivity. Qed.

Lemma append_cons a (s t : string) : String a s +:+ t = String a (s +:+ t).
Proof. reflexivity. Qed.

Lemma append_assoc (s t u : string) : (s +:+ t) +:+ u = s +:+ (t +:+ u).
Proof.
  induction s as [|a s IH]; [done|]. by rewrite !append_cons, IH.
Qed.

Lemma append_nil_r (s : string) : s +:+ "" = s.
Proof. induction s as [|a s IH]; [done|]. by rewrite append_cons, IH. Qed.

(** Splitting at the first occurrence of a separator is unambiguous. *)
Lemma append_separator_inj c (u u' v v' : string) :
  string_avoids c u → string_avoids c u' →
  u +:+ String c v = u' +:+ String c v' → u = u' ∧ v = v'.
Proof.
  revert u'. induction u as [|a u IH]; intros [|a' u'] Hu Hu'; rewrite ?append_cons,
    ?append_nil_l; simpl in *.
  - by intros [= ->].
  - intros [= -> _]. by destruct Hu' as [? _].
  - intros [= -> _]. by destruct Hu as [? _].
  - intros [= -> Heq]. destruct Hu as [_ Hu], Hu' as [_ Hu'].
    destruct (IH u' Hu Hu' Heq) as [-> ->]. done.
Qed.

Lemma pretty_N_char_not c :
  (c = "-" ∨ c = ",")%char → ∀ d, pretty_N_char d ≠ c.
Proof.
  intros [-> | ->] d; unfold pretty_N_char; by repeat case_match.
Qed.

Lemma pretty_N_go_avoids c x s :
  (∀ d, pretty_N_char d ≠ c) → string_avoids c s → string_avoids c (pretty_N_go x s).
Proof.
  intros Hc. revert s. induction (N.lt_wf_0 x) as [x _ IH]; intros s Hs.
  assert (x = 0 ∨ 0 < x)%N as [->|Hpos] by lia.
  - by rewrite pretty_N_go_0.
  - rewrite pretty_N_go_step by done. apply IH.
    + by apply N.div_lt.
    + split; [apply Hc | done].
Qed.

Lemma pretty_N_go_not_empty x s : s ≠ ""%string → pretty_N_go x s ≠ ""%string.
Proof.
  revert s. induction (N.lt_wf_0 x) as [x _ IH]; intros s Hs.
  assert (x = 0 ∨ 0 < x)%N as [->|Hpos] by lia.
  - by rewrite pretty_N_go_0.
  - rewrite pretty_N_go_step by done. apply IH; [by apply N.div_lt | done].
Qed.

Lemma pretty_N_avoids c (n : N) : (∀ d, pretty_N_char d ≠ c) → string_avoids c (pretty n).
Proof.
  intros Hc. unfold pretty, pretty_N. case_decide.
  - split; [apply (Hc 0%N) | done].
  - by apply pretty_N_go_avoids.
Qed.

Lemma pretty_N_not_empty (n : N) : pretty n ≠ ""%string.
Proof.
  unfold pretty, pretty_N. case_decide; [done|].
  rewrite pretty_N_go_step by lia. by apply pretty_N_go_not_empty.
Qed.

(** The decimal text of an integer: digits, after a minus sign when it is
    negative. *)
Lemma pretty_Z_shape (z : Z) :
  (0 ≤ z ∧ string_avoids "-" (pretty z) ∧ pretty z ≠ ""%string)
  ∨ (z < 0 ∧ ∃ t, pretty z = String "-" t ∧ string_avoids "-" t).
Proof.
  destruct z as [|p|p].
  - left. by repeat split.
  - left. split; [lia|]. split.
    + apply (pretty_N_avoids "-" (N.pos p)), pretty_N_char_not. by left.
    + apply (pretty_N_not_empty (N.pos p)).
  - right. split; [lia|]. exists (pretty (N.pos p)). split; [done|].
    apply pretty_N_avoids, pretty_N_char_not. by left.
Qed.

Lemma pretty_Z_avoids_comma (z : Z) : string_avoids "," (pretty z).
Proof.
  assert (Hn : ∀ n : N, string_avoids "," (pretty n)).
  { intros n. apply pretty_N_avoids, pretty_N_char_not. by right. }
  destruct z as [|p|p]; [by split | apply (Hn (N.pos p)) |].
  split; [done | apply (Hn (N.pos p))].
Qed.

(** [to_string(a) + "-" + to_string(b)] determines [a] and [b]. *)
Lemma dash_signature_inj (a b c d : Z) :
  pretty a +:+ "-" +:+ pretty b = pretty c +:+ "-" +:+ pretty d → a = c ∧ b = d.
Proof.
  change (pretty a +:+ String "-" (pretty b) = pretty c +:+ String "-" (pretty d)
          → a = c ∧ b = d).
  intros Heq.
  destruct (pretty_Z_shape a) as [(Ha & Hav & Hne)|(Ha & ta & Hta & Hav)],
           (pretty_Z_shape c) as [(Hc & Hcv & Hnc)|(Hc & tc & Htc & Hcv)].
  - destruct (append_separator_inj _ _ _ _ _ Hav Hcv Heq) as [H1 H2].
    split; by apply (inj pretty).
  - exfalso. rewrite Htc, append_cons in Heq.
    destruct (pretty a) as [|x rest]; [done|].
    rewrite append_cons in Heq. injection Heq as -> _. by destruct Hav as [? _].
  - exfalso. rewrite Hta, append_cons in Heq.
    destruct (pretty c) as [|x rest]; [done|].
    rewrite append_cons in Heq. injection Heq as <- _. by destruct Hcv as [? _].
  - rewrite Hta, Htc, !append_cons in Heq. injection Heq as Heq.
    destruct (append_separator_inj _ _ _ _ _ Hav Hcv Heq) as [H1 H2].
    split; apply (inj pretty); [congruence | done].
Qed.

Lemma edge_signature_inj e1 e2 :
  edge_signature e1 = edge_signature e2 ↔ endpoint_pair e1 = endpoint_pair e2.
Proof.
  unfold edge_signature, endpoint_pair. split.
  - intros [-> ->]%dash_signature_inj. done.
  - by intros [= -> ->].
Qed.

(** *** Duplicate edges, exactly *)

Lemma duplicate_edges_from_nil seen l :
  duplicate_edges_from seen l = []
  ↔ NoDup (endpoint_pair <$> l) ∧ ∀ e, e ∈ l → endpoint_pair e ∉ seen.
Proof.
  revert seen. induction l as [|e l IH]; intros seen; simpl.
  - split; [|done]. intros _. split; [apply NoDup_nil_2|]. intros e He.
    by apply not_elem_of_nil in He.
  - destruct (decide (endpoint_pair e ∈ seen)) as [Hin|Hnotin].
    + split; [done|]. intros [_ Hall]. exfalso. apply (Hall e); [by left | done].
    + rewrite IH, NoDup_cons. split.
      * intros [Hnd Hall]. split; [split; [|done]|].
        -- intros (e' & Heq & He')%list_elem_of_fmap. apply (Hall e' He').
           rewrite <- Heq. by left.
        -- intros e' [->|He']%elem_of_cons; [done|].
           intros Hin. apply (Hall e' He'). by right.
      * intros [[Hfresh Hnd] Hall]. split; [done|].
        intros e' He' [Heq|Hin]%elem_of_cons.
        -- apply Hfresh. rewrite <- Heq. by apply list_elem_of_fmap_2.
        -- apply (Hall e'); [by right | done].
Qed.

Lemma detectDuplicateEdges_by_pairs m :
  detectDuplicateEdges m = duplicate_edges_from [] (edges m).
Proof.
  unfold detectDuplicateEdges, getEdges.
  set (l := edges m).
  match goal with |- fst ?R = _ =>
    assert (Hinv : ∃ seen,
              fst R ++ duplicate_edges_from seen (drop (length l) l)
              = duplicate_edges_from [] l
              ∧ ∀ e, edge_signature e ∈ snd R ↔ endpoint_pair e ∈ seen)
  end.
  { apply (for_range_invariant_idx (λ i (st : list Z * gset string),
      ∃ seen, fst st ++ duplicate_edges_from seen (drop i l) = duplicate_edges_from [] l
              ∧ ∀ e, edge_signature e ∈ snd st ↔ endpoint_pair e ∈ seen)); [lia| |].
    - exists []. split; [done|]. intros e. cbn [snd]. set_solver.
    - intros i [dups sigs] Hi (seen & Heq & Hsigs). cbn [fst snd] in *.
      destruct (l !! i) as [e|] eqn:Hli; [|apply lookup_ge_None in Hli; lia].
      rewrite (drop_S _ _ _ Hli) in Heq. simpl in Heq.
      destruct (decide (edge_signature e ∈ sigs)) as [Hin|Hnotin]; cbn [fst snd].
      + exists seen. rewrite decide_True in Heq by (by apply Hsigs).
        split; [by rewrite <- app_assoc | done].
      + rewrite decide_False in Heq by (by rewrite <- Hsigs).
        exists (endpoint_pair e :: seen). split; [done|].
        intros e'. rewrite elem_of_union, elem_of_singleton, elem_of_cons, Hsigs.
        rewrite edge_signature_inj. tauto. }
  destruct Hinv as (seen & Heq & _). by rewrite drop_all, app_nil_r in Heq.
Qed.

(** [detectDuplicateEdges] finds the duplicates exactly: the text signature
    stands for the unordered endpoint pair without collisions, so the result
    lists, in order, the start ids of the edges whose endpoint pair occurred
    earlier in the sequence, and it is empty if and only if no two edges of
    the sequence join the same two vertices. *)
Theorem detectDuplicateEdges_exact m :
  detectDuplicateEdges m = duplicate_edges_from [] (edges m)
  ∧ (detectDuplicateEdges m = [] ↔ NoDup (endpoint_pair <$> edges m))
  ∧ (∀ e1 e2, edge_signature e1 = edge_signature e2
              ↔ endpoint_pair e1 = endpoint_pair e2).
Proof.
  split; [apply detectDuplicateEdges_by_pairs|]. split; [|apply edge_signature_inj].
  rewrite detectDuplicateEdges_by_pairs, duplicate_edges_from_nil. split; [tauto|].
  intros Hnd. split; [done|]. intros e _. apply not_elem_of_nil.
Qed.

(** *** Duplicate faces, exactly *)

Lemma comma_signature_foldl (l : list Z) (acc : string) :
  foldl (λ signature edge_id, signature +:+ (pretty edge_id +:+ ",")) acc l
  = acc +:+ foldr (λ edge_id rest, pretty edge_id +:+ String "," rest) ""%string l.
Proof.
  revert acc. induction l as [|id l IH]; intros acc; simpl.
  - by rewrite append_nil_r.
  - rewrite IH, !append_assoc. reflexivity.
Qed.

Lemma comma_signature_inj (l1 l2 : list Z) :
  foldr (λ edge_id rest, pretty edge_id +:+ String "," rest) ""%string l1
  = foldr (λ edge_id rest, pretty edge_id +:+ String "," rest) ""%string l2 →
  l1 = l2.
Proof.
  revert l2. induction l1 as [|a l1 IH]; intros [|b l2]; simpl; try done.
  - destruct (pretty b); discriminate.
  - destruct (pretty a); discriminate.
  - intros Heq.
    destruct (append_separator_inj _ _ _ _ _ (pretty_Z_avoids_comma a)
                (pretty_Z_avoids_comma b) Heq) as [Hab Hrest].
    f_equal; [by apply (inj pretty) | by apply IH].
Qed.

Lemma face_signature_inj f g :
  face_signature f = face_signature g
  ↔ merge_sort Z.le (edge_ids f) = merge_sort Z.le (edge_ids g).
Proof.
  unfold face_signature. rewrite !comma_signature_foldl, !append_nil_l. split.
  - apply comma_signature_inj.
  - by intros ->.
Qed.

(** Two lists of ids have the same ascending arrangement exactly when one is
    a rearrangement of the other. *)
Lemma merge_sort_eq_iff (l1 l2 : list Z) :
  merge_sort Z.le l1 = merge_sort Z.le l2 ↔ l1 ≡ₚ l2.
Proof.
  split.
  - intros Heq. by rewrite <- (merge_sort_Permutation Z.le l1), Heq, merge_sort_Permutation.
  - intros Hperm. apply (Sorted_unique Z.le); [apply Sorted_merge_sort, _..|].
    by rewrite !merge_sort_Permutation.
Qed.

Lemma duplicate_faces_from_nil seen pos l :
  duplicate_faces_from seen pos l = []
  ↔ NoDup ((λ f, merge_sort Z.le (edge_ids f)) <$> l)
    ∧ ∀ f, f ∈ l → merge_sort Z.le (edge_ids f) ∉ seen.
Proof.
  revert seen pos. induction l as [|f l IH]; intros seen pos; simpl.
  - split; [|done]. intros _. split; [apply NoDup_nil_2|]. intros f Hf.
    by apply not_elem_of_nil in Hf.
  - destruct (decide (merge_sort Z.le (edge_ids f) ∈ seen)) as [Hin|Hnotin].
    + split; [done|]. intros [_ Hall]. exfalso. apply (Hall f); [by left | done].
    + rewrite IH, NoDup_cons. split.
      * intros [Hnd Hall]. split; [split; [|done]|].
        -- intros (f' & Heq & Hf')%list_elem_of_fmap. apply (Hall f' Hf').
           rewrite <- Heq. by left.
        -- intros f' [->|Hf']%elem_of_cons; [done|].
           intros Hin. apply (Hall f' Hf'). by right.
      * intros [[Hfresh Hnd] Hall]. split; [done|].
        intros f' Hf' [Heq|Hin]%elem_of_cons.
        -- apply Hfresh. rewrite <- Heq.
           by apply (list_elem_of_fmap_2 (λ f, merge_sort Z.le (edge_ids f))).
        -- apply (Hall f'); [by right | done].
Qed.

Lemma duplicate_faces_from_drop seen l i f :
  l !! i = Some f →
  duplicate_faces_from seen i (drop i l)
  = if decide (merge_sort Z.le (edge_ids f) ∈ seen)
    then to_int (Z.of_nat i + 1) :: duplicate_faces_from seen (S i) (drop (S i) l)
    else duplicate_faces_from (merge_sort Z.le (edge_ids f) :: seen) (S i) (drop (S i) l).
Proof. intros Hli. by rewrite (drop_S _ _ _ Hli). Qed.

Lemma detectDuplicateFaces_by_sorted_ids m :
  detectDuplicateFaces m = duplicate_faces_from [] 0 (faces m).
Proof.
  unfold detectDuplicateFaces, getFaces.
  set (l := faces m).
  match goal with |- fst ?R = _ =>
    assert (Hinv : ∃ seen,
              fst R ++ duplicate_faces_from seen (length l) (drop (length l) l)
              = duplicate_faces_from [] 0 l
              ∧ ∀ f, face_signature f ∈ snd R ↔ merge_sort Z.le (edge_ids f) ∈ seen)
  end.
  { apply (for_range_invariant_idx (λ i (st : list Z * gset string),
      ∃ seen, fst st ++ duplicate_faces_from seen i (drop i l) = duplicate_faces_from [] 0 l
              ∧ ∀ f, face_signature f ∈ snd st ↔ merge_sort Z.le (edge_ids f) ∈ seen));
      [lia| |].
    - exists []. split; [done|]. intros f. cbn [snd]. set_solver.
    - intros i [dups sigs] Hi (seen & Heq & Hsigs). cbn [fst snd] in *.
      destruct (l !! i) as [f|] eqn:Hli; [|apply lookup_ge_None in Hli; lia].
      rewrite (duplicate_faces_from_drop _ _ _ _ Hli) in Heq.
      destruct (decide (face_signature f ∈ sigs)) as [Hin|Hnotin]; cbn [fst snd].
      + exists seen. rewrite decide_True in Heq by (by apply Hsigs).
        split; [by rewrite <- app_assoc | done].
      + rewrite decide_False in Heq by (by rewrite <- Hsigs).
        exists (merge_sort Z.le (edge_ids f) :: seen). split; [done|].
        intros f'. rewrite elem_of_union, elem_of_singleton, elem_of_cons, Hsigs.
        rewrite face_signature_inj. tauto. }
  destruct Hinv as (seen & Heq & _). by rewrite drop_all, app_nil_r in Heq.
Qed.

(** [detectDuplicateFaces] finds the duplicates exactly: the signature of a
    face stands for its edge ids in ascending order without collisions, so
    the result lists, in order, the 1-based positions (as [int]) of the faces
    whose edge ids are a rearrangement of those of an earlier face, and it is
    empty if and only if no two faces of the sequence have the same edge ids
    up to order. *)
Theorem detectDuplicateFaces_exact m :
  detectDuplicateFaces m = duplicate_faces_from [] 0 (faces m)
  ∧ (detectDuplicateFaces m = []
     ↔ NoDup ((λ f, merge_sort Z.le (edge_ids f)) <$> faces m))
  ∧ (∀ f g, face_signature f = face_signature g ↔ edge_ids f ≡ₚ edge_ids g).
Proof.
  split; [apply detectDuplicateFaces_by_sorted_ids|]. split.
  - rewrite detectDuplicateFaces_by_sorted_ids, duplicate_faces_from_nil. split; [tauto|].
    intros Hnd. split; [done|]. intros f _. apply not_elem_of_nil.
  - intros f g. by rewrite face_signature_inj, merge_sort_eq_iff.
Qed.

(* ===================================================================== *)
(** ** The aggregate check *)
(* ===================================================================== *)

Lemma report_flag heading found st :
  fst (report heading found st) = match found with [] => fst st | _ :: _ => true end.
Proof. by destruct found. Qed.

Lemma detectAllTopologyErrors_flag m buf cout :
  let r := detectAllTopologyErrors m buf cout in
  (fst (fst r) = false
   ↔ NoDup (endpoint_pair <$> edges m)
     ∧ NoDup ((λ f, merge_sort Z.le (edge_ids f)) <$> faces m))
  ∧ (fst (fst r) = false → snd r = (cout +:+ "未检测到拓扑错误！") +:+ endl)
  ∧ (fst (fst r) = true →
     snd r = snd (report "检测到重复面：" (detectDuplicateFaces m)
                    (report "检测到重复边：" (detectDuplicateEdges m) (false, cout)))).
Proof.
  unfold detectAllTopologyErrors. cbv zeta.
  pose proof (detectNormalInconsistencies_nil m buf) as Hnil.
  destruct (detectNormalInconsistencies m buf) as [inconsistent buf']. simpl in Hnil.
  subst inconsistent. cbn [report fst snd].
  pose proof (duplicate_edges_from_nil [] (edges m)) as He.
  pose proof (duplicate_faces_from_nil [] 0 (faces m)) as Hf.
  rewrite <- detectDuplicateEdges_by_pairs in He.
  rewrite <- detectDuplicateFaces_by_sorted_ids in Hf.
  assert (He' : detectDuplicateEdges m = [] ↔ NoDup (endpoint_pair <$> edges m)).
  { rewrite He. split; [tauto|]. intros ?. split; [done|]. intros ? _. apply not_elem_of_nil. }
  assert (Hf' : detectDuplicateFaces m = []
                ↔ NoDup ((λ f, merge_sort Z.le (edge_ids f)) <$> faces m)).
  { rewrite Hf. split; [tauto|]. intros ?. split; [done|]. intros ? _. apply not_elem_of_nil. }
  rewrite <- He', <- Hf'. clear He Hf He' Hf'.
  destruct (detectDuplicateEdges m) as [|de des], (detectDuplicateFaces m) as [|df dfs];
    cbn [report fst snd]; (split; [|split]); try done; intuition congruence.
Qed.

(** [detectAllTopologyErrors] returns [false] exactly when no two edges join
    the same two vertices and no two faces have the same edge ids up to
    order; the normal check never contributes. When it returns [false] the
    only text written is the line saying that no error was found, and when
    it returns [true] the text is that of the duplicate edge and duplicate
    face blocks alone. *)
Theorem detectAllTopologyErrors_result m buf cout :
  let r := detectAllTopologyErrors m buf cout in
  (fst (fst r) = false
   ↔ NoDup (endpoint_pair <$> edges m)
     ∧ NoDup ((λ f, merge_sort Z.le (edge_ids f)) <$> faces m))
  ∧ (fst (fst r) = false → snd r = (cout +:+ "未检测到拓扑错误！") +:+ endl)
  ∧ (fst (fst r) = true →
     snd r = snd (report "检测到重复面：" (detectDuplicateFaces m)
                    (report "检测到重复边：" (detectDuplicateEdges m) (false, cout)))).
Proof. apply detectAllTopologyErrors_flag. Qed.

Lemma detectAllTopologyErrors_result_witness :
  let r := detectAllTopologyErrors two_sided_triangle (mkVec3 d_0 d_0 d_0) "" in
  fst (fst r) = true ∧ snd r = ("检测到重复边：1 3 2 " +:+ endl)%string.
Proof.
  destruct (detectAllTopologyErrors_result two_sided_triangle (mkVec3 d_0 d_0 d_0) "")
    as (_ & _ & Htrue).
  split; [reflexivity|]. rewrite Htrue by reflexivity. reflexivity.
Defined.

(** The scenario of the empty store: all three detectors return nothing and
    the aggregate check returns [false]. *)
Example empty_store_has_no_errors :
  detectDuplicateEdges newModelManager = []
  ∧ detectDuplicateFaces newModelManager = []
  ∧ fst (detectNormalInconsistencies newModelManager (mkVec3 d_0 d_0 d_0)) = []
  ∧ fst (fst (detectAllTopologyErrors newModelManager (mkVec3 d_0 d_0 d_0) "")) = false.
Proof. repeat split. Qed.

(* ===================================================================== *)
(** ** Sweeps and the empty profile *)
(* ===================================================================== *)

(** Both sweeps return [false] exactly when the profile is empty, and then
    they leave the store as it is; every other call returns [true], whether
    or not its insertions went through. *)
Theorem sweeps_fail_iff_empty_profile std_cos std_sin m profile distance
    axis_point axis_direction angle :
  (fst (extrude m profile distance) = false ↔ profile = [])
  ∧ (fst (revolve std_cos std_sin m profile axis_point axis_direction angle) = false
     ↔ profile = [])
  ∧ extrude m [] distance = (false, m)
  ∧ revolve std_cos std_sin m [] axis_point axis_direction angle = (false, m).
Proof. destruct profile; repeat split; done. Qed.

(* ===================================================================== *)
(** ** Nested loops *)
(* ===================================================================== *)

Lemma for_range_ext {S} lo hi (body body' : nat → S → S) s :
  (∀ i s, (lo ≤ i < hi)%nat → body i s = body' i s) →
  for_range lo hi body s = for_range lo hi body' s.
Proof.
  intros Hext. destruct (decide (lo ≤ hi)%nat) as [Hle|Hgt].
  - induction hi as [|hi IH].
    + assert (lo = 0%nat) as -> by lia. by rewrite !for_range_empty.
    + destruct (decide (lo = Datatypes.S hi)) as [->|Hne]; [by rewrite !for_range_empty|].
      rewrite !for_range_snoc by lia. rewrite IH; [apply Hext; lia| |lia].
      intros i s' Hi. apply Hext. lia.
  - unfold for_range. by replace (hi - lo)%nat with 0%nat by lia.
Qed.

Lemma for_range_split {S} lo mid hi (body : nat → S → S) s :
  (lo ≤ mid ≤ hi)%nat →
  for_range lo hi body s = for_range mid hi body (for_range lo mid body s).
Proof.
  intros Hle. unfold for_range.
  replace (hi - lo)%nat with ((mid - lo) + (hi - mid))%nat by lia.
  rewrite seq_app, foldl_app. by replace (lo + (mid - lo))%nat with mid by lia.
Qed.

Lemma for_range_shift {S} lo c (body : nat → S → S) s :
  for_range lo (lo + c) body s = for_range 0 c (λ j, body (lo + j)%nat) s.
Proof.
  induction c as [|c IH].
  - by rewrite Nat.add_0_r, !for_range_empty.
  - replace (lo + Datatypes.S c)%nat with (Datatypes.S (lo + c)) by lia.
    rewrite !for_range_snoc by lia. by rewrite IH.
Qed.

(** A loop of [k] rounds of an inner loop of [c] rounds is one loop of
    [k * c] rounds. *)
Lemma for_range_nested {S} k c (body : nat → nat → S → S) s :
  c ≠ 0%nat →
  for_range 0 k (λ i s, for_range 0 c (λ j s, body i j s) s) s
  = for_range 0 (k * c) (λ n s, body (n / c)%nat (n mod c)%nat s) s.
Proof.
  intros Hc. induction k as [|k IH]; [done|].
  rewrite for_range_snoc by lia. rewrite IH.
  rewrite (for_range_split 0 (k * c) (Datatypes.S k * c)) by lia.
  replace (Datatypes.S k * c)%nat with (k * c + c)%nat by lia.
  rewrite for_range_shift. apply for_range_ext. intros j s' Hj.
  rewrite Nat.div_add_l by done. rewrite Nat.div_small by lia.
  rewrite (Nat.add_comm (k * c) j), Nat.Div0.mod_add, Nat.mod_small by lia.
  by rewrite Nat.add_0_r.
Qed.

(* ===================================================================== *)
(** ** The edges and faces of a revolution *)
(* ===================================================================== *)

Lemma for_range_4 {S} (body : nat → S → S) s :
  for_range 0 4 body s = body 3%nat (body 2%nat (body 1%nat (body 0%nat s))).
Proof. reflexivity. Qed.

Lemma concat_map_seq_5 {A} (F : nat → list A) :
  concat (map F (seq 0 5)) = F 0%nat ++ F 1%nat ++ F 2%nat ++ F 3%nat ++ F 4%nat.
Proof. cbn [seq map concat]. by rewrite app_nil_r. Qed.

Lemma concat_map_seq_4 {A} (F : nat → list A) :
  concat (map F (seq 0 4)) = F 0%nat ++ F 1%nat ++ F 2%nat ++ F 3%nat.
Proof. cbn [seq map concat]. by rewrite app_nil_r. Qed.

(** [k] blocks of [b] elements, one after the other, element by element. *)
Lemma concat_blocks_flat {A} (f : nat → nat → A) b k :
  b ≠ 0%nat →
  concat (map (λ i, map (f i) (seq 0 b)) (seq 0 k))
  = map (λ n, f (n / b)%nat (n mod b)%nat) (seq 0 (k * b)).
Proof.
  intros Hb. induction k as [|k IH]; [done|].
  rewrite seq_S, map_app, concat_app, IH. cbn [map concat Nat.add]. rewrite app_nil_r.
  replace (Datatypes.S k * b)%nat with (k * b + b)%nat by lia.
  rewrite seq_app, map_app. f_equal. cbn [Nat.add].
  rewrite (seq_from (k * b) b), map_map. apply map_ext_in. intros j Hj%in_seq.
  rewrite Nat.div_add_l by done. rewrite Nat.div_small by lia.
  rewrite (Nat.add_comm (k * b) j), Nat.Div0.mod_add, Nat.mod_small by lia.
  by rewrite Nat.add_0_r.
Qed.

Lemma length_concat_uniform {A} (blocks : list (list A)) k :
  Forall (λ b, length b = k) blocks → length (concat blocks) = (length blocks * k)%nat.
Proof.
  induction 1 as [|b blocks Hb _ IH]; [done|].
  cbn [concat length]. rewrite length_app, IH, Hb. lia.
Qed.

(** Element [i] of block [s] of a concatenation of blocks of [k] elements. *)
Lemma lookup_concat_uniform {A} (blocks : list (list A)) k s i :
  Forall (λ b, length b = k) blocks → (i < k)%nat →
  concat blocks !! (s * k + i)%nat = blocks !! s ≫= (λ b, b !! i).
Proof.
  intros Hall Hi. revert s. induction Hall as [|b blocks Hb _ IH]; intros s; [done|].
  cbn [concat]. destruct s as [|s].
  - cbn [Nat.mul Nat.add]. by rewrite lookup_app_l by lia.
  - rewrite lookup_app_r by lia. rewrite Hb.
    replace (Datatypes.S s * k + i - k)%nat with (s * k + i)%nat by lia.
    apply IH.
Qed.

Lemma Forall_map_seq_blocks {A} (f : nat → nat → A) b k :
  Forall (λ l, length l = k) (map (λ s, map (f s) (seq 0 k)) (seq 0 b)).
Proof.
  apply Forall_forall. intros l Hl.
  apply list_elem_of_In, in_map_iff in Hl as (s & <- & _).
  by rewrite length_map, length_seq.
Qed.

Lemma lookup_concat_blocks {A} (f : nat → nat → A) b k s i :
  (s < b)%nat → (i < k)%nat →
  concat (map (λ s, map (f s) (seq 0 k)) (seq 0 b)) !! (s * k + i)%nat = Some (f s i).
Proof.
  intros Hs Hi.
  rewrite (lookup_concat_uniform _ k) by (done || apply Forall_map_seq_blocks).
  rewrite lookup_map_seq by done. cbn [mbind option_bind]. by apply lookup_map_seq.
Qed.

Lemma length_concat_blocks {A} (f : nat → nat → A) b k :
  length (concat (map (λ s, map (f s) (seq 0 k)) (seq 0 b))) = (b * k)%nat.
Proof.
  rewrite (length_concat_uniform _ k) by apply Forall_map_seq_blocks.
  by rewrite length_map, length_seq.
Qed.

(** One ring of vertices under the next [k] ids. *)
Lemma ring_block_indexed (profile : list Point3D) k (base : Z) (g : Point3D → Point3D)
    vm em fm vs es fs :
  k = length profile →
  indexed vm vs → base = 1 + Z.of_nat (length vs) → base + Z.of_nat k ≤ INT_MAX + 1 →
  ∃ vm',
    for_range 0 k
      (λ i m, snd (addVertex (to_int (base + Z.of_nat i)) (pt_x (g (profile !!! i)))
                             (pt_y (g (profile !!! i))) (pt_z (g (profile !!! i))) m))
      (mkModelManager vm em fm vs es fs)
    = mkModelManager vm' em fm
        (vs ++ imap (λ i v, mkPoint3D (base + Z.of_nat i)
                              (pt_x (g v)) (pt_y (g v)) (pt_z (g v))) profile)
        es fs
    ∧ indexed vm' (vs ++ imap (λ i v, mkPoint3D (base + Z.of_nat i)
                                        (pt_x (g v)) (pt_y (g v)) (pt_z (g v))) profile)
    ∧ size vm' = (size vm + k)%nat.
Proof.
  intros -> Hix Hbase Hmax.
  destruct (vertex_block_indexed (λ i, pt_x (g (profile !!! i))) (λ i, pt_y (g (profile !!! i)))
              (λ i, pt_z (g (profile !!! i))) (length profile) base vm em fm vs es fs)
    as (vm' & Heq & Hix' & Hsize); [done..|].
  rewrite (map_seq_lookup_total (λ i v, mkPoint3D (base + Z.of_nat i)
                                          (pt_x (g v)) (pt_y (g v)) (pt_z (g v)))) in Heq, Hix'.
  by exists vm'.
Qed.

Section Revolve_explicit.
Variables std_cos std_sin : double → double.

(** The store a revolution leaves from the empty store, entity by entity. *)
Lemma revolve_empty_store_explicit profile axis_point axis_direction angle :
  profile ≠ [] →
  9 * Z.of_nat (length profile) < INT_MAX →
  ∃ vm em fm,
    revolve std_cos std_sin newModelManager profile axis_point axis_direction angle
    = (true, mkModelManager vm em fm
               (concat (map (revolve_ring std_cos std_sin profile angle) (seq 0 5)))
               (revolve_edges (length profile))
               (map stored_face (revolve_face_ids (length profile))))
    ∧ indexed vm (concat (map (revolve_ring std_cos std_sin profile angle) (seq 0 5)))
    ∧ indexed em (revolve_edges (length profile))
    ∧ indexed fm (map stored_face (revolve_face_ids (length profile)))
    ∧ size vm = (5 * length profile)%nat
    ∧ size em = (9 * length profile)%nat
    ∧ size fm = (4 * length profile + 1)%nat.
Proof.
  intros Hne Hbound. unfold revolve.
  destruct profile as [|p0 rest] eqn:Hp; [done|]. rewrite <- Hp in *. clear Hp p0 rest.
  set (k := length profile) in *.
  assert (Hk : k ≠ 0%nat) by (subst k; by destruct profile).
  assert (Hnext : ∀ i, 0 ≤ Z.of_nat ((i + 1) mod k) < Z.of_nat k)
    by (intros i; by apply next_index_lt).
  unfold reserveVertices, reserveEdges, reserveFaces. cbv zeta.
  unfold newModelManager.
  (* five rings of vertices *)
  rewrite (for_range_5 (S := ModelManager)). cbv beta.
  set (step_angle := d_div angle (double_of_int 4)).
  destruct (ring_block_indexed profile k (1 + Z.of_nat 0 * Z.of_nat k)
              (λ v, rotateZ std_cos std_sin v (d_mul step_angle (double_of_int (Z.of_nat 0))))
              ∅ ∅ ∅ [] [] [])
    as (vm1 & -> & Hvix1 & Hvsz1); [done | apply indexed_empty | done | int_lia |].
  match type of Hvix1 with indexed vm1 ?l =>
  destruct (ring_block_indexed profile k (1 + Z.of_nat 1 * Z.of_nat k)
              (λ v, rotateZ std_cos std_sin v (d_mul step_angle (double_of_int (Z.of_nat 1))))
              vm1 ∅ ∅ l [] [])
    as (vm2 & -> & Hvix2 & Hvsz2); [done | done | length_lia | int_lia |]
  end.
  match type of Hvix2 with indexed vm2 ?l =>
  destruct (ring_block_indexed profile k (1 + Z.of_nat 2 * Z.of_nat k)
              (λ v, rotateZ std_cos std_sin v (d_mul step_angle (double_of_int (Z.of_nat 2))))
              vm2 ∅ ∅ l [] [])
    as (vm3 & -> & Hvix3 & Hvsz3); [done | done | length_lia | int_lia |]
  end.
  match type of Hvix3 with indexed vm3 ?l =>
  destruct (ring_block_indexed profile k (1 + Z.of_nat 3 * Z.of_nat k)
              (λ v, rotateZ std_cos std_sin v (d_mul step_angle (double_of_int (Z.of_nat 3))))
              vm3 ∅ ∅ l [] [])
    as (vm4 & -> & Hvix4 & Hvsz4); [done | done | length_lia | int_lia |]
  end.
  match type of Hvix4 with indexed vm4 ?l =>
  destruct (ring_block_indexed profile k (1 + Z.of_nat 4 * Z.of_nat k)
              (λ v, rotateZ std_cos std_sin v (d_mul step_angle (double_of_int (Z.of_nat 4))))
              vm4 ∅ ∅ l [] [])
    as (vm & -> & Hvix & Hvsz); [done | done | length_lia | int_lia |]
  end.
  match type of Hvix with indexed vm ?l =>
    assert (Hvs : l = concat (map (revolve_ring std_cos std_sin profile angle) (seq 0 5)));
    [|rewrite Hvs in *; clear Hvs]
  end.
  { rewrite concat_map_seq_5. unfold revolve_ring. fold k. fold step_angle.
    cbn [app]. by rewrite <- !app_assoc. }
  rewrite map_size_empty in Hvsz1. clear Hvix1 Hvix2 Hvix3 Hvix4.
  set (vs := concat (map (revolve_ring std_cos std_sin profile angle) (seq 0 5))) in *.
  assert (Hvm : dom_range vm 1 (1 + 5 * Z.of_nat k)).
  { eapply dom_range_hi; [apply (indexed_dom_range _ _ Hvix)|].
    subst vs. rewrite concat_map_seq_5. unfold revolve_ring. length_lia. }
  (* five rings of edges *)
  rewrite (for_range_5 (S := Z * ModelManager)). cbv beta.
  destruct (edge_block_indexed (λ i, to_int (1 + Z.of_nat 0 * Z.of_nat k + Z.of_nat i))
              (λ i, to_int (1 + Z.of_nat 0 * Z.of_nat k + to_int (Z.of_nat ((i + 1) mod k))))
              k 1 vm ∅ ∅ vs [] [] (1 + 5 * Z.of_nat k))
    as (em1 & -> & Heix1 & Hesz1);
    [apply indexed_empty | done | int_lia | done
    | intros i Hi; pose proof (Hnext i); int_simpl; lia |].
  match type of Heix1 with indexed em1 ?l =>
  destruct (edge_block_indexed (λ i, to_int (1 + Z.of_nat 1 * Z.of_nat k + Z.of_nat i))
              (λ i, to_int (1 + Z.of_nat 1 * Z.of_nat k + to_int (Z.of_nat ((i + 1) mod k))))
              k (1 + Z.of_nat k) vm em1 ∅ vs l [] (1 + 5 * Z.of_nat k))
    as (em2 & -> & Heix2 & Hesz2);
    [done | length_lia | int_lia | done
    | intros i Hi; pose proof (Hnext i); int_simpl; lia |]
  end.
  match type of Heix2 with indexed em2 ?l =>
  destruct (edge_block_indexed (λ i, to_int (1 + Z.of_nat 2 * Z.of_nat k + Z.of_nat i))
              (λ i, to_int (1 + Z.of_nat 2 * Z.of_nat k + to_int (Z.of_nat ((i + 1) mod k))))
              k (1 + Z.of_nat k + Z.of_nat k) vm em2 ∅ vs l [] (1 + 5 * Z.of_nat k))
    as (em3 & -> & Heix3 & Hesz3);
    [done | length_lia | int_lia | done
    | intros i Hi; pose proof (Hnext i); int_simpl; lia |]
  end.
  match type of Heix3 with indexed em3 ?l =>
  destruct (edge_block_indexed (λ i, to_int (1 + Z.of_nat 3 * Z.of_nat k + Z.of_nat i))
              (λ i, to_int (1 + Z.of_nat 3 * Z.of_nat k + to_int (Z.of_nat ((i + 1) mod k))))
              k (1 + Z.of_nat k + Z.of_nat k + Z.of_nat k) vm em3 ∅ vs l []
              (1 + 5 * Z.of_nat k))
    as (em4 & -> & Heix4 & Hesz4);
    [done | length_lia | int_lia | done
    | intros i Hi; pose proof (Hnext i); int_simpl; lia |]
  end.
  match type of Heix4 with indexed em4 ?l =>
  destruct (edge_block_indexed (λ i, to_int (1 + Z.of_nat 4 * Z.of_nat k + Z.of_nat i))
              (λ i, to_int (1 + Z.of_nat 4 * Z.of_nat k + to_int (Z.of_nat ((i + 1) mod k))))
              k (1 + Z.of_nat k + Z.of_nat k + Z.of_nat k + Z.of_nat k) vm em4 ∅ vs l []
              (1 + 5 * Z.of_nat k))
    as (em5 & -> & Heix5 & Hesz5);
    [done | length_lia | int_lia | done
    | intros i Hi; pose proof (Hnext i); int_simpl; lia |]
  end.
  (* the edges between consecutive rings *)
  rewrite (for_range_nested k 4
             (λ i step (st : Z * ModelManager),
                (int_succ (fst st),
                 snd (addEdge (fst st)
                        (to_int (1 + Z.of_nat step * Z.of_nat k + Z.of_nat i))
                        (to_int (1 + (Z.of_nat step + 1) * Z.of_nat k + Z.of_nat i))
                        (snd st))))) by done.
  assert (Hsteps : ∀ n, (n < k * 4)%nat → (n / 4 < k)%nat ∧ (n mod 4 < 4)%nat).
  { intros n Hn. split; [apply Nat.Div0.div_lt_upper_bound; lia|by apply Nat.mod_upper_bound]. }
  match type of Heix5 with indexed em5 ?l =>
  destruct (edge_block_indexed
              (λ n, to_int (1 + Z.of_nat (n mod 4) * Z.of_nat k + Z.of_nat (n / 4)))
              (λ n, to_int (1 + (Z.of_nat (n mod 4) + 1) * Z.of_nat k + Z.of_nat (n / 4)))
              (k * 4) (1 + Z.of_nat k + Z.of_nat k + Z.of_nat k + Z.of_nat k + Z.of_nat k)
              vm em5 ∅ vs l [] (1 + 5 * Z.of_nat k))
    as (em & -> & Heix & Hesz); [done | length_lia | int_lia | done | |]
  end.
  { intros n Hn. destruct (Hsteps n Hn) as [Hq Hr].
    destruct (n mod 4)%nat as [|[|[|[|r]]]]; [..|lia]; int_simpl; lia. }
  cbn [snd].
  match type of Heix with indexed em ?l =>
    assert (Hes : l = revolve_edges k); [|rewrite Hes in *; clear Hes]
  end.
  { unfold revolve_edges. rewrite concat_map_seq_5, concat_blocks_flat by done.
    cbn [app]. rewrite <- !app_assoc.
    repeat (apply (f_equal2 app);
            [apply map_ext_in; intros i Hi%in_seq; pose proof (Hnext i); by int_simpl|]).
    apply map_ext_in. intros n Hn%in_seq. destruct (Hsteps n) as [Hq Hr]; [lia|].
    destruct (n mod 4)%nat as [|[|[|[|r]]]]; [..|lia]; by int_simpl. }
  rewrite map_size_empty in Hesz1. clear Heix1 Heix2 Heix3 Heix4 Heix5.
  set (es := revolve_edges k) in *.
  assert (Hem : dom_range em 1 (1 + 9 * Z.of_nat k)).
  { eapply dom_range_hi; [apply (indexed_dom_range _ _ Heix)|].
    subst es. unfold revolve_edges. rewrite length_app, !length_concat_blocks. lia. }
  (* the end cap *)
  pose proof (push_back_loop (λ i, to_int (Z.of_nat i + 1)) 0 k []) as Hend.
  cbn [Nat.add app] in Hend. rewrite Hend. clear Hend.
  replace (map (λ i, to_int (Z.of_nat i + 1)) (seq 0 k)) with (id_range 1 k); cycle 1.
  { unfold id_range. apply map_ext_in. intros i Hi%in_seq. int_simpl. lia. }
  change (int_succ 1) with 2.
  destruct (addFace_indexed (id_range 1 k) 1 vm em ∅ vs es [] (1 + 9 * Z.of_nat k))
    as (fm0 & -> & Hfix0 & Hfsz0);
    [apply indexed_empty | done | done | intros id Hid%elem_of_id_range; lia |].
  (* four bands of side faces *)
  rewrite (for_range_4 (S := Z * ModelManager)). cbv beta.
  match type of Hfix0 with indexed fm0 ?l =>
  destruct (face_block_indexed
              (λ i, [ to_int (to_int (Z.of_nat 0 * Z.of_nat k + 1) + Z.of_nat i);
                      to_int (to_int (Z.of_nat 0 * Z.of_nat k + 1)
                              + Z.of_nat ((i + 1) mod k));
                      to_int (to_int ((Z.of_nat 0 + 1) * Z.of_nat k + 1)
                              + Z.of_nat ((i + 1) mod k));
                      to_int (to_int ((Z.of_nat 0 + 1) * Z.of_nat k + 1) + Z.of_nat i) ])
              k 2 vm em fm0 vs es l (1 + 9 * Z.of_nat k))
    as (fm1 & -> & Hfix1 & Hfsz1); [done | done | int_lia | done | |]
  end.
  { intros i id Hi Hid. pose proof (Hnext i).
    repeat (apply elem_of_cons in Hid as [->|Hid]; [int_simpl; lia|]).
    by apply not_elem_of_nil in Hid. }
  match type of Hfix1 with indexed fm1 ?l =>
  destruct (face_block_indexed
              (λ i, [ to_int (to_int (Z.of_nat 1 * Z.of_nat k + 1) + Z.of_nat i);
                      to_int (to_int (Z.of_nat 1 * Z.of_nat k + 1)
                              + Z.of_nat ((i + 1) mod k));
                      to_int (to_int ((Z.of_nat 1 + 1) * Z.of_nat k + 1)
                              + Z.of_nat ((i + 1) mod k));
                      to_int (to_int ((Z.of_nat 1 + 1) * Z.of_nat k + 1) + Z.of_nat i) ])
              k (2 + Z.of_nat k) vm em fm1 vs es l (1 + 9 * Z.of_nat k))
    as (fm2 & -> & Hfix2 & Hfsz2); [done | length_lia | int_lia | done | |]
  end.
  { intros i id Hi Hid. pose proof (Hnext i).
    repeat (apply elem_of_cons in Hid as [->|Hid]; [int_simpl; lia|]).
    by apply not_elem_of_nil in Hid. }
  match type of Hfix2 with indexed fm2 ?l =>
  destruct (face_block_indexed
              (λ i, [ to_int (to_int (Z.of_nat 2 * Z.of_nat k + 1) + Z.of_nat i);
                      to_int (to_int (Z.of_nat 2 * Z.of_nat k + 1)
                              + Z.of_nat ((i + 1) mod k));
                      to_int (to_int ((Z.of_nat 2 + 1) * Z.of_nat k + 1)
                              + Z.of_nat ((i + 1) mod k));
                      to_int (to_int ((Z.of_nat 2 + 1) * Z.of_nat k + 1) + Z.of_nat i) ])
              k (2 + Z.of_nat k + Z.of_nat k) vm em fm2 vs es l (1 + 9 * Z.of_nat k))
    as (fm3 & -> & Hfix3 & Hfsz3); [done | length_lia | int_lia | done | |]
  end.
  { intros i id Hi Hid. pose proof (Hnext i).
    repeat (apply elem_of_cons in Hid as [->|Hid]; [int_simpl; lia|]).
    by apply not_elem_of_nil in Hid. }
  match type of Hfix3 with indexed fm3 ?l =>
  destruct (face_block_indexed
              (λ i, [ to_int (to_int (Z.of_nat 3 * Z.of_nat k + 1) + Z.of_nat i);
                      to_int (to_int (Z.of_nat 3 * Z.of_nat k + 1)
                              + Z.of_nat ((i + 1) mod k));
                      to_int (to_int ((Z.of_nat 3 + 1) * Z.of_nat k + 1)
                              + Z.of_nat ((i + 1) mod k));
                      to_int (to_int ((Z.of_nat 3 + 1) * Z.of_nat k + 1) + Z.of_nat i) ])
              k (2 + Z.of_nat k + Z.of_nat k + Z.of_nat k) vm em fm3 vs es l
              (1 + 9 * Z.of_nat k))
    as (fm & -> & Hfix & Hfsz); [done | length_lia | int_lia | done | |]
  end.
  { intros i id Hi Hid. pose proof (Hnext i).
    repeat (apply elem_of_cons in Hid as [->|Hid]; [int_simpl; lia|]).
    by apply not_elem_of_nil in Hid. }
  cbn [snd].
  match type of Hfix with indexed fm ?l =>
    assert (Hfs : l = map stored_face (revolve_face_ids k)); [|rewrite Hfs in *; clear Hfs]
  end.
  { unfold revolve_face_ids. rewrite map_cons, concat_map_seq_4, !map_app, !map_map.
    cbn [app]. rewrite <- !app_assoc. f_equal.
    repeat (apply (f_equal2 app);
            [apply map_ext_in; intros i Hi%in_seq; pose proof (Hnext i); by int_simpl|]).
    apply map_ext_in; intros i Hi%in_seq; pose proof (Hnext i); by int_simpl. }
  rewrite map_size_empty in Hfsz0.
  exists vm, em, fm. repeat split; try done; lia.
Qed.

End Revolve_explicit.

Section Revolve_shape.
Variables std_cos std_sin : double → double.

(** For a non-empty profile of n points (9n below [INT_MAX]) [revolve] on an
    empty store returns [true] and leaves 5n vertices under the ids 1..5n, 9n
    edges under the ids 1..9n and 4n+1 faces under the ids 1..4n+1, every id
    being the position in the sequence plus one. Vertex 1+s*n+i is point i of
    ring s, the profile point (x, y, z) turned about the Z axis by
    a = (angle / 4) * s into (x cos a - y sin a, x sin a + y cos a, z);
    edge 1+s*n+i joins the vertices 1+s*n+i and 1+s*n+((i+1) mod n) of ring s
    (s = 0..4);
    edge 1+5n+4i+s joins vertex 1+s*n+i of ring s and vertex 1+(s+1)*n+i of
    ring s+1 (s = 0..3); face 1 is the end cap over the edge ids 1..n of the
    first ring, in order, and face 2+s*n+i holds the four edge ids of the side
    loop, two of ring s and two of ring s+1. *)
Theorem revolve_empty_store profile axis_point axis_direction angle :
  profile ≠ [] →
  9 * Z.of_nat (length profile) < INT_MAX →
  ∃ m', revolve std_cos std_sin newModelManager profile axis_point axis_direction angle
        = (true, m')
    ∧ dom_range (vertex_map m') 1 (1 + 5 * Z.of_nat (length profile))
    ∧ length (edges m') = (9 * length profile)%nat
    ∧ size (edge_map m') = (9 * length profile)%nat
    ∧ dom_range (edge_map m') 1 (1 + 9 * Z.of_nat (length profile))
    ∧ length (faces m') = (4 * length profile + 1)%nat
    ∧ size (face_map m') = (4 * length profile + 1)%nat
    ∧ dom_range (face_map m') 1 (2 + 4 * Z.of_nat (length profile))
    ∧ getFace m' 1 = Some (mkFace (id_range 1 (length profile)) (mkVec3 d_0 d_0 d_0))
    ∧ (∀ step i p, (step < 5)%nat → profile !! i = Some p →
         let n := Z.of_nat (length profile) in
         let next := Z.of_nat ((i + 1) mod length profile) in
         let a := d_mul (d_div angle (double_of_int 4)) (double_of_int (Z.of_nat step)) in
         getVertex m' (1 + Z.of_nat step * n + Z.of_nat i)
         = Some (mkPoint3D (1 + Z.of_nat step * n + Z.of_nat i)
                   (d_sub (d_mul (pt_x p) (std_cos a)) (d_mul (pt_y p) (std_sin a)))
                   (d_add (d_mul (pt_x p) (std_sin a)) (d_mul (pt_y p) (std_cos a)))
                   (pt_z p))
         ∧ getEdge m' (1 + Z.of_nat step * n + Z.of_nat i)
           = Some (mkEdge (1 + Z.of_nat step * n + Z.of_nat i)
                          (1 + Z.of_nat step * n + next)))
    ∧ (∀ step i, (step < 4)%nat → (i < length profile)%nat →
         let n := Z.of_nat (length profile) in
         let next := Z.of_nat ((i + 1) mod length profile) in
         getEdge m' (1 + 5 * n + 4 * Z.of_nat i + Z.of_nat step)
         = Some (mkEdge (1 + Z.of_nat step * n + Z.of_nat i)
                        (1 + (Z.of_nat step + 1) * n + Z.of_nat i))
         ∧ getFace m' (2 + Z.of_nat step * n + Z.of_nat i)
           = Some (mkFace [ Z.of_nat step * n + 1 + Z.of_nat i;
                            Z.of_nat step * n + 1 + next;
                            (Z.of_nat step + 1) * n + 1 + next;
                            (Z.of_nat step + 1) * n + 1 + Z.of_nat i ]
                          (mkVec3 d_0 d_0 d_0)))
    ∧ vertices m' = concat (map (revolve_ring std_cos std_sin profile angle) (seq 0 5))
    ∧ edges m' = revolve_edges (length profile)
    ∧ faces m' = map (λ ids, mkFace ids (mkVec3 d_0 d_0 d_0))
                     (revolve_face_ids (length profile))
    ∧ indexed (vertex_map m') (vertices m')
    ∧ indexed (edge_map m') (edges m')
    ∧ indexed (face_map m') (faces m').
Proof.
  intros Hne Hbound.
  destruct (revolve_empty_store_explicit std_cos std_sin profile axis_point axis_direction
              angle Hne Hbound)
    as (vm & em & fm & -> & Hvix & Heix & Hfix & Hvsz & Hesz & Hfsz).
  eexists. split; [reflexivity|].
  unfold getVertex, getEdge, getFace.
  cbn [vertex_map edge_map face_map vertices edges faces].
  set (k := length profile) in *.
  assert (Hrings : Forall (λ ring, length ring = k)
                     (map (revolve_ring std_cos std_sin profile angle) (seq 0 5))).
  { cbn [map seq]. unfold revolve_ring. repeat constructor; apply length_imap. }
  assert (Hvlen : length (concat (map (revolve_ring std_cos std_sin profile angle) (seq 0 5)))
                  = (5 * k)%nat).
  { rewrite (length_concat_uniform _ k) by done. by rewrite length_map, length_seq. }
  assert (Helen : length (revolve_edges k) = (9 * k)%nat).
  { unfold revolve_edges. rewrite length_app, !length_concat_blocks. lia. }
  assert (Hflen : length (map stored_face (revolve_face_ids k)) = (4 * k + 1)%nat).
  { unfold revolve_face_ids. rewrite length_map. cbn [length].
    rewrite length_concat_blocks. lia. }
  split.
  { eapply dom_range_hi; [apply (indexed_dom_range _ _ Hvix)|]. rewrite Hvlen. lia. }
  split; [done|]. split; [done|]. split.
  { eapply dom_range_hi; [apply (indexed_dom_range _ _ Heix)|]. rewrite Helen. lia. }
  split; [done|]. split; [done|]. split.
  { eapply dom_range_hi; [apply (indexed_dom_range _ _ Hfix)|]. rewrite Hflen. lia. }
  split.
  { by rewrite (indexed_lookup _ _ 1 0 Hfix). }
  split; [|split; [|done]].
  - intros step i p Hstep Hp.
    assert (Hi : (i < k)%nat) by (by apply lookup_lt_Some in Hp).
    split.
    + rewrite (indexed_lookup _ _ _ (step * k + i) Hvix) by lia.
      rewrite (lookup_concat_uniform _ k) by done.
      rewrite lookup_map_seq by done. cbn [mbind option_bind].
      unfold revolve_ring. by rewrite list_lookup_imap, Hp.
    + rewrite (indexed_lookup _ _ _ (step * k + i) Heix) by lia.
      unfold revolve_edges. rewrite lookup_app_l by (rewrite length_concat_blocks; nia).
      by rewrite lookup_concat_blocks.
  - intros step i Hstep Hi. split.
    + rewrite (indexed_lookup _ _ _ (5 * k + (i * 4 + step)) Heix) by lia.
      unfold revolve_edges. rewrite lookup_app_r by (rewrite length_concat_blocks; lia).
      rewrite length_concat_blocks.
      replace (5 * k + (i * 4 + step) - 5 * k)%nat with (i * 4 + step)%nat by lia.
      by rewrite lookup_concat_blocks.
    + rewrite (indexed_lookup _ _ _ (Datatypes.S (step * k + i)) Hfix) by lia.
      unfold revolve_face_ids. cbv zeta. rewrite map_cons, lookup_cons_S.
      change (map stored_face ?l) with (stored_face <$> l).
      rewrite list_lookup_fmap. by rewrite lookup_concat_blocks.
Qed.

End Revolve_shape.

Lemma revolve_empty_store_witness :
  ∃ m', revolve cos_at_0 sin_at_0 newModelManager unit_square
                (mkPoint3D 0 d_0 d_0 d_0) None d_0 = (true, m')
    ∧ dom_range (vertex_map m') 1 21
    ∧ length (edges m') = 36%nat
    ∧ size (edge_map m') = 36%nat
    ∧ dom_range (edge_map m') 1 37
    ∧ length (faces m') = 17%nat
    ∧ size (face_map m') = 17%nat
    ∧ dom_range (face_map m') 1 18
    ∧ getFace m' 1 = Some (mkFace [1; 2; 3; 4] (mkVec3 d_0 d_0 d_0))
    ∧ (getVertex m' 6 = Some (mkPoint3D 6 d_1 d_0 d_0)
       ∧ getEdge m' 6 = Some (mkEdge 6 7))
    ∧ (getEdge m' 26 = Some (mkEdge 6 10)
       ∧ getFace m' 7 = Some (mkFace [6; 7; 11; 10] (mkVec3 d_0 d_0 d_0)))
    ∧ vertices m' = concat (map (revolve_ring cos_at_0 sin_at_0 unit_square d_0) (seq 0 5))
    ∧ edges m'
      = [ mkEdge 1 2; mkEdge 2 3; mkEdge 3 4; mkEdge 4 1;
          mkEdge 5 6; mkEdge 6 7; mkEdge 7 8; mkEdge 8 5;
          mkEdge 9 10; mkEdge 10 11; mkEdge 11 12; mkEdge 12 9;
          mkEdge 13 14; mkEdge 14 15; mkEdge 15 16; mkEdge 16 13;
          mkEdge 17 18; mkEdge 18 19; mkEdge 19 20; mkEdge 20 17;
          mkEdge 1 5; mkEdge 5 9; mkEdge 9 13; mkEdge 13 17;
          mkEdge 2 6; mkEdge 6 10; mkEdge 10 14; mkEdge 14 18;
          mkEdge 3 7; mkEdge 7 11; mkEdge 11 15; mkEdge 15 19;
          mkEdge 4 8; mkEdge 8 12; mkEdge 12 16; mkEdge 16 20 ]
    ∧ faces m'
      = map (λ ids, mkFace ids (mkVec3 d_0 d_0 d_0))
            [ [1; 2; 3; 4];
              [1; 2; 6; 5]; [2; 3; 7; 6]; [3; 4; 8; 7]; [4; 1; 5; 8];
              [5; 6; 10; 9]; [6; 7; 11; 10]; [7; 8; 12; 11]; [8; 5; 9; 12];
              [9; 10; 14; 13]; [10; 11; 15; 14]; [11; 12; 16; 15]; [12; 9; 13; 16];
              [13; 14; 18; 17]; [14; 15; 19; 18]; [15; 16; 20; 19]; [16; 13; 17; 20] ]
    ∧ indexed (vertex_map m') (vertices m')
    ∧ indexed (edge_map m') (edges m')
    ∧ indexed (face_map m') (faces m').
Proof.
  destruct (revolve_empty_store cos_at_0 sin_at_0 unit_square (mkPoint3D 0 d_0 d_0 d_0)
              None d_0)
    as (m' & H1 & H2 & H3 & H4 & H5 & H6 & H7 & H8 & H9 & Hring & Hband & H10 & H11 & H12);
    [discriminate | reflexivity |].
  exists m'. do 9 (split; [assumption|]).
  split; [apply (Hring 1%nat 1%nat (mkPoint3D 2 d_1 d_0 d_0)); [lia | reflexivity]|].
  split; [apply (Hband 1%nat 1%nat); [lia | simpl; lia]|].
  split; [exact H10|]. split; [exact H11|]. exact H12.
Defined.

(* ===================================================================== *)
(** ** Translation by zero *)
(* ===================================================================== *)

Lemma d_add_zero_r x : x ≠ S754_zero true → d_add x d_0 = x.
Proof. destruct x as [[]|[]| |s m e]; done. Qed.

(** Translating by (+0.0, +0.0, +0.0) gives the point back, id included,
    when none of its coordinates is a NaN or the negative zero (the addition
    turns the negative zero into the positive zero); infinite coordinates are
    covered. *)
Theorem translate_by_zero p :
  ¬ is_nan (pt_x p) → ¬ is_nan (pt_y p) → ¬ is_nan (pt_z p) →
  pt_x p ≠ S754_zero true → pt_y p ≠ S754_zero true → pt_z p ≠ S754_zero true →
  translate p d_0 d_0 d_0 = p.
Proof.
  intros _ _ _ Hx Hy Hz. unfold translate. rewrite !d_add_zero_r by done. by destruct p.
Qed.

Lemma translate_by_zero_witness :
  translate (mkPoint3D 5 d_1 d_0 (S754_infinity true)) d_0 d_0 d_0
  = mkPoint3D 5 d_1 d_0 (S754_infinity true).
Proof. apply translate_by_zero; first [discriminate | vm_compute; intros H; exact H]. Defined.

Example translate_negative_zero :
  translate (mkPoint3D 5 (S754_zero true) d_0 d_0) d_0 d_0 d_0 = mkPoint3D 5 d_0 d_0 d_0.
Proof. reflexivity. Qed.

(* ===================================================================== *)
(** ** An extruded shell and the duplicate detectors *)
(* ===================================================================== *)

Lemma edge_block_list (s t : nat → Z) k c vm em fm vs es fs hi :
  1 ≤ c → c + Z.of_nat k ≤ INT_MAX →
  dom_range em 1 c → dom_range vm 1 hi →
  (∀ i, (i < k)%nat → 1 ≤ s i < hi ∧ 1 ≤ t i < hi) →
  ∃ em',
    for_range 0 k (λ i st, (int_succ (fst st), snd (addEdge (fst st) (s i) (t i) (snd st))))
              (c, mkModelManager vm em fm vs es fs)
    = (c + Z.of_nat k,
       mkModelManager vm em' fm vs (es ++ map (λ i, mkEdge (s i) (t i)) (seq 0 k)) fs)
    ∧ dom_range em' 1 (c + Z.of_nat k).
Proof.
  intros Hc Hmax Hem Hvm Hends.
  destruct (dom_range_insert_range (λ i, c + Z.of_nat i) (λ i, mkEdge (s i) (t i)) k em 1 c)
    as [Hdom _]; [lia | done | done |].
  eexists. split; [|exact Hdom].
  apply addEdge_loop; [int_lia | done | |].
  - intros i Hi. apply (dom_range_None _ _ _ _ Hem). lia.
  - intros i Hi. cbn [vertex_map]. destruct (Hends i Hi). split; by apply Hvm.
Qed.

Lemma face_block_list (ids : nat → list Z) k c vm em fm vs es fs hi :
  1 ≤ c → c + Z.of_nat k ≤ INT_MAX →
  dom_range fm 1 c → dom_range em 1 hi →
  (∀ i id, (i < k)%nat → id ∈ ids i → 1 ≤ id < hi) →
  ∃ fm',
    for_range 0 k (λ i st, (int_succ (fst st), snd (addFace (fst st) (ids i) (snd st))))
              (c, mkModelManager vm em fm vs es fs)
    = (c + Z.of_nat k,
       mkModelManager vm em fm' vs es (fs ++ map (λ i, newFace (ids i)) (seq 0 k))).
Proof.
  intros Hc Hmax Hfm Hem Hrefs. eexists.
  apply addFace_loop; [int_lia | done | |].
  - intros i Hi. apply (dom_range_None _ _ _ _ Hfm). lia.
  - intros i id Hi Hid. cbn [edge_map]. apply Hem. by eapply Hrefs.
Qed.

Lemma vertex_block (x y z : nat → double) k base vm em fm vs es fs :
  1 ≤ base → base + Z.of_nat k ≤ INT_MAX + 1 → dom_range vm 1 base →
  ∃ vm' vs',
    for_range 0 k (λ i m, snd (addVertex (to_int (base + Z.of_nat i)) (x i) (y i) (z i) m))
              (mkModelManager vm em fm vs es fs)
    = mkModelManager vm' em fm vs' es fs
    ∧ dom_range vm' 1 (base + Z.of_nat k).
Proof.
  intros Hbase Hmax Hdom. eexists _, _. split.
  - apply (addVertex_loop (λ i, to_int (base + Z.of_nat i)) x y z).
    + intros i j Hi Hj. int_simpl. lia.
    + intros i Hi. apply (dom_range_None _ _ _ _ Hdom). int_simpl. lia.
  - cbn [vertex_map]. apply dom_range_insert_range; [lia | done |].
    intros i Hi. simpl. int_simpl. lia.
Qed.

(** The edge and face sequences of an extrusion on an empty store. *)
Lemma extrude_empty_store_lists profile distance :
  profile ≠ [] →
  3 * Z.of_nat (length profile) < INT_MAX →
  ∃ m', extrude newModelManager profile distance = (true, m')
    ∧ edges m' = extrude_edges (length profile)
    ∧ faces m' = extrude_faces (length profile).
Proof.
  intros Hne Hbound. unfold extrude.
  destruct profile as [|p0 rest] eqn:Hp; [done|]. rewrite <- Hp in *. clear Hp p0 rest.
  set (k := length profile) in *.
  assert (Hk : k ≠ 0%nat) by (subst k; by destruct profile).
  assert (Hnext : ∀ i, 0 ≤ Z.of_nat ((i + 1) mod k) < Z.of_nat k)
    by (intros i; by apply next_index_lt).
  unfold reserveVertices, reserveEdges, reserveFaces. cbv zeta.
  unfold newModelManager.
  destruct (vertex_block (λ i, pt_x (profile !!! i)) (λ i, pt_y (profile !!! i))
              (λ i, pt_z (profile !!! i)) k 1 ∅ ∅ ∅ [] [] [])
    as (vm1 & vs1 & -> & Hdom1); [lia | int_lia | apply dom_range_empty |].
  destruct (vertex_block (λ i, pt_x (profile !!! i)) (λ i, pt_y (profile !!! i))
              (λ i, d_add (pt_z (profile !!! i)) distance) k (1 + Z.of_nat k)
              vm1 ∅ ∅ vs1 [] [])
    as (vm & vs & -> & Hvm); [lia | int_lia | done |].
  clear vm1 vs1 Hdom1.
  destruct (edge_block_list (λ i, to_int (1 + Z.of_nat i))
              (λ i, int_add 1 (to_int (Z.of_nat ((i + 1) mod k))))
              k 1 vm ∅ ∅ vs [] [] (1 + Z.of_nat k + Z.of_nat k))
    as (em1 & -> & Hem1);
    [lia | int_lia | apply dom_range_empty | done
    | intros i Hi; pose proof (Hnext i); int_simpl; lia |].
  match goal with |- context [mkModelManager vm em1 ∅ vs ?l []] =>
  destruct (edge_block_list (λ i, to_int (1 + Z.of_nat k + Z.of_nat i))
              (λ i, to_int (1 + Z.of_nat k + to_int (Z.of_nat ((i + 1) mod k))))
              k (1 + Z.of_nat k) vm em1 ∅ vs l [] (1 + Z.of_nat k + Z.of_nat k))
    as (em2 & -> & Hem2);
    [lia | int_lia | done | done
    | intros i Hi; pose proof (Hnext i); int_simpl; lia |]
  end.
  match goal with |- context [mkModelManager vm em2 ∅ vs ?l []] =>
  destruct (edge_block_list (λ i, to_int (1 + Z.of_nat i))
              (λ i, to_int (1 + Z.of_nat k + Z.of_nat i))
              k (1 + Z.of_nat k + Z.of_nat k) vm em2 ∅ vs l [] (1 + Z.of_nat k + Z.of_nat k))
    as (em & -> & Hem);
    [lia | int_lia | done | done
    | intros i Hi; int_simpl; lia |]
  end.
  cbn [snd]. clear em1 em2 Hem1 Hem2.
  match goal with |- context [mkModelManager vm em ∅ vs ?l []] =>
    assert (Hes : l = extrude_edges k); [|rewrite Hes; clear Hes]
  end.
  { unfold extrude_edges. cbn [app]. rewrite <- app_assoc.
    f_equal; [|f_equal]; apply map_ext_in; intros i Hi%in_seq; pose proof (Hnext i);
      int_simpl; done. }
  (* faces *)
  replace (k + 1)%nat with (1 + k)%nat by lia.
  replace (k * 2 + 1)%nat with (1 + k + k)%nat by lia.
  rewrite !push_back_loop. cbn [app].
  rewrite (int_ids_from 1 k), (int_ids_from (1 + k) k) by int_lia.
  replace (Z.of_nat (1 + k)) with (Z.of_nat k + 1) by lia.
  change (Z.of_nat 1) with 1. change (int_succ 1) with 2. change (int_succ 2) with 3.
  set (f1 := newFace (id_range 1 k)). set (f2 := newFace (id_range (Z.of_nat k + 1) k)).
  set (es := extrude_edges k).
  assert (Hface1 : addFace 1 (id_range 1 k) (mkModelManager vm em ∅ vs es [])
                   = (Some f1, mkModelManager vm em (<[1 := f1]> ∅) vs es [f1])).
  { unfold addFace. cbn [vertex_map edge_map face_map vertices edges faces].
    rewrite lookup_empty.
    replace (edges_all_exist _ _) with true; [done|].
    symmetry. apply edges_all_exist_true. intros id Hid%elem_of_id_range.
    apply Hem. lia. }
  rewrite Hface1. cbn [snd]. clear Hface1.
  assert (Hface2 : addFace 2 (id_range (Z.of_nat k + 1) k)
                     (mkModelManager vm em (<[1 := f1]> ∅) vs es [f1])
                   = (Some f2, mkModelManager vm em (<[2 := f2]> (<[1 := f1]> ∅)) vs es
                                 [f1; f2])).
  { unfold addFace. cbn [vertex_map edge_map face_map vertices edges faces].
    rewrite lookup_insert_ne by done. rewrite lookup_empty.
    replace (edges_all_exist _ _) with true; [done|].
    symmetry. apply edges_all_exist_true. intros id Hid%elem_of_id_range.
    apply Hem. lia. }
  rewrite Hface2. cbn [snd]. clear Hface2.
  destruct (face_block_list
              (λ i, [ to_int (Z.of_nat k * 2 + 1 + Z.of_nat i);
                      to_int (Z.of_nat k + 1 + Z.of_nat ((i + 1) mod k));
                      to_int (Z.of_nat k * 2 + 1 + Z.of_nat ((i + 1) mod k));
                      to_int (Z.of_nat i + 1) ])
              k 3 vm em (<[2 := f2]> (<[1 := f1]> ∅)) vs es [f1; f2]
              (1 + Z.of_nat k + Z.of_nat k + Z.of_nat k)) as (fm & ->);
    [lia | int_lia | | done | |].
  { intros id. destruct (decide (id = 2)) as [->|]; [rewrite lookup_insert_eq|].
    - split; [lia | done].
    - rewrite lookup_insert_ne by done.
      destruct (decide (id = 1)) as [->|]; [rewrite lookup_insert_eq|].
      + split; [lia | done].
      + rewrite lookup_insert_ne, lookup_empty by done. split; [by intros [? ?] | lia]. }
  { intros i id Hi Hid. pose proof (Hnext i).
    repeat (apply elem_of_cons in Hid as [->|Hid]; [int_simpl; lia|]).
    by apply not_elem_of_nil in Hid. }
  eexists. split; [reflexivity|]. cbn [snd edges faces]. split; [done|].
  unfold extrude_faces. cbn [app]. do 2 f_equal.
  apply map_ext_in; intros i Hi%in_seq; pose proof (Hnext i).
  unfold extrude_side_face. by int_simpl.
Qed.

Lemma next_index_cases i k :
  k ≠ 0%nat → (i < k)%nat →
  (((i + 1) mod k = i + 1 ∧ i + 1 < k) ∨ ((i + 1) mod k = 0 ∧ i + 1 = k))%nat.
Proof.
  intros Hk Hi. destruct (decide (i + 1 < k)%nat) as [Hlt|Hge].
  - left. split; [by apply Nat.mod_small | done].
  - right. assert (i + 1 = k)%nat as -> by lia. split; [by apply Nat.Div0.mod_same | done].
Qed.

Lemma NoDup_map_seq {A} (f : nat → A) k :
  (∀ i j, (i < k)%nat → (j < k)%nat → f i = f j → i = j) → NoDup (map f (seq 0 k)).
Proof.
  intros Hinj. apply (NoDup_fmap_2_strong f); [|apply NoDup_seq].
  intros i j Hi%elem_of_seq Hj%elem_of_seq. apply Hinj; lia.
Qed.

Lemma elem_of_map_seq {A} (f : nat → A) k x :
  x ∈ map f (seq 0 k) ↔ ∃ i, (i < k)%nat ∧ x = f i.
Proof.
  rewrite list_elem_of_In, in_map_iff. split.
  - intros (i & <- & Hi%in_seq). exists i. split; [lia | done].
  - intros (i & Hi & ->). exists i. split; [done|]. apply in_seq. lia.
Qed.

Ltac next_cases Hk :=
  repeat match goal with
    | Hi : (?i < ?k)%nat |- _ =>
        is_var i;
        lazymatch goal with
        | _ : ((i + 1) mod k = _)%nat |- _ => fail
        | _ => destruct (next_index_cases i k Hk Hi) as [[? ?]|[? ?]]
        end
    end.

(** The edges of an extruded shell join pairwise different vertex pairs,
    unless the profile has exactly two points. *)
Lemma extrude_edges_no_duplicates k :
  k ≠ 0%nat → k ≠ 2%nat → NoDup (endpoint_pair <$> extrude_edges k).
Proof.
  intros Hk Hk2. unfold extrude_edges. cbv zeta.
  change (endpoint_pair <$> ?l) with (map endpoint_pair l).
  rewrite !map_app, !map_map. unfold endpoint_pair. cbn [start_id end_id].
  apply NoDup_app. split; [|split; [|apply NoDup_app; split; [|split]]].
  - apply NoDup_map_seq. intros i j Hi Hj [= H1 H2]. next_cases Hk; lia.
  - intros x (i & Hi & ->)%elem_of_map_seq [Hin|Hin]%elem_of_app;
      apply elem_of_map_seq in Hin as (j & Hj & [= H1 H2]); next_cases Hk; lia.
  - apply NoDup_map_seq. intros i j Hi Hj [= H1 H2]. next_cases Hk; lia.
  - intros x (i & Hi & ->)%elem_of_map_seq (j & Hj & [= H1 H2])%elem_of_map_seq.
    next_cases Hk; lia.
  - apply NoDup_map_seq. intros i j Hi Hj [= H1 H2]. lia.
Qed.

Lemma merge_sort_eq_elem_of (l1 l2 : list Z) x :
  merge_sort Z.le l1 = merge_sort Z.le l2 → x ∈ l1 → x ∈ l2.
Proof. intros Heq%merge_sort_eq_iff Hx. by rewrite <- Heq. Qed.

(** The faces of an extruded shell have pairwise different edge sets. *)
Lemma extrude_faces_no_duplicates k :
  k ≠ 0%nat → NoDup ((λ f, merge_sort Z.le (edge_ids f)) <$> extrude_faces k).
Proof.
  intros Hk. unfold extrude_faces.
  change ((λ f, merge_sort Z.le (edge_ids f)) <$> ?l)
    with (map (λ f, merge_sort Z.le (edge_ids f)) l).
  cbn [map]. rewrite map_map.
  assert (Hone : 1 ∈ id_range 1 k) by (apply elem_of_id_range; lia).
  apply NoDup_cons. split; [|apply NoDup_cons; split].
  - intros [Heq|(j & Hj & Heq)%elem_of_map_seq]%elem_of_cons.
    + apply (merge_sort_eq_elem_of _ _ 1) in Heq; [|done].
      apply elem_of_id_range in Heq. lia.
    + symmetry in Heq.
      apply (merge_sort_eq_elem_of _ _ (Z.of_nat k * 2 + 1 + Z.of_nat j)) in Heq;
        [|by left].
      apply elem_of_id_range in Heq. lia.
  - intros (j & Hj & Heq)%elem_of_map_seq. symmetry in Heq.
    apply (merge_sort_eq_elem_of _ _ (Z.of_nat j + 1)) in Heq;
      [|simpl; do 3 right; by left].
    apply elem_of_id_range in Heq. lia.
  - apply NoDup_map_seq. intros i j Hi Hj Heq.
    apply (merge_sort_eq_elem_of _ _ (Z.of_nat i + 1)) in Heq;
      [|simpl; do 3 right; by left].
    simpl in Heq. next_cases Hk.
    all: repeat (apply elem_of_cons in Heq as [Heq|Heq]; [lia|]).
    all: by apply not_elem_of_nil in Heq.
Qed.

(** An extrusion into an empty store and the validator. For a profile of
    n points, n different from 2 (and 3n below [INT_MAX]), the shell has no two
    edges between the same two vertices and no two faces over the same edges:
    both duplicate detectors return nothing, and the aggregate check returns
    [false] and writes only the line saying that no error was found. A
    profile of exactly two points gives a base ring and a top ring that each
    run forth and back between the same two vertices, and the edge detector
    returns [2; 4]. *)
Theorem extruded_shell_validation profile distance buf cout :
  profile ≠ [] → length profile ≠ 2%nat →
  3 * Z.of_nat (length profile) < INT_MAX →
  let m' := snd (extrude newModelManager profile distance) in
  detectDuplicateEdges m' = []
  ∧ detectDuplicateFaces m' = []
  ∧ fst (fst (detectAllTopologyErrors m' buf cout)) = false
  ∧ snd (detectAllTopologyErrors m' buf cout) = (cout +:+ "未检测到拓扑错误！") +:+ endl
  ∧ (∀ p q d, detectDuplicateEdges (snd (extrude newModelManager [p; q] d)) = [2; 4]).
Proof.
  intros Hne Hk2 Hbound m'.
  assert (Hk : length profile ≠ 0%nat) by (by destruct profile).
  destruct (extrude_empty_store_lists profile distance Hne Hbound) as (m0 & Heq & Hes & Hfs).
  subst m'. rewrite Heq. cbn [snd].
  assert (He : NoDup (endpoint_pair <$> edges m0))
    by (rewrite Hes; by apply extrude_edges_no_duplicates).
  assert (Hf : NoDup ((λ f, merge_sort Z.le (edge_ids f)) <$> faces m0))
    by (rewrite Hfs; by apply extrude_faces_no_duplicates).
  destruct (detectAllTopologyErrors_flag m0 buf cout) as (Hflag & Hout & _).
  assert (Hfalse : fst (fst (detectAllTopologyErrors m0 buf cout)) = false)
    by (by apply Hflag).
  split; [|split; [|split; [done|split; [by apply Hout|]]]].
  - rewrite detectDuplicateEdges_by_pairs. apply duplicate_edges_from_nil.
    split; [done|]. intros e _. apply not_elem_of_nil.
  - rewrite detectDuplicateFaces_by_sorted_ids. apply duplicate_faces_from_nil.
    split; [done|]. intros f _. apply not_elem_of_nil.
  - intros p q d. reflexivity.
Qed.

Lemma extruded_shell_validation_witness :
  let m' := snd (extrude newModelManager unit_square d_1) in
  detectDuplicateEdges m' = []
  ∧ detectDuplicateFaces m' = []
  ∧ fst (fst (detectAllTopologyErrors m' (mkVec3 d_0 d_0 d_0) "")) = false
  ∧ snd (detectAllTopologyErrors m' (mkVec3 d_0 d_0 d_0) "")
    = ("" +:+ "未检测到拓扑错误！") +:+ endl
  ∧ (∀ p q d, detectDuplicateEdges (snd (extrude newModelManager [p; q] d)) = [2; 4]).
Proof.
  apply (extruded_shell_validation unit_square d_1);
    [discriminate | discriminate | reflexivity].
Defined.
